(** * Huffman coding: a shallow embedding of [Huffman.h] / [Huffman.cpp]

    The development follows the C++ sources function by function.

    - [std::size_t] and [std::int16_t] values are integers of [Z]; every
      arithmetic operation and every [static_cast] of the source is followed
      by the wrap-around of its type ([to_size_t], [to_int16]).
    - [std::uint8_t], [char] and the elements of [std::string] are
      [Byte.byte]; a [std::string] is a [list byte], a [std::vector<bool>] a
      [list bool].
    - Indexing a vector out of its bounds, [top]/[pop] on an empty queue and
      [back] on an empty vector are undefined behaviour in C++; the model
      makes them explicit: every function that may reach one returns a
      [result], and the offending access yields [Err].
    - [std::priority_queue] is the container adaptor of the C++ standard:
      a [std::vector] kept as a heap by [std::push_heap] / [std::pop_heap].
      The standard fixes the contract of these two algorithms but not the
      arrangement they produce, so the model takes them as an interface
      ([HeapAlgorithms]); every theorem holds for all conforming
      implementations, and the implementation of GCC's libstdc++ is
      provided to run the code. *)

From Stdlib Require Import ZArith Lia ZifyNat.
From Stdlib.Strings Require Import Byte String.
From stdpp Require Import base tactics option list numbers functions
  relations sorting.

Local Open Scope Z_scope.

(** Linear arithmetic with the divisions by 2 of the heap indices. *)
Ltac div_lia := Z.to_euclidean_division_equations; lia.

(** ** Machine integers *)

(** Conversion to [std::size_t] (64 bits, unsigned). *)
Definition to_size_t (z : Z) : Z := z mod 2 ^ 64.

(** Conversion to [std::int16_t] (16 bits, two's complement). *)
Definition to_int16 (z : Z) : Z := (z + 2 ^ 15) mod 2 ^ 16 - 2 ^ 15.

(** Conversion to [std::uint8_t]. *)
Definition to_uint8 (z : Z) : byte :=
  default x00 (Byte.of_N (Z.to_N (z mod 256))).

#[global] Instance byte_eq_dec : EqDecision byte := Byte.byte_eq_dec.
#[global] Instance byte_inhabited : Inhabited byte := populate x00.

(** ** Undefined behaviour made explicit *)

Inductive error : Type :=
  | OutOfBounds   (* vector, span or queue accessed outside its bounds *)
  | AssertFailed  (* the [assert] of [init_dict] fired *)
  | Diverges.     (* the recursion or loop does not terminate *)

Inductive result (A : Type) : Type :=
  | Ok (a : A)
  | Err (e : error).
Arguments Ok {A} a.
Arguments Err {A} e.

Definition bind {A B} (m : result A) (k : A → result B) : result B :=
  match m with
  | Ok a => k a
  | Err e => Err e
  end.

Notation "'let*' x ':=' m 'in' k" := (bind m (fun x => k))
  (at level 10, x name, m at level 100, k at level 200, only parsing).

(** [v[i]] for a vector [v] and an index [i]; a negative [i] converts to a
    huge [size_t] and is out of bounds like any [i >= v.size()]. *)
Definition vec_at {A} (v : list A) (i : Z) : result A :=
  if i <? 0 then Err OutOfBounds
  else match v !! Z.to_nat i with
       | Some x => Ok x
       | None => Err OutOfBounds
       end.

(** [v[i] = x]. *)
Definition vec_set {A} (v : list A) (i : Z) (x : A) : result (list A) :=
  if (0 <=? i) && (i <? Z.of_nat (length v))
  then Ok (<[Z.to_nat i := x]> v)
  else Err OutOfBounds.

(** [v.front()] and [v.back()]. *)
Definition vec_front {A} (v : list A) : result A :=
  match v with
  | x :: _ => Ok x
  | [] => Err OutOfBounds
  end.

Definition vec_back {A} (v : list A) : result A :=
  match last v with
  | Some x => Ok x
  | None => Err OutOfBounds
  end.

(** [v.size()]. *)
Definition vec_size {A} (v : list A) : Z := to_size_t (Z.of_nat (length v)).

(** ** [Huffman.h]: nodes and the encoded artifact *)

Record Node : Type := mkNode {
  left : Z;      (* std::int16_t, -1 means 'none' *)
  right : Z;     (* std::int16_t, -1 means 'none' *)
  value : byte;  (* std::uint8_t *)
}.

Definition isLeaf (n : Node) : bool := (left n =? -1) && (right n =? -1).

Record Encoded : Type := mkEncoded {
  binary_data_ : list bool;
  nodes_ : list Node;
}.

(** [Encoded() = default]: both vectors are empty. *)
Definition Encoded_default : Encoded :=
  {| binary_data_ := []; nodes_ := [] |}.

(** [root()] is [nodes_.back()]. *)
Definition root (nodes : list Node) : result Node := vec_back nodes.

(** [root_index()] is [static_cast<int16_t>(nodes_.size() - 1)]. *)
Definition root_index (nodes : list Node) : Z :=
  to_int16 (to_size_t (vec_size nodes - 1)).

(** ** [Huffman.cpp]: counting bytes and making the leaves *)

Record NodeWithCount : Type := mkNodeWithCount {
  node : Node;
  count : Z;  (* std::size_t *)
}.

(** [UCHAR_MAX] of [<climits>]; [Huffman.h] asserts [CHAR_BIT == 8]. *)
Definition UCHAR_MAX : nat := 255.

(** [count_bytes]: [std::array<size_t, UCHAR_MAX + 1> counts = {}], then
    [++counts[ch]] for every byte. *)
Definition count_bytes (bytes : list byte) : list Z :=
  foldl (λ counts ch, alter (λ c, to_size_t (c + 1)) (Byte.to_nat ch) counts)
        (replicate (UCHAR_MAX + 1) 0) bytes.

(** [make_leaf_nodes]: the loop over [i], started at index [i]. *)
Fixpoint make_leaf_nodes_from (i : Z) (counts : list Z) : list NodeWithCount :=
  match counts with
  | [] => []
  | c :: counts' =>
      (if c =? 0 then []
       else [mkNodeWithCount (mkNode (-1) (-1) (to_uint8 i)) c])
      ++ make_leaf_nodes_from (to_size_t (i + 1)) counts'
  end.

Definition make_leaf_nodes (counts : list Z) : list NodeWithCount :=
  make_leaf_nodes_from 0 counts.

(** ** [std::priority_queue] *)

(** The comparator requirement of the standard library. *)
Record strict_weak_order (comp : Z → Z → bool) : Prop := {
  swo_irrefl x : comp x x = false;
  swo_trans x y z : comp x y = true → comp y z = true → comp x z = true;
  swo_equiv_trans x y z :
    comp x y = false → comp y x = false →
    comp y z = false → comp z y = false →
    comp x z = false ∧ comp z x = false;
}.

(** [alg.heap.operations]: a range is a heap with respect to [comp] when no
    element is smaller than the element at its child positions. *)
Definition is_heap (comp : Z → Z → bool) (c : list Z) : Prop :=
  ∀ (i : nat) (p x : Z),
    (0 < i)%nat → c !! ((i - 1) / 2)%nat = Some p → c !! i = Some x →
    comp p x = false.

(** [std::push_heap] and [std::pop_heap] with their contracts. *)
Class HeapAlgorithms : Type := {
  push_heap : (Z → Z → bool) → list Z → list Z;
  pop_heap : (Z → Z → bool) → list Z → list Z;
  push_heap_spec comp c x :
    strict_weak_order comp → is_heap comp c →
    is_heap comp (push_heap comp (c ++ [x])) ∧
    push_heap comp (c ++ [x]) ≡ₚ c ++ [x];
  pop_heap_spec comp x c :
    strict_weak_order comp → is_heap comp (x :: c) →
    ∃ c', pop_heap comp (x :: c) = c' ++ [x] ∧ is_heap comp c' ∧ c' ≡ₚ c;
}.

Section priority_queue.
Context `{HeapAlgorithms}.

(** [push]: [c.push_back(x); push_heap(c.begin(), c.end(), comp)]. *)
Definition pq_push (comp : Z → Z → bool) (x : Z) (c : list Z) : list Z :=
  push_heap comp (c ++ [x]).

(** [top]: [c.front()]. *)
Definition pq_top (c : list Z) : result Z := vec_front c.

(** [pop]: [pop_heap(c.begin(), c.end(), comp); c.pop_back()]. *)
Definition pq_pop (comp : Z → Z → bool) (c : list Z) : result (list Z) :=
  match c with
  | [] => Err OutOfBounds
  | _ => Ok (removelast (pop_heap comp c))
  end.

(** [size]: [c.size()]. *)
Definition pq_size (c : list Z) : Z := vec_size c.
End priority_queue.

(** ** [Huffman.cpp]: building the tree *)

(** [nodes_with_size[i].count] as the comparator reads it.  The comparator
    is only ever applied to indices held by the queue, which are in bounds
    (lemma [forest_inv_bound]); outside the bounds the model answers 0. *)
Definition count_at (nodes_with_size : list NodeWithCount) (i : Z) : Z :=
  match vec_at nodes_with_size i with
  | Ok n => count n
  | Err _ => 0
  end.

(** The lambda [cmp] of [init_tree] ("reverse compare"). *)
Definition cmp (nodes_with_size : list NodeWithCount) (lhs rhs : Z) : bool :=
  count_at nodes_with_size lhs >? count_at nodes_with_size rhs.

Section init_tree.
Context `{HeapAlgorithms}.

(** The [for] loop pushing the indices [i] of the leaves. *)
Fixpoint push_leaves (nodes_with_size : list NodeWithCount)
    (indices : list Z) (queue : list Z) : result (list Z) :=
  match indices with
  | [] => Ok queue
  | i :: indices' =>
      let* n := vec_at nodes_with_size i in
      push_leaves nodes_with_size indices'
        (if count n =? 0 then queue
         else pq_push (cmp nodes_with_size) i queue)
  end.

(** One iteration of the [while] loop. *)
Definition merge_step (nodes_with_size : list NodeWithCount)
    (queue : list Z) : result (list NodeWithCount * list Z) :=
  let* back1 := pq_top queue in
  let* queue := pq_pop (cmp nodes_with_size) queue in
  let* back2 := pq_top queue in
  let* queue := pq_pop (cmp nodes_with_size) queue in
  let* n1 := vec_at nodes_with_size back1 in
  let* n2 := vec_at nodes_with_size back2 in
  let nodes_with_size :=
    nodes_with_size ++
    [mkNodeWithCount (mkNode back1 back2 x00)
                     (to_size_t (count n1 + count n2))] in
  let queue :=
    pq_push (cmp nodes_with_size)
            (to_int16 (to_size_t (vec_size nodes_with_size - 1))) queue in
  Ok (nodes_with_size, queue).

(** [while (queue.size() > 1)]. *)
Fixpoint merge_loop (fuel : nat) (nodes_with_size : list NodeWithCount)
    (queue : list Z) : result (list NodeWithCount) :=
  if 1 <? pq_size queue then
    match fuel with
    | O => Err Diverges
    | S fuel' =>
        let* st := merge_step nodes_with_size queue in
        merge_loop fuel' st.1 st.2
    end
  else Ok nodes_with_size.

(** The transition of the loop: from a state whose queue holds more than
    one index, one iteration leads to the next state. *)
Definition loop_step (s s' : list NodeWithCount * list Z) : Prop :=
  1 < pq_size s.2 ∧ merge_step s.1 s.2 = Ok s'.

(** The state at the [switch]: the leaves and the queue of their indices. *)
Definition init_queue (input_data : list byte)
    : result (list NodeWithCount * list Z) :=
  let nodes_with_size := make_leaf_nodes (count_bytes input_data) in
  let sz := to_int16 (vec_size nodes_with_size) in
  let* queue := push_leaves nodes_with_size (seqZ 0 sz) [] in
  Ok (nodes_with_size, queue).

(** [Encoded::init_tree]; the result is the member [nodes_].  Every
    iteration of the [while] loop shortens the queue by one, so a fuel
    equal to the queue's length lets the loop run to its end. *)
Definition init_tree (input_data : list byte) : result (list Node) :=
  let* st := init_queue input_data in
  let nodes_with_size := st.1 in
  let queue := st.2 in
  match pq_size queue with
  | 0 => Ok [mkNode (-1) (-1) x00]
  | 1 =>
      let* v := vec_front input_data in
      Ok [mkNode (-1) (-1) v; mkNode (-1) 0 x00]
  | _ =>
      let* nodes_with_size :=
        merge_loop (length queue) nodes_with_size queue in
      Ok (node <$> nodes_with_size)
  end.
End init_tree.

(** ** [Huffman.cpp]: the dictionary of paths *)

(** [CharDictT] is [std::array<std::string, UCHAR_MAX + 1>]: one string
    for each byte. *)
Abbreviation CharDictT := (byte → list byte).

(** [CharDictT dict = {}]: 256 empty strings. *)
Definition dict_empty : CharDictT := λ _, [].

(** [key.back() = 1] and [key.pop_back()]. *)
Definition set_back (key : list byte) (b : byte) : result (list byte) :=
  match key with
  | [] => Err OutOfBounds
  | _ => Ok (removelast key ++ [b])
  end.

Definition pop_back (key : list byte) : result (list byte) :=
  match key with
  | [] => Err OutOfBounds
  | _ => Ok (removelast key)
  end.

(** The recursive [init_dict]; [dict] and [key] are passed by reference in
    the source and threaded through here.  Each call that passes the guard
    [root < 0] uses one unit of fuel. *)
Fixpoint init_dict_rec (fuel : nat) (nodes : list Node) (root : Z)
    (dict : CharDictT) (key : list byte) : result (CharDictT * list byte) :=
  if root <? 0 then Ok (dict, key)
  else match fuel with
  | O => Err Diverges
  | S fuel' =>
      if negb (root <? vec_size nodes) then Err AssertFailed
      else
        let* elm := vec_at nodes root in
        if isLeaf elm then Ok (<[value elm := key]> dict, key)
        else
          let key := key ++ [x00] in
          let* st := init_dict_rec fuel' nodes (left elm) dict key in
          let* key := set_back st.2 x01 in
          let* st := init_dict_rec fuel' nodes (right elm) st.1 key in
          let* key := pop_back st.2 in
          Ok (st.1, key)
  end.

(** The three-argument [init_dict].  A chain of nested calls longer than
    the arena visits some index twice and then recurses forever, so the
    arena's length is all the fuel a terminating run needs. *)
Definition init_dict (nodes : list Node) (root : Z) (dict : CharDictT)
    : result CharDictT :=
  let* st := init_dict_rec (length nodes) nodes root dict [] in
  Ok st.1.

(** The indices at which the recursive [init_dict] evaluates [nodes[root]],
    in the order of the calls. *)
Fixpoint init_dict_reads (fuel : nat) (nodes : list Node) (root : Z)
    : list Z :=
  if root <? 0 then []
  else match fuel with
  | O => []
  | S fuel' =>
      if negb (root <? vec_size nodes) then []
      else match vec_at nodes root with
           | Err _ => []
           | Ok elm =>
               root ::
               (if isLeaf elm then []
                else init_dict_reads fuel' nodes (left elm) ++
                     init_dict_reads fuel' nodes (right elm))
           end
  end.

(** ** [Huffman.cpp]: the bit sequence *)

(** The size of the string that [dict] holds for the byte [b]. *)
Definition dict_size (dict : CharDictT) (b : byte) : Z :=
  to_size_t (Z.of_nat (length (dict b))).

(** An operand of [BinOp]: a partial sum or an element of the input. *)
Inductive operand : Type :=
  | OpSize (a : Z)
  | OpByte (b : byte).

(** The four overloads of [BinOp::operator()]. *)
Definition BinOp (dict : CharDictT) (a b : operand) : Z :=
  match a, b with
  | OpSize a, OpSize b => to_size_t (a + b)
  | OpSize a, OpByte b => to_size_t (a + dict_size dict b)
  | OpByte a, OpSize b => to_size_t (dict_size dict a + b)
  | OpByte a, OpByte b => to_size_t (dict_size dict a + dict_size dict b)
  end.

(** [numeric.defns]: GENERALIZED_NONCOMMUTATIVE_SUM and GENERALIZED_SUM, the
    results [std::reduce] may return under any execution policy. *)
Inductive generalized_noncommutative_sum (dict : CharDictT)
    : list operand → operand → Prop :=
  | gnsum_one a : generalized_noncommutative_sum dict [a] a
  | gnsum_split l1 l2 a b :
      l1 ≠ [] → l2 ≠ [] →
      generalized_noncommutative_sum dict l1 a →
      generalized_noncommutative_sum dict l2 b →
      generalized_noncommutative_sum dict (l1 ++ l2) (OpSize (BinOp dict a b)).

Definition generalized_sum (dict : CharDictT) (l : list operand)
    (r : operand) : Prop :=
  ∃ l', l' ≡ₚ l ∧ generalized_noncommutative_sum dict l' r.

(** [std::reduce(first, last, size_t{}, BinOp{&dict})] evaluated from left
    to right, one of the evaluations the standard allows. *)
Definition reduce (dict : CharDictT) (input_data : list byte) : Z :=
  foldl (λ acc b, BinOp dict (OpSize acc) (OpByte b)) 0 input_data.

(** The inner loop of step 3: [binary_data_[bit_iter++] = !!bit]. *)
Fixpoint write_bits (key : list byte) (binary_data : list bool)
    (bit_iter : Z) : result (list bool * Z) :=
  match key with
  | [] => Ok (binary_data, bit_iter)
  | bit :: key' =>
      let* binary_data :=
        vec_set binary_data bit_iter (negb (Byte.eqb bit x00)) in
      write_bits key' binary_data (to_size_t (bit_iter + 1))
  end.

(** The outer loop of step 3. *)
Fixpoint concat_paths (dict : CharDictT) (input_data : list byte)
    (binary_data : list bool) (bit_iter : Z) : result (list bool * Z) :=
  match input_data with
  | [] => Ok (binary_data, bit_iter)
  | ch :: input_data' =>
      let* st := write_bits (dict ch) binary_data bit_iter in
      concat_paths dict input_data' st.1 st.2
  end.

(** [Encoded::init_binary_data]; the result is the member [binary_data_]. *)
Definition init_binary_data (nodes : list Node) (input_data : list byte)
    : result (list bool) :=
  let* dict := init_dict nodes (root_index nodes) dict_empty in
  let size := reduce dict input_data in
  let binary_data := replicate (Z.to_nat size) false in
  let* st := concat_paths dict input_data binary_data 0 in
  Ok st.1.

(** ** [Encoded::encode] and [Encoded::decode] *)

Section encode.
Context `{HeapAlgorithms}.

Definition encode (input_data : list byte) : result Encoded :=
  let* nodes := init_tree input_data in
  let* binary_data := init_binary_data nodes input_data in
  Ok {| binary_data_ := binary_data; nodes_ := nodes |}.

(** The adapters.  A pointer is modelled by the bytes stored from its
    address on; [std::span{p, size}] views the first [size] of them.
    [std::byte], [char] and [std::uint8_t] objects are one byte each, and
    the [static_cast] through [void const *] reads that same byte. *)
Definition encode_ptr (source : list byte) (size : Z) : result Encoded :=
  encode (take (Z.to_nat size) source).

Definition encode_bytes (input_data : list byte) : result Encoded :=
  encode_ptr input_data (vec_size input_data).

Definition encode_string_view (input_data : list byte) : result Encoded :=
  encode_ptr input_data (vec_size input_data).
End encode.

(** The loop of [decode] over the remaining bits. *)
Fixpoint decode_loop (nodes : list Node) (bits : list bool)
    (node : Node) (str : list byte) : result (Node * list byte) :=
  match bits with
  | [] => Ok (node, str)
  | go_right :: bits' =>
      let* node := vec_at nodes (if go_right then right node else left node) in
      if isLeaf node then
        let* r := root nodes in
        decode_loop nodes bits' r (str ++ [value node])
      else decode_loop nodes bits' node str
  end.

Definition decode (e : Encoded) : result (list byte) :=
  let* node := root (nodes_ e) in
  let* st := decode_loop (nodes_ e) (binary_data_ e) node [] in
  Ok st.2.

(** The index [go_right ? node.right : node.left] that each iteration of
    the loop of [decode] passes to [nodes_[...]], iteration after
    iteration; the list stops at an index that is out of bounds. *)
Fixpoint decode_reads (nodes : list Node) (bits : list bool) (node : Node)
    : list Z :=
  match bits with
  | [] => []
  | go_right :: bits' =>
      let i := if go_right then right node else left node in
      i :: match vec_at nodes i with
           | Ok n =>
               if isLeaf n then
                 match root nodes with
                 | Ok r => decode_reads nodes bits' r
                 | Err _ => []
                 end
               else decode_reads nodes bits' n
           | Err _ => []
           end
  end.

(** ** The inputs that the machine types allow *)

(** A [std::span] cannot hold more elements than a [size_t] can express. *)
Definition span_ok (input_data : list byte) : Prop :=
  Z.of_nat (length input_data) < 2 ^ 64.

(** The bit sequence is addressed by a [size_t]: no path is longer than
    255 characters, so this bound keeps every bit index in range. *)
Definition bits_fit (input_data : list byte) : Prop :=
  255 * Z.of_nat (length input_data) < 2 ^ 64.

(** The number [k] of distinct byte values present in the input. *)
Definition distinct_bytes (input_data : list byte) : nat :=
  length (remove_dups input_data).

(** The number of occurrences of [b] in the input. *)
Definition occurrences (b : byte) (bytes : list byte) : nat :=
  length (filter (λ x, x = b) bytes).

(** ** Vocabulary of the proofs: sums, leaves, trees and paths *)

Definition sumZ (l : list Z) : Z := foldr Z.add 0 l.
Arguments sumZ : simpl never.

Definition count_step (counts : list Z) (ch : byte) : list Z :=
  alter (λ c, to_size_t (c + 1)) (Byte.to_nat ch) counts.

Definition leaf_node (v : byte) (c : Z) : NodeWithCount :=
  mkNodeWithCount (mkNode (-1) (-1) v) c.

Definition leaf_values (ls : list NodeWithCount) : list byte :=
  (λ n, value (node n)) <$> ls.

Definition is_leaf_node (n : NodeWithCount) : Prop :=
  node n = mkNode (-1) (-1) (value (node n)) ∧ 0 < count n.

Inductive tree : Type :=
  | Leaf (v : byte)
  | Fork (l r : tree).

(** [repr nodes i t]: the nodes reachable from index [i] form the tree [t];
    children are stored before their parent. *)
Fixpoint repr (nodes : list Node) (i : Z) (t : tree) : Prop :=
  match t with
  | Leaf v => vec_at nodes i = Ok (mkNode (-1) (-1) v)
  | Fork l r =>
      ∃ il ir, vec_at nodes i = Ok (mkNode il ir x00) ∧
               0 ≤ il < i ∧ 0 ≤ ir < i ∧
               repr nodes il l ∧ repr nodes ir r
  end.

Fixpoint leaves (t : tree) : list byte :=
  match t with
  | Leaf v => [v]
  | Fork l r => leaves l ++ leaves r
  end.

Fixpoint height (t : tree) : nat :=
  match t with
  | Leaf _ => 0
  | Fork l r => S (height l `max` height r)
  end.

(** The paths to the leaves of [t], as [init_dict] spells them: the
    character 0 for left, the character 1 for right. *)
Fixpoint codes (t : tree) : list (byte * list byte) :=
  match t with
  | Leaf v => [(v, [])]
  | Fork l r =>
      (prod_map id (cons x00) <$> codes l) ++
      (prod_map id (cons x01) <$> codes r)
  end.

(** The dictionary after [init_dict] has walked the tree [t] with the
    path [key] accumulated so far. *)
Fixpoint dict_of_tree (t : tree) (key : list byte) (dict : CharDictT)
    : CharDictT :=
  match t with
  | Leaf v => <[v := key]> dict
  | Fork l r =>
      dict_of_tree r (key ++ [x01]) (dict_of_tree l (key ++ [x00]) dict)
  end.

(** Every child field of the arena is the sentinel or the index of a node
    stored before its parent. *)
Definition children_before (nodes : list Node) : Prop :=
  ∀ (i : nat) n, nodes !! i = Some n →
    -1 ≤ left n < Z.of_nat i ∧ -1 ≤ right n < Z.of_nat i.

(** The invariant of the [while] loop: the queue holds the roots of a
    forest [F] over the arena whose leaves are the bytes [L] of the input;
    [total] is the length of the input. *)
Record forest_inv (L : list byte) (total : Z)
    (nodes_with_size : list NodeWithCount) (queue : list Z)
    (F : list (Z * tree)) : Prop := {
  fi_queue : F.*1 ≡ₚ queue;
  fi_repr : Forall (λ it, repr (node <$> nodes_with_size) it.1 it.2) F;
  fi_leaves : F ≫= (λ it, leaves it.2) ≡ₚ L;
  fi_size : (length nodes_with_size + length queue = 2 * length L)%nat;
  fi_heap : is_heap (cmp nodes_with_size) queue;
  fi_total : sumZ (count_at nodes_with_size <$> queue) = total;
  fi_counts : Forall (λ n, 0 ≤ count n) nodes_with_size;
  fi_children : children_before (node <$> nodes_with_size);
}.

Fixpoint leaf_forest (i : Z) (ls : list NodeWithCount) : list (Z * tree) :=
  match ls with
  | [] => []
  | n :: ls' => (i, Leaf (value (node n))) :: leaf_forest (i + 1) ls'
  end.

(** The bits that the fill pass writes for a path: [!!bit]. *)
Definition bits_of (key : list byte) : list bool :=
  (λ bit, negb (Byte.eqb bit x00)) <$> key.

(** The concatenation of the paths of the input's bytes. *)
Definition all_bits (dict : CharDictT) (input_data : list byte) : list bool :=
  input_data ≫= (λ ch, bits_of (dict ch)).

(** The sum of the lengths of the paths, as a mathematical integer. *)
Definition bit_total (dict : CharDictT) (input_data : list byte) : Z :=
  sumZ ((λ ch, Z.of_nat (length (dict ch))) <$> input_data).

Definition op_val (dict : CharDictT) (o : operand) : Z :=
  match o with
  | OpSize a => a
  | OpByte b => dict_size dict b
  end.

(** The order of the byte values. *)
Definition byte_lt (a b : byte) : Prop := (Byte.to_nat a < Byte.to_nat b)%nat.

(** What the nodes appended by the loop look like. *)
Definition merged_ok (nodes_with_size : list NodeWithCount) (i : nat)
    (n : NodeWithCount) : Prop :=
  ∃ n1 n2,
    vec_at nodes_with_size (left (node n)) = Ok n1 ∧
    vec_at nodes_with_size (right (node n)) = Ok n2 ∧
    left (node n) < Z.of_nat i ∧ right (node n) < Z.of_nat i ∧
    value (node n) = x00 ∧ count n = count n1 + count n2.

(** The Kraft sum of a code table over the bytes [bs], scaled by [2 ^ m]. *)
Definition kraft_sum (dict : CharDictT) (m : nat) (bs : list byte) : Z :=
  sumZ ((λ b, 2 ^ Z.of_nat (m - length (dict b))) <$> bs).

(** ** The heap algorithms of libstdc++

    [std::push_heap] and [std::pop_heap] as GCC's [bits/stl_heap.h] writes
    them, on a vector of indices; [a !!! i] reads [*(first + i)].  Each loop
    moves the hole towards the root or towards the leaves, so the distance
    it has left to travel is fuel enough. *)

(** [__push_heap(first, holeIndex, topIndex = 0, value, comp)]. *)
Fixpoint std_push_heap_loop (fuel : nat) (comp : Z → Z → bool) (a : list Z)
    (holeIndex : nat) (value : Z) : list Z :=
  match fuel with
  | O => <[holeIndex := value]> a
  | S fuel' =>
      let parent := ((holeIndex - 1) / 2)%nat in
      if bool_decide (0 < holeIndex)%nat && comp (a !!! parent) value
      then std_push_heap_loop fuel' comp (<[holeIndex := a !!! parent]> a)
                              parent value
      else <[holeIndex := value]> a
  end.

(** [push_heap(first, last, comp)]: the value is [*(last - 1)]. *)
Definition std_push_heap (comp : Z → Z → bool) (a : list Z) : list Z :=
  match last a with
  | Some value =>
      std_push_heap_loop (length a - 1) comp a (length a - 1) value
  | None => a
  end.

(** The [while] loop of [__adjust_heap]: the hole descends to the larger
    child. *)
Fixpoint std_adjust_loop (fuel : nat) (comp : Z → Z → bool) (a : list Z)
    (holeIndex len : nat) : list Z * nat :=
  match fuel with
  | O => (a, holeIndex)
  | S fuel' =>
      if bool_decide (holeIndex < (len - 1) / 2)%nat then
        let secondChild := (2 * (holeIndex + 1))%nat in
        let secondChild :=
          if comp (a !!! secondChild) (a !!! (secondChild - 1)%nat)
          then (secondChild - 1)%nat else secondChild in
        std_adjust_loop fuel' comp (<[holeIndex := a !!! secondChild]> a)
                        secondChild len
      else (a, holeIndex)
  end.

(** [__adjust_heap(first, holeIndex = 0, len, value, comp)]: after the loop,
    a hole whose only child is the last element takes it, and [__push_heap]
    places the value. *)
Definition std_adjust_heap (comp : Z → Z → bool) (a : list Z) (len : nat)
    (value : Z) : list Z :=
  let st := std_adjust_loop len comp a 0 len in
  let st :=
    if bool_decide (len mod 2 = 0)%nat &&
       bool_decide (st.2 = ((len - 2) / 2)%nat)
    then (<[st.2 := st.1 !!! (2 * (st.2 + 1) - 1)%nat]> st.1,
          (2 * (st.2 + 1) - 1)%nat)
    else st in
  std_push_heap_loop st.2 comp st.1 st.2 value.

(** [pop_heap(first, last, comp)]: for more than one element, the last one
    is the value to place, the first one moves to the end, and the range
    without its last element is adjusted. *)
Definition std_pop_heap (comp : Z → Z → bool) (a : list Z) : list Z :=
  match a with
  | first :: rest =>
      match last rest with
      | Some value =>
          std_adjust_heap comp (first :: removelast rest) (length rest) value
          ++ [first]
      | None => a
      end
  | [] => a
  end.

(** The invariants of the two loops.  [heap_gap]: the range is a heap but
    for the hole [h], and the parent of the hole is not smaller than the
    children of the hole.  [heap_hole]: moreover the value [x] to place is
    not smaller than the children of the hole. *)
Definition heap_gap (comp : Z → Z → bool) (a : list Z) (h : nat) : Prop :=
  (∀ i p y, (0 < i)%nat → i ≠ h → ((i - 1) / 2)%nat ≠ h →
     a !! ((i - 1) / 2)%nat = Some p → a !! i = Some y → comp p y = false) ∧
  (∀ c y p, (0 < h)%nat → (0 < c)%nat → ((c - 1) / 2)%nat = h →
     a !! c = Some y → a !! ((h - 1) / 2)%nat = Some p → comp p y = false).

Definition heap_hole (comp : Z → Z → bool) (a : list Z) (h : nat) (x : Z)
    : Prop :=
  (∀ i p y, (0 < i)%nat → i ≠ h → ((i - 1) / 2)%nat ≠ h →
     a !! ((i - 1) / 2)%nat = Some p → a !! i = Some y → comp p y = false) ∧
  (∀ c y, (0 < c)%nat → ((c - 1) / 2)%nat = h →
     a !! c = Some y → comp x y = false) ∧
  (∀ c y p, (0 < h)%nat → (0 < c)%nat → ((c - 1) / 2)%nat = h →
     a !! c = Some y → a !! ((h - 1) / 2)%nat = Some p → comp p y = false).

(** ** Inputs and artifacts to run the code on *)

(** The bytes of a string literal. *)
Definition bytes_of_string (s : string) : list byte := list_byte_of_string s.

(** Every byte value once, from 0 to 255. *)
Definition all_bytes : list byte := to_uint8 <$> seqZ 0 256.

(** The arena of "aabbbcccc" (c has the path 0, a the path 10, b the path
    11) with the bits of "c" followed by the first bit of another path. *)
Definition truncated_artifact : Encoded :=
  {| binary_data_ := [false; true];
     nodes_ := [mkNode (-1) (-1) "a"; mkNode (-1) (-1) "b";
                mkNode (-1) (-1) "c"; mkNode 0 1 x00; mkNode 2 3 x00] |}.

(** ** Strict weak orders and heaps *)

Lemma swo_asym comp x y :
  strict_weak_order comp → comp x y = true → comp y x = false.
Proof.
  intros Hc Hxy. destruct (comp y x) eqn:Hyx; [|done].
  rewrite <- (swo_irrefl comp Hc x). symmetry. by eapply swo_trans.
Qed.

Lemma swo_neg_trans comp x y z :
  strict_weak_order comp →
  comp x y = false → comp y z = false → comp x z = false.
Proof.
  intros Hc Hxy Hyz. destruct (comp x z) eqn:Hxz; [|done].
  destruct (comp y x) eqn:Hyx.
  { rewrite <- Hyz. symmetry. by eapply swo_trans. }
  destruct (comp z y) eqn:Hzy.
  { rewrite <- Hxy. symmetry. by eapply swo_trans. }
  destruct (swo_equiv_trans comp Hc x y z) as [? _]; congruence.
Qed.

Lemma is_heap_nil comp : is_heap comp [].
Proof. intros i p x _ _ Hx. by rewrite lookup_nil in Hx. Qed.

(** The first element of a heap is a largest one: this is what makes
    [top] return a node of least count. *)
Lemma is_heap_front comp x c y :
  strict_weak_order comp → is_heap comp (x :: c) → y ∈ c → comp x y = false.
Proof.
  intros Hc Hh Hy. apply list_elem_of_lookup in Hy as [i Hi].
  assert (∀ n j z, (j ≤ n)%nat → (x :: c) !! j = Some z → comp x z = false)
    as Hall.
  { induction n as [|n IH]; intros j z Hj Hz.
    - assert (j = 0%nat) by lia. simplify_eq/=. by apply swo_irrefl.
    - destruct (decide (j = 0%nat)) as [->|Hne].
      { simplify_eq/=. by apply swo_irrefl. }
      assert ((j - 1) / 2 < j)%nat as Hlt.
      { apply Nat.Div0.div_lt_upper_bound. lia. }
      destruct (lookup_lt_is_Some_2 (x :: c) ((j - 1) / 2)) as [p Hp].
      { apply lookup_lt_Some in Hz. lia. }
      eapply swo_neg_trans; [done| |].
      + eapply (IH ((j - 1) / 2)%nat); [lia|done].
      + eapply Hh; [|done..]. lia. }
  by apply (Hall (S i) (S i)).
Qed.

Lemma is_heap_ext comp comp' c :
  (∀ a b, a ∈ c → b ∈ c → comp a b = comp' a b) →
  is_heap comp c → is_heap comp' c.
Proof.
  intros Heq Hh i p x Hi Hp Hx.
  rewrite <- Heq by (by eapply list_elem_of_lookup_2).
  by eapply Hh.
Qed.

(** ** The heap algorithms of libstdc++ meet their contracts *)

Lemma insert_cons_perm (a : list Z) m x y :
  a !! m = Some y → y :: <[m := x]> a ≡ₚ x :: a.
Proof.
  revert m. induction a as [|z a IH]; intros [|m] Hm; simplify_eq/=.
  - apply perm_swap.
  - rewrite perm_swap. rewrite (IH _ Hm). apply perm_swap.
Qed.

Lemma insert_swap_perm (a : list Z) h m x y :
  h ≠ m → (h < length a)%nat → a !! m = Some y →
  <[m := x]> (<[h := y]> a) ≡ₚ <[h := x]> a.
Proof.
  intros Hne Hh Hm.
  destruct (lookup_lt_is_Some_2 a h Hh) as [w Hw].
  apply (Permutation_cons_inv (a:=y)), (Permutation_cons_inv (a:=w)).
  assert (<[h := y]> a !! m = Some y) as Hm'
    by (by rewrite list_lookup_insert_ne).
  rewrite (insert_cons_perm _ m x y Hm').
  rewrite (perm_swap x w), (insert_cons_perm a h y w Hw).
  rewrite (perm_swap y w), (insert_cons_perm a h x w Hw).
  apply perm_swap.
Qed.

Lemma push_loop_perm comp fuel : ∀ a h x,
  (h < length a)%nat →
  std_push_heap_loop fuel comp a h x ≡ₚ <[h := x]> a.
Proof.
  induction fuel as [|fuel IH]; intros a h x Hh; [reflexivity|]. cbn [std_push_heap_loop].
  destruct (bool_decide (0 < h)%nat && comp (a !!! ((h - 1) / 2)%nat) x)
    eqn:Hc; [|reflexivity].
  apply andb_prop in Hc as [Hpos%bool_decide_eq_true _].
  assert ((h - 1) / 2 < h)%nat as Hlt by div_lia.
  rewrite IH by (rewrite length_insert; lia).
  apply insert_swap_perm; [lia|done|].
  apply list_lookup_lookup_total_lt. lia.
Qed.

Lemma push_loop_heap comp fuel : ∀ a h x,
  strict_weak_order comp →
  (h ≤ fuel)%nat → (h < length a)%nat → heap_hole comp a h x →
  is_heap comp (std_push_heap_loop fuel comp a h x).
Proof.
  intros a h x Hswo. revert a h.
  assert (∀ a h, (h < length a)%nat → heap_hole comp a h x →
            (h = 0%nat ∨ comp (a !!! ((h - 1) / 2)%nat) x = false) →
            is_heap comp (<[h := x]> a)) as Hplace.
  { intros a h Hh (H1 & H2 & H3) Hexit i p y Hi Hp Hy.
    destruct (decide (i = h)) as [->|Hih].
    - rewrite list_lookup_insert_eq in Hy by done. simplify_eq.
      destruct Hexit as [->|Hexit]; [lia|].
      rewrite list_lookup_insert_ne in Hp by div_lia.
      by rewrite (list_lookup_total_correct _ _ _ Hp) in Hexit.
    - rewrite list_lookup_insert_ne in Hy by done.
      destruct (decide (((i - 1) / 2)%nat = h)) as [Hph|Hph].
      + rewrite Hph, list_lookup_insert_eq in Hp by done. simplify_eq.
        by eapply H2.
      + rewrite list_lookup_insert_ne in Hp by done. by eapply H1. }
  induction fuel as [|fuel IH]; intros a h Hfuel Hh Hinv.
  { cbn [std_push_heap_loop]. apply Hplace; [done|done|left; lia]. }
  cbn [std_push_heap_loop].
  destruct (bool_decide (0 < h)%nat) eqn:Hpos; cbn [andb].
  2:{ apply bool_decide_eq_false in Hpos. apply Hplace; [done|done|left; lia]. }
  apply bool_decide_eq_true in Hpos.
  destruct (comp (a !!! ((h - 1) / 2)%nat) x) eqn:Hc.
  2:{ apply Hplace; [done|done|by right]. }
  set (p := ((h - 1) / 2)%nat) in *.
  assert (p < h)%nat as Hlt by (unfold p; div_lia).
  assert (a !! p = Some (a !!! p)) as Hp
    by (apply list_lookup_lookup_total_lt; lia).
  destruct Hinv as (H1 & H2 & H3).
  apply IH; [lia|rewrite length_insert; lia|].
  split_and!.
  - intros i q y Hi Hip Hipp Hq Hy.
    destruct (decide (i = h)) as [->|Hih]; [done|].
    rewrite list_lookup_insert_ne in Hy by done.
    destruct (decide (((i - 1) / 2)%nat = h)) as [Hph|Hph].
    + rewrite Hph, list_lookup_insert_eq in Hq by done. simplify_eq.
      by eapply (H3 i).
    + rewrite list_lookup_insert_ne in Hq by done. by eapply H1.
  - intros c y Hc0 Hcp Hy.
    destruct (decide (c = h)) as [->|Hch].
    + rewrite list_lookup_insert_eq in Hy by done. simplify_eq.
      by eapply swo_asym.
    + rewrite list_lookup_insert_ne in Hy by done.
      assert (comp (a !!! p) y = false) as Hpy.
      { eapply (H1 c); [done|done|lia| |done]. by rewrite Hcp. }
      apply (swo_asym _ _ _ Hswo).
      destruct (comp y x) eqn:Hyx; [done|].
      by rewrite (swo_neg_trans comp _ _ _ Hswo Hpy Hyx) in Hc.
  - intros c y q Hp0 Hc0 Hcp Hy Hq.
    rewrite list_lookup_insert_ne in Hq by div_lia.
    assert (comp q (a !!! p) = false) as Hqp.
    { eapply (H1 p); [done|lia|div_lia|done|done]. }
    destruct (decide (c = h)) as [->|Hch].
    + rewrite list_lookup_insert_eq in Hy by done. by simplify_eq.
    + rewrite list_lookup_insert_ne in Hy by done.
      eapply swo_neg_trans; [done|exact Hqp|].
      eapply (H1 c); [done|done|lia| |done]. by rewrite Hcp.
Qed.

Lemma std_push_heap_spec comp c x :
  strict_weak_order comp → is_heap comp c →
  is_heap comp (std_push_heap comp (c ++ [x])) ∧
  std_push_heap comp (c ++ [x]) ≡ₚ c ++ [x].
Proof.
  intros Hswo Hh. unfold std_push_heap. rewrite last_snoc.
  rewrite length_app. simpl. replace (length c + 1 - 1)%nat with (length c) by lia.
  split.
  - apply push_loop_heap; [done|lia|rewrite length_app; simpl; lia|].
    split_and!.
    + intros i p y Hi Hil Hpl Hp Hy.
      assert (i < length c)%nat.
      { apply lookup_lt_Some in Hy. rewrite length_app in Hy. simpl in Hy. lia. }
      rewrite lookup_app_l in Hy by lia.
      rewrite lookup_app_l in Hp by div_lia. by eapply Hh.
    + intros d y Hd Hdp Hy. apply lookup_lt_Some in Hy.
      rewrite length_app in Hy. simpl in Hy. div_lia.
    + intros d y p _ Hd Hdp Hy _. apply lookup_lt_Some in Hy.
      rewrite length_app in Hy. simpl in Hy. div_lia.
  - rewrite push_loop_perm by (rewrite length_app; simpl; lia).
    rewrite insert_app_r_alt, Nat.sub_diag by lia. done.
Qed.

Lemma heap_gap_move comp a h m :
  strict_weak_order comp →
  (m < length a)%nat → (0 < m)%nat → ((m - 1) / 2)%nat = h →
  (∀ s y, (0 < s)%nat → s ≠ m → ((s - 1) / 2)%nat = h → a !! s = Some y →
          comp (a !!! m) y = false) →
  heap_gap comp a h → heap_gap comp (<[h := a !!! m]> a) m.
Proof.
  intros Hswo Hm Hm0 Hmp Hsib [H1 H3].
  assert (h < m)%nat as Hhm by div_lia.
  assert (a !! m = Some (a !!! m)) as Hlm
    by (by apply list_lookup_lookup_total_lt).
  split.
  - intros i p y Hi Him Hipm Hp Hy.
    destruct (decide (i = h)) as [->|Hih].
    + rewrite list_lookup_insert_eq in Hy by lia. simplify_eq.
      rewrite list_lookup_insert_ne in Hp by div_lia.
      by eapply (H3 m).
    + rewrite list_lookup_insert_ne in Hy by done.
      destruct (decide (((i - 1) / 2)%nat = h)) as [Hph|Hph].
      * rewrite Hph, list_lookup_insert_eq in Hp by lia. simplify_eq.
        by eapply Hsib.
      * rewrite list_lookup_insert_ne in Hp by done. by eapply H1.
  - intros c y p _ Hc Hcm Hy Hp.
    rewrite Hmp, list_lookup_insert_eq in Hp by lia. injection Hp as <-.
    rewrite list_lookup_insert_ne in Hy by div_lia.
    eapply (H1 c); [done|div_lia|div_lia| |done]. by rewrite Hcm.
Qed.

Lemma adjust_loop_spec comp len fuel : ∀ a h,
  strict_weak_order comp →
  length a = len → (h < len)%nat → (len - h ≤ fuel)%nat →
  heap_gap comp a h →
  length (std_adjust_loop fuel comp a h len).1 = len ∧
  ((std_adjust_loop fuel comp a h len).2 < len)%nat ∧
  ¬ ((std_adjust_loop fuel comp a h len).2 < (len - 1) / 2)%nat ∧
  heap_gap comp (std_adjust_loop fuel comp a h len).1
           (std_adjust_loop fuel comp a h len).2 ∧
  ∀ x, <[(std_adjust_loop fuel comp a h len).2 := x]>
         (std_adjust_loop fuel comp a h len).1 ≡ₚ <[h := x]> a.
Proof.
  induction fuel as [|fuel IH]; intros a h Hswo Hlen Hh Hfuel Hgap; [lia|].
  cbn [std_adjust_loop].
  destruct (bool_decide (h < (len - 1) / 2)%nat) eqn:Hc.
  2:{ apply bool_decide_eq_false in Hc. simpl. done. }
  apply bool_decide_eq_true in Hc.
  set (sc := (2 * (h + 1))%nat).
  assert (sc < len)%nat as Hsc by (unfold sc; div_lia).
  assert (∀ m,
    ((m = sc - 1)%nat ∧ comp (a !!! sc) (a !!! (sc - 1)%nat) = true) ∨
    (m = sc ∧ comp (a !!! sc) (a !!! (sc - 1)%nat) = false) →
    length (std_adjust_loop fuel comp (<[h := a !!! m]> a) m len).1 = len ∧
    ((std_adjust_loop fuel comp (<[h := a !!! m]> a) m len).2 < len)%nat ∧
    ¬ ((std_adjust_loop fuel comp (<[h := a !!! m]> a) m len).2
       < (len - 1) / 2)%nat ∧
    heap_gap comp (std_adjust_loop fuel comp (<[h := a !!! m]> a) m len).1
             (std_adjust_loop fuel comp (<[h := a !!! m]> a) m len).2 ∧
    ∀ x, <[(std_adjust_loop fuel comp (<[h := a !!! m]> a) m len).2 := x]>
           (std_adjust_loop fuel comp (<[h := a !!! m]> a) m len).1
         ≡ₚ <[h := x]> a) as Hgen.
  { intros m Hm.
    assert (m < len ∧ 0 < m ∧ (m - 1) / 2 = h ∧ h < m)%nat
      as (Hml & Hm0 & Hmp & Hhm) by (unfold sc in *; div_lia).
    assert (heap_gap comp (<[h := a !!! m]> a) m) as Hgap'.
    { apply heap_gap_move; [done|lia|done|done| |done].
      intros s y Hs Hsm Hsp Hy.
      rewrite <- (list_lookup_total_correct _ _ _ Hy).
      assert (s = sc ∨ s = sc - 1)%nat as [->| ->] by (unfold sc; div_lia).
      - destruct Hm as [[-> Ht]|[-> Hf]]; [|done]. by eapply swo_asym.
      - destruct Hm as [[-> Ht]|[-> Hf]]; [done|]. done. }
    destruct (IH (<[h := a !!! m]> a) m Hswo) as (Hl & Hb & Hn & Hg & Hp);
      [by rewrite length_insert|done|lia|done|].
    split_and!; [done..|].
    intros x. rewrite Hp. apply insert_swap_perm; [lia|lia|].
    apply list_lookup_lookup_total_lt. lia. }
  fold sc. destruct (comp (a !!! sc) (a !!! (sc - 1)%nat)) eqn:Hcmp;
    apply Hgen; auto.
Qed.

Lemma is_heap_app_l comp l1 l2 : is_heap comp (l1 ++ l2) → is_heap comp l1.
Proof.
  intros Hh i p x Hi Hp Hx. eapply (Hh i); [done|..];
    by apply lookup_app_l_Some.
Qed.

Lemma std_adjust_heap_spec comp a value :
  strict_weak_order comp → (0 < length a)%nat → is_heap comp a →
  is_heap comp (std_adjust_heap comp a (length a) value) ∧
  std_adjust_heap comp a (length a) value ≡ₚ <[0%nat := value]> a.
Proof.
  intros Hswo Hlen Hh. unfold std_adjust_heap.
  set (len := length a) in *.
  destruct (adjust_loop_spec comp len len a 0 Hswo)
    as (Hl & Hb & Hn & Hg & Hp); [done|done|lia| |].
  { split; [|intros; lia]. intros i p y Hi _ _ Hpi Hy. by eapply Hh. }
  set (st := std_adjust_loop len comp a 0 len) in *.
  destruct (bool_decide (len mod 2 = 0)%nat &&
            bool_decide (st.2 = ((len - 2) / 2)%nat)) eqn:Hc.
  - apply andb_prop in Hc
      as [Heven%bool_decide_eq_true Heq%bool_decide_eq_true].
    cbn [fst snd].
    set (c := (2 * (st.2 + 1) - 1)%nat).
    assert (c < len ∧ 0 < c ∧ (c - 1) / 2 = st.2 ∧ c = len - 1)%nat
      as (Hcl & Hc0 & Hcp & Hclast) by (unfold c; div_lia).
    assert (heap_gap comp (<[st.2 := st.1 !!! c]> st.1) c) as Hg'.
    { apply heap_gap_move; [done|lia|done|done| |done].
      intros s y Hs Hsc Hsp Hy. apply lookup_lt_Some in Hy. div_lia. }
    split.
    + apply push_loop_heap; [done|lia|rewrite length_insert; lia|].
      destruct Hg' as [H1 H3]. split_and!; [done| |done].
      intros d y Hd Hdp Hy. apply lookup_lt_Some in Hy.
      rewrite length_insert in Hy. div_lia.
    + rewrite push_loop_perm by (rewrite length_insert; lia).
      rewrite <- Hp. apply insert_swap_perm; [lia|lia|].
      apply list_lookup_lookup_total_lt. lia.
  - apply andb_false_iff in Hc. split.
    + apply push_loop_heap; [done|lia|lia|].
      destruct Hg as [H1 H3]. split_and!; [done| |done].
      intros d y Hd Hdp Hy. apply lookup_lt_Some in Hy.
      destruct Hc as [Hc%bool_decide_eq_false|Hc%bool_decide_eq_false];
        div_lia.
    + rewrite push_loop_perm by lia. apply Hp.
Qed.

Lemma std_pop_heap_spec comp x c :
  strict_weak_order comp → is_heap comp (x :: c) →
  ∃ c', std_pop_heap comp (x :: c) = c' ++ [x] ∧ is_heap comp c' ∧ c' ≡ₚ c.
Proof.
  intros Hswo Hh. unfold std_pop_heap.
  destruct (last c) as [value|] eqn:Hlast.
  2:{ apply last_None in Hlast as ->. exists []. split_and!; [done| |done].
      intros i p y _ _ Hy. by rewrite lookup_nil in Hy. }
  apply last_Some in Hlast as [c0 ->].
  rewrite removelast_last, length_app. simpl.
  replace (length c0 + 1)%nat with (length (x :: c0)) by (simpl; lia).
  destruct (std_adjust_heap_spec comp (x :: c0) value Hswo) as [Hheap Hperm].
  { simpl. lia. }
  { by apply (is_heap_app_l comp (x :: c0) [value]). }
  eexists. split_and!; [done|done|].
  rewrite Hperm. simpl. by rewrite Permutation_app_comm.
Qed.

Definition std_heap : HeapAlgorithms := {|
  push_heap := std_push_heap;
  pop_heap := std_pop_heap;
  push_heap_spec := std_push_heap_spec;
  pop_heap_spec := std_pop_heap_spec;
|}.


(** ** Machine integers: conversions that do not wrap *)

Lemma to_size_t_small z : 0 ≤ z < 2 ^ 64 → to_size_t z = z.
Proof. intros. unfold to_size_t. by apply Z.mod_small. Qed.

Lemma to_size_t_range z : 0 ≤ to_size_t z < 2 ^ 64.
Proof. unfold to_size_t. apply Z.mod_pos_bound. lia. Qed.

Lemma to_int16_small z : - 2 ^ 15 ≤ z < 2 ^ 15 → to_int16 z = z.
Proof. intros. unfold to_int16. rewrite Z.mod_small; lia. Qed.

Lemma vec_size_small {A} (v : list A) :
  Z.of_nat (length v) < 2 ^ 64 → vec_size v = Z.of_nat (length v).
Proof. intros. apply to_size_t_small. lia. Qed.

Lemma to_uint8_to_nat b : to_uint8 (Z.of_nat (Byte.to_nat b)) = b.
Proof.
  unfold to_uint8. pose proof (Byte.to_nat_bounded b).
  rewrite Z.mod_small by lia. rewrite <- nat_N_Z, N2Z.id, <- Byte.to_N_via_nat.
  by rewrite Byte.of_to_N.
Qed.

Lemma to_nat_to_uint8 z :
  0 ≤ z < 256 → Z.of_nat (Byte.to_nat (to_uint8 z)) = z.
Proof.
  intros Hz. unfold to_uint8. rewrite Z.mod_small by lia.
  destruct (Byte.of_N (Z.to_N z)) as [b|] eqn:Hb.
  - apply Byte.to_of_N in Hb. simpl. rewrite Byte.to_nat_via_N, Hb. lia.
  - apply Byte.of_N_None_iff in Hb. lia.
Qed.

Lemma vec_at_Ok {A} (v : list A) i x :
  vec_at v i = Ok x ↔ 0 ≤ i ∧ v !! Z.to_nat i = Some x.
Proof.
  unfold vec_at. destruct (Z.ltb_spec i 0).
  - split; [done|lia].
  - destruct (v !! Z.to_nat i); split; intros; simplify_eq; try done;
      by destruct_and?; simplify_eq.
Qed.

Lemma vec_at_lookup {A} (v : list A) (i : nat) x :
  v !! i = Some x → vec_at v (Z.of_nat i) = Ok x.
Proof. intros. apply vec_at_Ok. rewrite Nat2Z.id. split; [lia|done]. Qed.

Lemma vec_at_app_l {A} (v w : list A) i x :
  vec_at v i = Ok x → vec_at (v ++ w) i = Ok x.
Proof.
  rewrite !vec_at_Ok. intros [? Hx]. split; [done|].
  by apply lookup_app_l_Some.
Qed.

(** ** [count_bytes] *)

Lemma occurrences_pos b bytes : (0 < occurrences b bytes)%nat ↔ b ∈ bytes.
Proof.
  unfold occurrences. induction bytes as [|x bytes IH]; simpl.
  - split; [lia|by intros ?%elem_of_nil].
  - rewrite filter_cons. rewrite elem_of_cons.
    destruct (decide (x = b)) as [->|Hne]; simpl; [split; [auto|lia]|].
    rewrite IH. split; [auto|]. by intros [->|?].
Qed.

Lemma sumZ_cons x l : sumZ (x :: l) = x + sumZ l.
Proof. done. Qed.

Lemma sumZ_app l1 l2 : sumZ (l1 ++ l2) = sumZ l1 + sumZ l2.
Proof. unfold sumZ. induction l1; simpl; lia. Qed.

Lemma sumZ_perm l1 l2 : l1 ≡ₚ l2 → sumZ l1 = sumZ l2.
Proof. unfold sumZ. induction 1; simpl; lia. Qed.

#[global] Instance sumZ_proper : Proper ((≡ₚ) ==> (=)) sumZ.
Proof. intros l1 l2. apply sumZ_perm. Qed.

Lemma sumZ_nonneg l : Forall (λ c, 0 ≤ c) l → 0 ≤ sumZ l.
Proof. unfold sumZ. induction 1; simpl; lia. Qed.

Lemma sumZ_lookup_le l i c :
  Forall (λ c, 0 ≤ c) l → l !! i = Some c → c ≤ sumZ l.
Proof.
  intros Hl. revert i. induction Hl as [|x l Hx Hl IH]; intros [|i] Hi;
    simplify_eq/=; unfold sumZ in *; simpl.
  - pose proof (sumZ_nonneg l Hl). unfold sumZ in *. lia.
  - specialize (IH _ Hi). lia.
Qed.

Lemma sumZ_alter f l i c :
  l !! i = Some c → sumZ (alter f i l) = sumZ l - c + f c.
Proof.
  revert i. induction l as [|x l IH]; intros [|i] Hi; simplify_eq/=;
    unfold sumZ in *; simpl; [lia|].
  specialize (IH _ Hi). change (list_alter f i l) with (alter f i l). lia.
Qed.

Lemma count_step_spec counts ch :
  length counts = 256%nat → Forall (λ c, 0 ≤ c) counts →
  sumZ counts + 1 < 2 ^ 64 →
  length (count_step counts ch) = 256%nat ∧
  Forall (λ c, 0 ≤ c) (count_step counts ch) ∧
  sumZ (count_step counts ch) = sumZ counts + 1 ∧
  ∀ b, count_step counts ch !! Byte.to_nat b =
       (λ c, if decide (ch = b) then c + 1 else c) <$> counts !! Byte.to_nat b.
Proof.
  intros Hlen Hpos Hsum. unfold count_step.
  pose proof (Byte.to_nat_bounded ch) as Hch.
  destruct (lookup_lt_is_Some_2 counts (Byte.to_nat ch)) as [c Hc]; [lia|].
  pose proof (sumZ_lookup_le _ _ _ Hpos Hc) as Hle.
  assert (0 ≤ c) as Hc0.
  { rewrite Forall_forall in Hpos. apply Hpos.
    by eapply list_elem_of_lookup_2. }
  split; [by rewrite length_alter|]. split; [|split].
  - apply Forall_alter; [done|]. intros. apply to_size_t_range.
  - rewrite (sumZ_alter _ _ _ c) by done.
    rewrite to_size_t_small by lia. lia.
  - intros b. destruct (decide (ch = b)) as [->|Hne].
    + rewrite list_lookup_alter, Hc. simpl.
      rewrite decide_True by done. by rewrite to_size_t_small by lia.
    + rewrite list_lookup_alter_ne.
      * by destruct (counts !! Byte.to_nat b).
      * intros Heq. apply Hne.
        rewrite <- (to_uint8_to_nat ch), <- (to_uint8_to_nat b). by rewrite Heq.
Qed.

Lemma count_fold_spec bytes : ∀ counts,
  length counts = 256%nat → Forall (λ c, 0 ≤ c) counts →
  sumZ counts + Z.of_nat (length bytes) < 2 ^ 64 →
  length (foldl count_step counts bytes) = 256%nat ∧
  Forall (λ c, 0 ≤ c) (foldl count_step counts bytes) ∧
  sumZ (foldl count_step counts bytes) = sumZ counts + Z.of_nat (length bytes) ∧
  ∀ b, foldl count_step counts bytes !! Byte.to_nat b =
       (λ c, c + Z.of_nat (occurrences b bytes)) <$> counts !! Byte.to_nat b.
Proof.
  induction bytes as [|ch bytes IH]; intros counts Hlen Hpos Hsum.
  - simpl. split_and!; [done|done|lia|]. intros b. unfold occurrences. simpl.
    destruct (counts !! Byte.to_nat b); simpl; f_equal; lia.
  - simpl in *.
    destruct (count_step_spec counts ch) as (Hl1 & Hp1 & Hs1 & Hb1);
      [done|done|lia|].
    destruct (IH (count_step counts ch)) as (Hl2 & Hp2 & Hs2 & Hb2);
      [done|done|lia|].
    split_and!; [done|done|lia|]. intros b. rewrite Hb2, Hb1.
    unfold occurrences. rewrite filter_cons.
    destruct (counts !! Byte.to_nat b); simpl; [|done]. f_equal.
    destruct (decide (ch = b)); simpl; lia.
Qed.

Lemma count_bytes_spec bytes :
  span_ok bytes →
  length (count_bytes bytes) = 256%nat ∧
  Forall (λ c, 0 ≤ c) (count_bytes bytes) ∧
  sumZ (count_bytes bytes) = Z.of_nat (length bytes) ∧
  ∀ b, count_bytes bytes !! Byte.to_nat b =
       Some (Z.of_nat (occurrences b bytes)).
Proof.
  intros Hok. unfold span_ok in Hok.
  assert (sumZ (replicate 256 0) = 0) as Hz by (by vm_compute).
  destruct (count_fold_spec bytes (replicate 256 0)) as (Hl & Hp & Hs & Hb).
  - by rewrite length_replicate.
  - apply Forall_replicate. lia.
  - lia.
  - unfold count_bytes. fold count_step.
    change (UCHAR_MAX + 1)%nat with 256%nat. split_and!; [done|done|lia|].
    intros b. rewrite Hb. rewrite lookup_replicate_2; [done|].
    pose proof (Byte.to_nat_bounded b). lia.
Qed.

(** ** [make_leaf_nodes] *)

Lemma make_leaf_nodes_from_spec counts : ∀ i,
  0 ≤ i → i + Z.of_nat (length counts) ≤ 256 →
  Forall (λ n, ∃ (j : nat) c, counts !! j = Some c ∧ c ≠ 0 ∧
               n = leaf_node (to_uint8 (i + Z.of_nat j)) c)
         (make_leaf_nodes_from i counts) ∧
  (∀ (j : nat) c, counts !! j = Some c → c ≠ 0 →
     leaf_node (to_uint8 (i + Z.of_nat j)) c ∈ make_leaf_nodes_from i counts) ∧
  NoDup (leaf_values (make_leaf_nodes_from i counts)) ∧
  sumZ (count <$> make_leaf_nodes_from i counts) = sumZ counts ∧
  (length (make_leaf_nodes_from i counts) ≤ length counts)%nat.
Proof.
  induction counts as [|c counts IH]; intros i Hi Hlen; simpl in *.
  { split_and!; [done| |constructor|done|done]. by intros []. }
  rewrite to_size_t_small by lia.
  destruct (IH (i + 1)) as (Hall & Hin & Hnd & Hsum & Hle); [lia|lia|].
  assert (Forall (λ n, ∃ (j : nat) c0, (c :: counts) !! j = Some c0 ∧ c0 ≠ 0 ∧
              n = leaf_node (to_uint8 (i + Z.of_nat j)) c0)
            (make_leaf_nodes_from (i + 1) counts)) as Hall'.
  { eapply Forall_impl; [done|]. intros n (j & c0 & ? & ? & ->).
    exists (S j), c0. split_and!; [done|done|]. do 2 f_equal. lia. }
  assert (∀ (j : nat) c0, counts !! j = Some c0 → c0 ≠ 0 →
     leaf_node (to_uint8 (i + Z.of_nat (S j))) c0
       ∈ make_leaf_nodes_from (i + 1) counts) as Hin'.
  { intros j c0 ? ?. replace (i + Z.of_nat (S j)) with (i + 1 + Z.of_nat j)
      by lia. by apply Hin. }
  destruct (Z.eqb_spec c 0) as [->|Hc]; simpl.
  - split_and!; [done| |done|by unfold sumZ in *|lia].
    intros [|j] c0 ? ?; simplify_eq/=. by apply Hin'.
  - split_and!.
    + constructor; [|done]. exists 0%nat, c. split_and!; [done|done|].
      simpl. by rewrite Z.add_0_r.
    + intros [|j] c0 ? ?; simplify_eq/=.
      * rewrite Z.add_0_r. apply list_elem_of_here.
      * apply list_elem_of_further. by apply Hin'.
    + unfold leaf_values in *. simpl. constructor; [|done].
      intros (n & Hv & Hn)%list_elem_of_fmap.
      rewrite Forall_forall in Hall. apply Hall in Hn as (j & c0 & Hj & _ & ->).
      simpl in Hv. apply lookup_lt_Some in Hj.
      apply (f_equal (λ b, Z.of_nat (Byte.to_nat b))) in Hv.
      rewrite !to_nat_to_uint8 in Hv by lia. lia.
    + simpl. rewrite !sumZ_cons. f_equal. apply Hsum.
    + lia.
Qed.

Lemma make_leaf_nodes_spec input_data :
  span_ok input_data →
  let ls := make_leaf_nodes (count_bytes input_data) in
  Forall (λ n, ∃ v, n = leaf_node v (Z.of_nat (occurrences v input_data)) ∧
                    v ∈ input_data) ls ∧
  NoDup (leaf_values ls) ∧
  (∀ v, v ∈ leaf_values ls ↔ v ∈ input_data) ∧
  sumZ (count <$> ls) = Z.of_nat (length input_data) ∧
  (length ls ≤ 256)%nat.
Proof.
  intros Hok ls.
  destruct (count_bytes_spec input_data Hok) as (Hlen & Hpos & Hsum & Hb).
  destruct (make_leaf_nodes_from_spec (count_bytes input_data) 0)
    as (Hall & Hin & Hnd & Hs & Hle); [lia|lia|].
  fold (make_leaf_nodes (count_bytes input_data)) in *. fold ls in Hall, Hin, Hnd, Hs, Hle.
  assert (Forall (λ n, ∃ v, n = leaf_node v (Z.of_nat (occurrences v input_data))
                            ∧ v ∈ input_data) ls) as Hall'.
  { eapply Forall_impl; [done|]. intros n (j & c & Hj & Hc & ->).
    pose proof (lookup_lt_Some _ _ _ Hj) as Hlt. rewrite Z.add_0_l.
    exists (to_uint8 (Z.of_nat j)).
    specialize (Hb (to_uint8 (Z.of_nat j))).
    assert (Byte.to_nat (to_uint8 (Z.of_nat j)) = j) as Hj'.
    { apply Nat2Z.inj. apply to_nat_to_uint8. lia. }
    rewrite Hj', Hj in Hb. simplify_eq. split; [done|].
    apply occurrences_pos. lia. }
  split_and!; [done|done| |lia|lia].
  intros v. split.
  - intros (n & -> & Hn)%list_elem_of_fmap. rewrite Forall_forall in Hall'.
    by destruct (Hall' _ Hn) as (w & -> & ?).
  - intros Hv. apply list_elem_of_fmap.
    exists (leaf_node v (Z.of_nat (occurrences v input_data))). split; [done|].
    specialize (Hin (Byte.to_nat v) _ (Hb v)).
    rewrite Z.add_0_l, to_uint8_to_nat in Hin. apply Hin.
    apply occurrences_pos in Hv. lia.
Qed.

(** ** The tree that an arena represents *)

Lemma repr_bound nodes i t :
  repr nodes i t → 0 ≤ i < Z.of_nat (length nodes).
Proof.
  destruct t; simpl.
  - intros [? ?%lookup_lt_Some]%vec_at_Ok. lia.
  - intros (? & ? & [? ?%lookup_lt_Some]%vec_at_Ok & _). lia.
Qed.

Lemma repr_app nodes w t : ∀ i, repr nodes i t → repr (nodes ++ w) i t.
Proof.
  induction t as [v|l IHl r IHr]; intros i; simpl.
  - apply vec_at_app_l.
  - intros (il & ir & Hi & ? & ? & Hl & Hr). exists il, ir.
    split_and!; [by apply vec_at_app_l|lia..|by apply IHl|by apply IHr].
Qed.

Lemma height_lt_leaves t : (height t < length (leaves t))%nat.
Proof.
  induction t as [|l IHl r IHr]; simpl; [lia|]. rewrite length_app. lia.
Qed.

(** ** The comparator *)

Lemma cmp_swo nodes_with_size : strict_weak_order (cmp nodes_with_size).
Proof.
  unfold cmp. split; intros *; rewrite ?Z.gtb_ltb, ?Z.ltb_lt, ?Z.ltb_ge; lia.
Qed.

Lemma cmp_false nodes_with_size x y :
  cmp nodes_with_size x y = false ↔
  count_at nodes_with_size x ≤ count_at nodes_with_size y.
Proof. unfold cmp. rewrite Z.gtb_ltb, Z.ltb_ge. done. Qed.

Lemma count_at_app_l nodes_with_size w i :
  0 ≤ i < Z.of_nat (length nodes_with_size) →
  count_at (nodes_with_size ++ w) i = count_at nodes_with_size i.
Proof.
  intros Hi. unfold count_at.
  destruct (lookup_lt_is_Some_2 nodes_with_size (Z.to_nat i)) as [n Hn]; [lia|].
  assert (vec_at nodes_with_size i = Ok n) as Hv by (apply vec_at_Ok; split; [lia|done]).
  by rewrite (vec_at_app_l _ w _ _ Hv), Hv.
Qed.

Lemma count_at_Ok nodes_with_size i n :
  vec_at nodes_with_size i = Ok n → count_at nodes_with_size i = count n.
Proof. unfold count_at. by intros ->. Qed.

Lemma count_at_length nodes_with_size n :
  count_at (nodes_with_size ++ [n]) (Z.of_nat (length nodes_with_size)) = count n.
Proof.
  apply count_at_Ok, vec_at_lookup. by rewrite lookup_app_r, Nat.sub_diag.
Qed.

Lemma count_at_nonneg nodes_with_size i :
  Forall (λ n, 0 ≤ count n) nodes_with_size → 0 ≤ count_at nodes_with_size i.
Proof.
  intros Hall. unfold count_at.
  destruct (vec_at nodes_with_size i) as [n|] eqn:Hn; [|lia].
  apply vec_at_Ok in Hn as [_ Hn]. rewrite Forall_forall in Hall.
  apply Hall. by eapply list_elem_of_lookup_2.
Qed.

(** ** The forest held by the queue *)

Lemma children_before_snoc nodes n :
  children_before nodes →
  -1 ≤ left n < Z.of_nat (length nodes) →
  -1 ≤ right n < Z.of_nat (length nodes) →
  children_before (nodes ++ [n]).
Proof.
  intros Hc Hl Hr i m Hm. apply lookup_app_Some in Hm as [Hm|[Hi Hm]].
  - by apply Hc.
  - apply list_lookup_singleton_Some in Hm as [Hi' ->].
    assert (i = length nodes) as -> by lia. done.
Qed.

Lemma forest_extract (F : list (Z * tree)) x q :
  F.*1 ≡ₚ x :: q → ∃ t F', F ≡ₚ (x, t) :: F' ∧ F'.*1 ≡ₚ q.
Proof.
  intros Hp.
  assert (x ∈ F.*1) as Hx by (rewrite Hp; apply list_elem_of_here).
  apply list_elem_of_fmap in Hx as ([y t] & -> & Hin). simpl in *.
  apply elem_of_Permutation in Hin as [F' HF]. exists t, F'. split; [done|].
  rewrite HF in Hp. simpl in Hp. by apply Permutation_cons_inv in Hp.
Qed.

Lemma forest_inv_bound L total nodes_with_size queue F x :
  forest_inv L total nodes_with_size queue F → x ∈ queue →
  0 ≤ x < Z.of_nat (length nodes_with_size).
Proof.
  intros Hinv Hx. rewrite <- (fi_queue _ _ _ _ _ Hinv) in Hx.
  apply list_elem_of_fmap in Hx as ([y t] & -> & Hin).
  pose proof (fi_repr _ _ _ _ _ Hinv) as Hr. rewrite Forall_forall in Hr.
  apply Hr, repr_bound in Hin. by rewrite length_fmap in Hin.
Qed.

(** ** The [while] loop of [init_tree] *)

Section merge.
Context `{HeapAlgorithms}.

Lemma pq_pop_spec comp x c :
  strict_weak_order comp → is_heap comp (x :: c) →
  ∃ c', pq_pop comp (x :: c) = Ok c' ∧ is_heap comp c' ∧ c' ≡ₚ c.
Proof.
  intros Hc Hh. destruct (pop_heap_spec comp x c Hc Hh) as (c' & Hp & ? & ?).
  exists c'. split; [|done]. unfold pq_pop. by rewrite Hp, removelast_last.
Qed.

Lemma pq_push_spec comp x c :
  strict_weak_order comp → is_heap comp c →
  is_heap comp (pq_push comp x c) ∧ pq_push comp x c ≡ₚ x :: c.
Proof.
  intros Hc Hh. destruct (push_heap_spec comp c x Hc Hh) as [? Hp].
  split; [done|]. unfold pq_push. rewrite Hp. by rewrite Permutation_app_comm.
Qed.

(** One iteration removes a node [back1] of least count, then a node
    [back2] of least count among the others, and appends their parent. *)
Lemma merge_step_spec L total nodes_with_size queue F :
  (length L ≤ 256)%nat → total < 2 ^ 64 →
  forest_inv L total nodes_with_size queue F → (1 < length queue)%nat →
  ∃ back1 back2 rest n1 n2 queue' F',
    queue ≡ₚ back1 :: back2 :: rest ∧
    vec_at nodes_with_size back1 = Ok n1 ∧
    vec_at nodes_with_size back2 = Ok n2 ∧
    (∀ y, y ∈ queue → count n1 ≤ count_at nodes_with_size y) ∧
    (∀ y, y ∈ back2 :: rest → count n2 ≤ count_at nodes_with_size y) ∧
    merge_step nodes_with_size queue =
      Ok (nodes_with_size ++
            [mkNodeWithCount (mkNode back1 back2 x00) (count n1 + count n2)],
          queue') ∧
    queue' ≡ₚ Z.of_nat (length nodes_with_size) :: rest ∧
    forest_inv L total
      (nodes_with_size ++
         [mkNodeWithCount (mkNode back1 back2 x00) (count n1 + count n2)])
      queue' F'.
Proof.
  intros HL Htot Hinv Hlen.
  pose proof (cmp_swo nodes_with_size) as Hswo.
  destruct queue as [|back1 q1]; [simpl in Hlen; lia|].
  pose proof (fi_heap _ _ _ _ _ Hinv) as Hh.
  destruct (pq_pop_spec _ _ _ Hswo Hh) as (c1 & Hpop1 & Hh1 & Hp1).
  destruct c1 as [|back2 q2].
  { apply Permutation_length in Hp1. simpl in *. lia. }
  destruct (pq_pop_spec _ _ _ Hswo Hh1) as (c2 & Hpop2 & Hh2 & Hp2).
  assert (back1 :: q1 ≡ₚ back1 :: back2 :: c2) as Hq.
  { by rewrite <- Hp1, Hp2. }
  (* the two trees *)
  pose proof (fi_queue _ _ _ _ _ Hinv) as HF. rewrite Hq in HF.
  destruct (forest_extract _ _ _ HF) as (t1 & F1 & HF1 & HF1').
  destruct (forest_extract _ _ _ HF1') as (t2 & F2 & HF2 & HF2').
  pose proof (fi_repr _ _ _ _ _ Hinv) as Hrepr.
  rewrite HF1, HF2 in Hrepr.
  apply Forall_cons in Hrepr as [Hr1 Hrepr].
  apply Forall_cons in Hrepr as [Hr2 Hrepr]. simpl in Hr1, Hr2.
  pose proof (repr_bound _ _ _ Hr1) as Hb1.
  pose proof (repr_bound _ _ _ Hr2) as Hb2.
  rewrite length_fmap in Hb1, Hb2.
  destruct (lookup_lt_is_Some_2 nodes_with_size (Z.to_nat back1)) as [n1 Hn1];
    [lia|].
  destruct (lookup_lt_is_Some_2 nodes_with_size (Z.to_nat back2)) as [n2 Hn2];
    [lia|].
  assert (vec_at nodes_with_size back1 = Ok n1) as Hv1
    by (apply vec_at_Ok; split; [lia|done]).
  assert (vec_at nodes_with_size back2 = Ok n2) as Hv2
    by (apply vec_at_Ok; split; [lia|done]).
  (* sizes *)
  pose proof (fi_size _ _ _ _ _ Hinv) as Hsz.
  assert (length (back1 :: q1) = S (S (length c2))) as Hlq
    by (by rewrite Hq).
  rewrite Hlq in Hsz.
  set (new := mkNodeWithCount (mkNode back1 back2 x00) (count n1 + count n2)).
  (* the counts do not overflow *)
  pose proof (fi_counts _ _ _ _ _ Hinv) as Hpos.
  pose proof (fi_total _ _ _ _ _ Hinv) as Hsum.
  rewrite Hq in Hsum. rewrite !fmap_cons, !sumZ_cons in Hsum.
  rewrite (count_at_Ok _ _ _ Hv1), (count_at_Ok _ _ _ Hv2) in Hsum.
  assert (0 ≤ sumZ (count_at nodes_with_size <$> c2)) as Hrest.
  { apply sumZ_nonneg, Forall_fmap, Forall_forall. intros x _.
    by apply count_at_nonneg. }
  assert (0 ≤ count n1 ∧ 0 ≤ count n2) as [Hc1 Hc2].
  { rewrite Forall_forall in Hpos.
    split; apply Hpos; by eapply list_elem_of_lookup_2. }
  (* the push *)
  assert (is_heap (cmp (nodes_with_size ++ [new])) c2) as Hh2'.
  { eapply is_heap_ext; [|exact Hh2]. intros a b Ha Hb. unfold cmp.
    rewrite !count_at_app_l; [done|..];
      eapply forest_inv_bound; try done; rewrite Hq; by do 2 right. }
  destruct (pq_push_spec _ (Z.of_nat (length nodes_with_size)) c2
              (cmp_swo (nodes_with_size ++ [new])) Hh2') as [Hh3 Hp3].
  assert (to_int16 (to_size_t (vec_size (nodes_with_size ++ [new]) - 1)) =
          Z.of_nat (length nodes_with_size)) as Hidx.
  { rewrite vec_size_small; rewrite length_app; simpl; [|lia].
    rewrite to_size_t_small by lia. rewrite to_int16_small by lia. lia. }
  exists back1, back2, c2, n1, n2,
    (pq_push (cmp (nodes_with_size ++ [new]))
             (Z.of_nat (length nodes_with_size)) c2),
    ((Z.of_nat (length nodes_with_size), Fork t1 t2) :: F2).
  split_and!; [done|done|done|..].
  - intros y [->|Hy]%elem_of_cons.
    + rewrite (count_at_Ok _ _ _ Hv1). lia.
    + rewrite <- (count_at_Ok _ _ _ Hv1). apply cmp_false.
      by eapply is_heap_front.
  - intros y [->|Hy]%elem_of_cons.
    + rewrite (count_at_Ok _ _ _ Hv2). lia.
    + rewrite <- (count_at_Ok _ _ _ Hv2). apply cmp_false.
      rewrite Hp2 in Hy. by eapply is_heap_front.
  - unfold merge_step, pq_top. cbn [vec_front bind]. rewrite Hpop1.
    cbn [vec_front bind]. rewrite Hpop2. cbn [bind].
    rewrite Hv1, Hv2. cbn [bind count].
    rewrite (to_size_t_small (count n1 + count n2)) by lia.
    fold new. by rewrite Hidx.
  - done.
  - split.
    + simpl. by rewrite Hp3, HF2'.
    + constructor.
      * simpl. rewrite fmap_app. simpl. exists back1, back2. split_and!.
        -- apply vec_at_lookup.
           rewrite lookup_app_r; rewrite length_fmap; [|lia].
           by rewrite Nat.sub_diag.
        -- lia.
        -- lia.
        -- lia.
        -- lia.
        -- by apply repr_app.
        -- by apply repr_app.
      * eapply Forall_impl; [exact Hrepr|]. intros [i t] Hit. simpl in *.
        rewrite fmap_app. by apply repr_app.
    + rewrite <- (fi_leaves _ _ _ _ _ Hinv), HF1, HF2. simpl.
      by rewrite (assoc_L (++)).
    + rewrite Hp3, length_app. simpl. lia.
    + done.
    + rewrite Hp3, fmap_cons, sumZ_cons. rewrite count_at_length.
      rewrite <- Hsum. fold new.
      assert (count_at (nodes_with_size ++ [new]) <$> c2 =
              count_at nodes_with_size <$> c2) as ->; [|unfold new; simpl; lia].
      apply list_fmap_ext. intros i x Hx. apply count_at_app_l.
      eapply forest_inv_bound; [done|]. rewrite Hq. do 2 right.
      by eapply list_elem_of_lookup_2.
    + apply Forall_app. split; [done|]. constructor; [simpl; lia|done].
    + rewrite fmap_app. apply children_before_snoc.
      * exact (fi_children _ _ _ _ _ Hinv).
      * rewrite length_fmap. simpl. lia.
      * rewrite length_fmap. simpl. lia.
Qed.

End merge.

(** ** The leaves and the initial queue *)

Lemma leaf_forest_fst ls : ∀ i,
  (leaf_forest i ls).*1 = seqZ i (Z.of_nat (length ls)).
Proof.
  induction ls as [|n ls IH]; intros i; [done|].
  rewrite seqZ_cons by (simpl; lia). simpl. rewrite IH. do 2 f_equal. lia.
Qed.

Lemma leaf_forest_leaves ls : ∀ i,
  leaf_forest i ls ≫= (λ it, leaves it.2) = leaf_values ls.
Proof. induction ls as [|n ls IH]; intros i; [done|]. simpl. by rewrite IH. Qed.

Lemma leaf_forest_repr ls : ∀ pre,
  Forall is_leaf_node ls →
  Forall (λ it, repr (node <$> pre ++ ls) it.1 it.2)
         (leaf_forest (Z.of_nat (length pre)) ls).
Proof.
  induction ls as [|n ls IH]; intros pre Hall; [constructor|].
  apply Forall_cons in Hall as [[Hn _] Hall]. simpl. constructor.
  - simpl. apply vec_at_lookup. rewrite list_lookup_fmap.
    rewrite lookup_app_r, Nat.sub_diag by lia. simpl. by rewrite <- Hn.
  - specialize (IH (pre ++ [n]) Hall).
    rewrite length_app, Nat2Z.inj_add in IH. simpl in IH.
    by rewrite <- (assoc_L (++)) in IH.
Qed.

Lemma count_at_seqZ nodes_with_size :
  count_at nodes_with_size <$> seqZ 0 (Z.of_nat (length nodes_with_size)) =
  count <$> nodes_with_size.
Proof.
  apply list_eq. intros i. rewrite !list_lookup_fmap.
  destruct (nodes_with_size !! i) as [n|] eqn:Hn; simpl.
  - rewrite lookup_seqZ_lt by (apply lookup_lt_Some in Hn; lia). simpl.
    f_equal. rewrite Z.add_0_l. by apply count_at_Ok, vec_at_lookup.
  - rewrite lookup_seqZ_ge; [done|]. apply lookup_ge_None in Hn. lia.
Qed.

Lemma match_size_ge_2 {A} (z : Z) (a b c : A) :
  2 ≤ z → match z with 0 => a | 1 => b | _ => c end = c.
Proof. intros Hz. destruct z as [|[p|p|]|]; (done || lia). Qed.

Section init_tree_spec.
Context `{HeapAlgorithms}.

Lemma push_leaves_spec nodes_with_size indices : ∀ queue,
  is_heap (cmp nodes_with_size) queue →
  Forall (λ i, ∃ n, vec_at nodes_with_size i = Ok n ∧ count n ≠ 0) indices →
  ∃ queue', push_leaves nodes_with_size indices queue = Ok queue' ∧
            queue' ≡ₚ queue ++ indices ∧
            is_heap (cmp nodes_with_size) queue'.
Proof.
  induction indices as [|i indices IH]; intros queue Hh Hall.
  { exists queue. by rewrite app_nil_r. }
  apply Forall_cons in Hall as [(n & Hn & Hc) Hall].
  destruct (pq_push_spec _ i queue (cmp_swo nodes_with_size) Hh) as [Hh' Hp].
  destruct (IH _ Hh' Hall) as (queue' & Hq & Hp' & Hh'').
  exists queue'.
  split_and!; [|rewrite Hp', Hp; simpl; apply Permutation_middle|done].
  cbn [push_leaves]. rewrite Hn. cbn [bind].
  destruct (Z.eqb_spec (count n) 0); [done|]. exact Hq.
Qed.

Lemma init_queue_spec input_data :
  span_ok input_data →
  let ls := make_leaf_nodes (count_bytes input_data) in
  ∃ queue,
    init_queue input_data = Ok (ls, queue) ∧
    forest_inv (leaf_values ls) (Z.of_nat (length input_data)) ls queue
               (leaf_forest 0 ls).
Proof.
  intros Hok ls.
  destruct (make_leaf_nodes_spec input_data Hok) as (Hall & Hnd & Hin & Hsum & Hle).
  fold ls in Hall, Hnd, Hin, Hsum, Hle.
  assert (Forall is_leaf_node ls) as Hleaf.
  { eapply Forall_impl; [exact Hall|]. intros n (v & -> & Hv). split; [done|].
    simpl. apply occurrences_pos in Hv. lia. }
  assert (to_int16 (vec_size ls) = Z.of_nat (length ls)) as Hsz.
  { rewrite vec_size_small by lia. apply to_int16_small. lia. }
  destruct (push_leaves_spec ls (seqZ 0 (Z.of_nat (length ls))) [])
    as (queue & Hq & Hp & Hh).
  { apply is_heap_nil. }
  { apply Forall_seqZ. intros i Hi.
    destruct (lookup_lt_is_Some_2 ls (Z.to_nat i)) as [n Hn]; [lia|].
    exists n. split; [apply vec_at_Ok; split; [lia|done]|].
    rewrite Forall_forall in Hleaf.
    destruct (Hleaf n) as [_ ?]; [by eapply list_elem_of_lookup_2|lia]. }
  simpl in Hp. exists queue. split.
  { unfold init_queue. fold ls. rewrite Hsz, Hq. done. }
  split.
  - by rewrite leaf_forest_fst, Hp.
  - apply (leaf_forest_repr ls []), Hleaf.
  - by rewrite leaf_forest_leaves.
  - rewrite Hp, length_seqZ, Nat2Z.id. unfold leaf_values.
    rewrite length_fmap. lia.
  - done.
  - by rewrite Hp, count_at_seqZ.
  - eapply Forall_impl; [exact Hleaf|]. intros n [_ ?]. lia.
  - intros i n Hn. rewrite list_lookup_fmap in Hn.
    destruct (ls !! i) as [nc|] eqn:Hnc; simplify_eq/=.
    rewrite Forall_forall in Hleaf.
    destruct (Hleaf nc) as [-> _]; [by eapply list_elem_of_lookup_2|].
    simpl. lia.
Qed.

Lemma merge_loop_spec L total fuel : ∀ nodes_with_size queue F,
  (length L ≤ 256)%nat → total < 2 ^ 64 →
  forest_inv L total nodes_with_size queue F →
  (1 < length queue)%nat → (length queue ≤ fuel)%nat →
  ∃ nodes_with_size' t,
    merge_loop fuel nodes_with_size queue = Ok nodes_with_size' ∧
    rtc loop_step (nodes_with_size, queue)
        (nodes_with_size', [Z.of_nat (length nodes_with_size') - 1]) ∧
    repr (node <$> nodes_with_size')
         (Z.of_nat (length nodes_with_size') - 1) t ∧
    leaves t ≡ₚ L ∧
    length nodes_with_size' = (2 * length L - 1)%nat ∧
    nodes_with_size `prefix_of` nodes_with_size' ∧
    children_before (node <$> nodes_with_size').
Proof.
  induction fuel as [|fuel IH]; intros nodes_with_size queue F HL Htot Hinv Hlen Hfuel;
    [lia|].
  pose proof (fi_size _ _ _ _ _ Hinv) as Hsz.
  destruct (merge_step_spec L total nodes_with_size queue F HL Htot Hinv Hlen)
    as (back1 & back2 & rest & n1 & n2 & queue' & F' & Hq & Hv1 & Hv2 & _ & _
        & Hstep & Hq' & Hinv').
  assert (pq_size queue = Z.of_nat (length queue)) as Hps
    by (apply vec_size_small; lia).
  assert (loop_step (nodes_with_size, queue)
            (nodes_with_size ++
               [mkNodeWithCount (mkNode back1 back2 x00) (count n1 + count n2)],
             queue')) as Hls.
  { split; simpl; [lia|done]. }
  cbn [merge_loop]. rewrite Hps.
  destruct (Z.ltb_spec 1 (Z.of_nat (length queue))) as [_|?]; [|lia].
  rewrite Hstep. cbn [bind fst snd].
  assert (length queue = S (S (length rest))) as Hlq by (by rewrite Hq).
  assert (length queue' = S (length rest)) as Hlq' by (by rewrite Hq').
  destruct (decide (length rest = 0%nat)) as [Hnil|Hne].
  - destruct rest; [|done]. clear Hnil.
    apply Permutation_singleton_r in Hq'. subst queue'.
    pose proof (fi_queue _ _ _ _ _ Hinv') as HF.
    apply Permutation_singleton_r in HF.
    destruct F' as [|[i t] [|? ?]]; simplify_eq/=.
    pose proof (fi_repr _ _ _ _ _ Hinv') as Hr.
    apply Forall_cons in Hr as [Hr _]. simpl in Hr.
    pose proof (fi_leaves _ _ _ _ _ Hinv') as Hl. simpl in Hl.
    rewrite app_nil_r in Hl.
    assert (Z.of_nat (length (nodes_with_size ++
              [mkNodeWithCount (mkNode back1 back2 x00) (count n1 + count n2)]))
            - 1 = Z.of_nat (length nodes_with_size)) as Hidx
      by (rewrite length_app; simpl; lia).
    eexists _, t. split_and!.
    + by destruct fuel.
    + rewrite Hidx. by apply rtc_once.
    + by rewrite Hidx.
    + done.
    + rewrite length_app. simpl. lia.
    + by apply prefix_app_r.
    + exact (fi_children _ _ _ _ _ Hinv').
  - destruct (IH _ _ _ HL Htot Hinv')
      as (nws' & t & Hloop & Hrtc & Hr & Hl & Hlen' & Hpre & Hch); [lia|lia|].
    exists nws', t. split_and!; [done| |done..| |done].
    + by eapply rtc_l.
    + etrans; [|exact Hpre]. by apply prefix_app_r.
Qed.

End init_tree_spec.

(** ** [init_tree] in its three cases *)

Lemma leaf_values_distinct input_data :
  span_ok input_data →
  leaf_values (make_leaf_nodes (count_bytes input_data)) ≡ₚ
  remove_dups input_data.
Proof.
  intros Hok.
  destruct (make_leaf_nodes_spec input_data Hok) as (_ & Hnd & Hin & _).
  apply NoDup_Permutation; [done|apply NoDup_remove_dups|].
  intros v. by rewrite Hin, elem_of_remove_dups.
Qed.

Lemma leaf_count_distinct input_data :
  span_ok input_data →
  length (make_leaf_nodes (count_bytes input_data)) = distinct_bytes input_data.
Proof.
  intros Hok. unfold distinct_bytes.
  rewrite <- (leaf_values_distinct input_data Hok). unfold leaf_values.
  by rewrite length_fmap.
Qed.

Lemma distinct_bytes_le_256 input_data :
  span_ok input_data → (distinct_bytes input_data ≤ 256)%nat.
Proof.
  intros Hok. rewrite <- leaf_count_distinct by done.
  by destruct (make_leaf_nodes_spec input_data Hok) as (_ & _ & _ & _ & ?).
Qed.

Section init_tree_cases.
Context `{HeapAlgorithms}.

Lemma init_queue_size input_data :
  span_ok input_data →
  ∃ queue,
    init_queue input_data = Ok (make_leaf_nodes (count_bytes input_data), queue) ∧
    pq_size queue = Z.of_nat (distinct_bytes input_data) ∧
    length queue = distinct_bytes input_data ∧
    forest_inv (leaf_values (make_leaf_nodes (count_bytes input_data)))
               (Z.of_nat (length input_data))
               (make_leaf_nodes (count_bytes input_data)) queue
               (leaf_forest 0 (make_leaf_nodes (count_bytes input_data))).
Proof.
  intros Hok. destruct (init_queue_spec input_data Hok) as (queue & Hq & Hinv).
  pose proof (fi_size _ _ _ _ _ Hinv) as Hsz. unfold leaf_values in Hsz.
  rewrite length_fmap, leaf_count_distinct in Hsz by done.
  pose proof (distinct_bytes_le_256 input_data Hok).
  exists queue. split_and!; [done| |lia|done].
  unfold pq_size. rewrite vec_size_small by lia. lia.
Qed.

Lemma init_tree_0 input_data :
  span_ok input_data → distinct_bytes input_data = 0%nat →
  init_tree input_data = Ok [mkNode (-1) (-1) x00].
Proof.
  intros Hok Hk. destruct (init_queue_size input_data Hok) as (q & Hq & Hs & _).
  unfold init_tree. rewrite Hq. cbn [bind fst snd]. by rewrite Hs, Hk.
Qed.

Lemma distinct_bytes_1 input_data :
  distinct_bytes input_data = 1%nat →
  ∃ V rest, input_data = V :: rest ∧ ∀ b, b ∈ input_data → b = V.
Proof.
  unfold distinct_bytes. intros Hk.
  destruct (remove_dups input_data) as [|V [|? ?]] eqn:Hd; simplify_eq/=.
  assert (∀ b, b ∈ input_data → b = V) as Hall.
  { intros b Hb. apply elem_of_remove_dups in Hb. rewrite Hd in Hb.
    by apply list_elem_of_singleton in Hb. }
  destruct input_data as [|b rest]; [done|].
  exists V, rest. split; [|done]. f_equal. apply Hall, list_elem_of_here.
Qed.

Lemma init_tree_1 input_data :
  span_ok input_data → distinct_bytes input_data = 1%nat →
  ∃ V, (∀ b, b ∈ input_data → b = V) ∧ vec_front input_data = Ok V ∧
    init_tree input_data = Ok [mkNode (-1) (-1) V; mkNode (-1) 0 x00].
Proof.
  intros Hok Hk. destruct (init_queue_size input_data Hok) as (q & Hq & Hs & _).
  destruct (distinct_bytes_1 input_data Hk) as (V & rest & -> & Hall).
  exists V. split_and!; [done|done|].
  unfold init_tree. rewrite Hq. cbn [bind fst snd]. by rewrite Hs, Hk.
Qed.

Lemma init_tree_ge_2 input_data :
  span_ok input_data → (2 ≤ distinct_bytes input_data)%nat →
  ∃ queue nodes_with_size t,
    init_queue input_data =
      Ok (make_leaf_nodes (count_bytes input_data), queue) ∧
    rtc loop_step (make_leaf_nodes (count_bytes input_data), queue)
        (nodes_with_size, [Z.of_nat (length nodes_with_size) - 1]) ∧
    init_tree input_data = Ok (node <$> nodes_with_size) ∧
    repr (node <$> nodes_with_size) (Z.of_nat (length nodes_with_size) - 1) t ∧
    leaves t ≡ₚ remove_dups input_data ∧
    length nodes_with_size = (2 * distinct_bytes input_data - 1)%nat ∧
    make_leaf_nodes (count_bytes input_data) `prefix_of` nodes_with_size ∧
    children_before (node <$> nodes_with_size).
Proof.
  intros Hok Hk.
  destruct (init_queue_size input_data Hok) as (q & Hq & Hs & Hlq & Hinv).
  pose proof (distinct_bytes_le_256 input_data Hok) as H256.
  pose proof (leaf_values_distinct input_data Hok) as HL.
  assert (length (leaf_values (make_leaf_nodes (count_bytes input_data)))
            ≤ 256)%nat as HL256 by (by rewrite HL).
  destruct (merge_loop_spec _ _ (length q) _ _ _ HL256 Hok Hinv)
    as (nws & t & Hloop & Hrtc & Hr & Hl & Hlen & Hpre & Hch); [lia|lia|].
  exists q, nws, t. split_and!; [done|done| |done| | |done|done].
  - unfold init_tree. rewrite Hq. cbn [bind fst snd].
    rewrite Hs, match_size_ge_2 by lia. by rewrite Hloop.
  - by rewrite Hl.
  - rewrite Hlen, HL. done.
Qed.

End init_tree_cases.

(** ** [init_dict] computes the paths of the tree *)

Lemma init_dict_rec_repr nodes t : ∀ fuel i dict key,
  Z.of_nat (length nodes) < 2 ^ 64 →
  repr nodes i t → (height t < fuel)%nat →
  init_dict_rec fuel nodes i dict key = Ok (dict_of_tree t key dict, key).
Proof.
  intros fuel i dict key Hsz. revert fuel i dict key.
  induction t as [v|l IHl r IHr]; intros fuel i dict key Hr Hfuel.
  - pose proof (repr_bound _ _ _ Hr) as Hb. simpl in Hr.
    destruct fuel as [|fuel]; [lia|]. cbn [init_dict_rec].
    destruct (Z.ltb_spec i 0); [lia|]. rewrite vec_size_small by done.
    destruct (Z.ltb_spec i (Z.of_nat (length nodes))); [|lia].
    cbn [negb]. rewrite Hr. done.
  - pose proof (repr_bound _ _ _ Hr) as Hb.
    destruct Hr as (il & ir & Hn & Hil & Hir & Hl & Hr). simpl in Hfuel.
    destruct fuel as [|fuel]; [lia|]. cbn [init_dict_rec].
    destruct (Z.ltb_spec i 0); [lia|]. rewrite vec_size_small by done.
    destruct (Z.ltb_spec i (Z.of_nat (length nodes))); [|lia].
    cbn [negb]. rewrite Hn. cbn [bind]. unfold isLeaf. cbn [left right].
    destruct (Z.eqb_spec il (-1)); [lia|]. cbn [andb].
    rewrite (IHl fuel il) by (done || lia). cbn [bind fst snd].
    assert (set_back (key ++ [x00]) x01 = Ok (key ++ [x01])) as ->.
    { unfold set_back. rewrite removelast_last. by destruct key. }
    cbn [bind]. rewrite (IHr fuel ir) by (done || lia). cbn [bind fst snd].
    unfold pop_back. rewrite removelast_last. by destruct key.
Qed.

Lemma codes_fst t : (codes t).*1 = leaves t.
Proof.
  induction t as [v|l IHl r IHr]; [done|]. simpl.
  rewrite fmap_app, <- !list_fmap_compose, <- IHl, <- IHr.
  f_equal; apply list_fmap_ext; by intros ? [].
Qed.

Lemma codes_leaf t v p : (v, p) ∈ codes t → v ∈ leaves t.
Proof.
  intros Hin. rewrite <- codes_fst. apply list_elem_of_fmap.
  by exists (v, p).
Qed.

Lemma leaf_has_code t v : v ∈ leaves t → ∃ p, (v, p) ∈ codes t.
Proof.
  rewrite <- codes_fst. intros ([w p] & -> & Hin)%list_elem_of_fmap.
  by exists p.
Qed.

Lemma codes_Fork l r v p :
  (v, p) ∈ codes (Fork l r) ↔
  (∃ p', p = x00 :: p' ∧ (v, p') ∈ codes l) ∨
  (∃ p', p = x01 :: p' ∧ (v, p') ∈ codes r).
Proof.
  simpl. rewrite elem_of_app, !list_elem_of_fmap. split.
  - intros [([w q] & ? & ?)|([w q] & ? & ?)]; simplify_eq/=; eauto.
  - intros [(p' & -> & ?)|(p' & -> & ?)]; [left|right]; by exists (v, p').
Qed.

Lemma dict_of_tree_other t : ∀ key dict v,
  v ∉ leaves t → dict_of_tree t key dict v = dict v.
Proof.
  induction t as [w|l IHl r IHr]; intros key dict v Hv; simpl in *.
  - apply fn_lookup_insert_ne. intros ->. apply Hv, list_elem_of_here.
  - apply not_elem_of_app in Hv as [? ?]. rewrite IHr, IHl; done.
Qed.

Lemma dict_of_tree_code t : ∀ key dict v p,
  NoDup (leaves t) → (v, p) ∈ codes t →
  dict_of_tree t key dict v = key ++ p.
Proof.
  induction t as [w|l IHl r IHr]; intros key dict v p Hnd Hin.
  - simpl in *. apply list_elem_of_singleton in Hin. simplify_eq.
    by rewrite fn_lookup_insert, app_nil_r.
  - simpl in Hnd. apply NoDup_app in Hnd as (Hndl & Hdisj & Hndr).
    apply codes_Fork in Hin as [(p' & -> & Hin)|(p' & -> & Hin)]; simpl.
    + rewrite dict_of_tree_other.
      * rewrite (IHl _ _ _ p') by done. by rewrite <- (assoc_L (++)).
      * apply Hdisj. by eapply codes_leaf.
    + rewrite (IHr _ _ _ p') by done. by rewrite <- (assoc_L (++)).
Qed.

(** No path to a leaf is a prefix of the path to another leaf. *)
Lemma codes_prefix_free t : ∀ v p w q,
  (v, p) ∈ codes t → (w, q) ∈ codes t → p `prefix_of` q → v = w ∧ p = q.
Proof.
  induction t as [u|l IHl r IHr]; intros v p w q Hp Hq Hpre.
  - simpl in *. apply list_elem_of_singleton in Hp, Hq. by simplify_eq.
  - apply codes_Fork in Hp as [(p' & -> & Hp)|(p' & -> & Hp)];
    apply codes_Fork in Hq as [(q' & -> & Hq)|(q' & -> & Hq)];
    try (by apply prefix_cons_inv_1 in Hpre);
    apply prefix_cons_inv_2 in Hpre.
    + destruct (IHl _ _ _ _ Hp Hq Hpre) as [-> ->]. done.
    + destruct (IHr _ _ _ _ Hp Hq Hpre) as [-> ->]. done.
Qed.

Lemma codes_length t v p : (v, p) ∈ codes t → (length p ≤ height t)%nat.
Proof.
  revert p. induction t as [u|l IHl r IHr]; intros p Hp.
  - simpl in *. apply list_elem_of_singleton in Hp. by simplify_eq.
  - apply codes_Fork in Hp as [(p' & -> & Hp)|(p' & -> & Hp)]; simpl.
    + specialize (IHl _ Hp). lia.
    + specialize (IHr _ Hp). lia.
Qed.

Lemma codes_nonempty_Fork l r v p : (v, p) ∈ codes (Fork l r) → p ≠ [].
Proof. by intros [(? & -> & _)|(? & -> & _)]%codes_Fork. Qed.

Lemma codes_chars t v p :
  (v, p) ∈ codes t → Forall (λ c, c = x00 ∨ c = x01) p.
Proof.
  revert p. induction t as [u|l IHl r IHr]; intros p Hp.
  - simpl in *. apply list_elem_of_singleton in Hp. by simplify_eq.
  - apply codes_Fork in Hp as [(p' & -> & Hp)|(p' & -> & Hp)];
      constructor; auto.
Qed.

(** ** The bit sequence: [std::reduce] and the fill pass *)

Lemma all_bits_length dict input_data :
  Z.of_nat (length (all_bits dict input_data)) = bit_total dict input_data.
Proof.
  unfold all_bits, bit_total. induction input_data as [|ch rest IH]; [done|].
  cbn [mbind list_bind fmap list_fmap]. rewrite length_app, sumZ_cons.
  unfold bits_of at 1. rewrite length_fmap.
  change (list_fmap _ _ ?f rest) with (f <$> rest).
  change (list_bind _ _ ?f rest) with (rest ≫= f) in *. lia.
Qed.

Lemma BinOp_val dict a b :
  BinOp dict a b = to_size_t (op_val dict a + op_val dict b).
Proof. by destruct a, b. Qed.

Lemma to_size_t_add_l a b : to_size_t (to_size_t a + b) = to_size_t (a + b).
Proof. unfold to_size_t. by rewrite Zplus_mod_idemp_l. Qed.

Lemma to_size_t_add_r a b : to_size_t (a + to_size_t b) = to_size_t (a + b).
Proof. unfold to_size_t. by rewrite Zplus_mod_idemp_r. Qed.

Lemma to_size_t_idemp a : to_size_t (to_size_t a) = to_size_t a.
Proof. unfold to_size_t. by rewrite Zmod_mod. Qed.

Lemma reduce_fold dict input_data : ∀ acc,
  foldl (λ acc b, BinOp dict (OpSize acc) (OpByte b)) (to_size_t acc) input_data
  = to_size_t (acc + bit_total dict input_data).
Proof.
  unfold bit_total. induction input_data as [|ch rest IH]; intros acc.
  - simpl. f_equal. unfold sumZ. simpl. lia.
  - cbn [foldl fmap list_fmap]. rewrite sumZ_cons.
    change (list_fmap _ _ ?f rest) with (f <$> rest).
    cbn [BinOp]. unfold dict_size. rewrite to_size_t_add_l, to_size_t_add_r.
    rewrite IH. f_equal. lia.
Qed.

Lemma reduce_spec dict input_data :
  reduce dict input_data = to_size_t (bit_total dict input_data).
Proof.
  unfold reduce. change 0 with (to_size_t 0) at 1. by rewrite reduce_fold.
Qed.

Lemma gnsum_val dict l r :
  generalized_noncommutative_sum dict l r →
  to_size_t (op_val dict r) = to_size_t (sumZ (op_val dict <$> l)) ∧
  ((2 ≤ length l)%nat → ∃ a, r = OpSize (to_size_t a)).
Proof.
  induction 1 as [a|l1 l2 a b Hl1 Hl2 Ha [IHa _] Hb [IHb _]].
  - split; [|simpl; lia]. simpl. rewrite sumZ_cons. f_equal.
    unfold sumZ; simpl; lia.
  - split; [|rewrite BinOp_val; eauto].
    rewrite fmap_app, sumZ_app. cbn [op_val]. rewrite BinOp_val, to_size_t_idemp.
    rewrite <- to_size_t_add_l, <- to_size_t_add_r, IHa, IHb.
    by rewrite to_size_t_add_l, to_size_t_add_r.
Qed.

Lemma gnsum_singleton dict a r :
  generalized_noncommutative_sum dict [a] r → r = a.
Proof.
  inversion 1 as [|l1 l2 ? ? Hl1 Hl2 ? ? Heq]; [done|].
  destruct l1 as [|? [|? ?]], l2; simplify_eq/=.
Qed.

Lemma op_val_sum dict input_data :
  to_size_t (sumZ (op_val dict <$> (OpByte <$> input_data))) =
  to_size_t (bit_total dict input_data).
Proof.
  unfold bit_total. induction input_data as [|ch rest IH]; [done|].
  cbn [fmap list_fmap op_val]. rewrite !sumZ_cons.
  change (list_fmap _ _ ?f ?l) with (f <$> l) in *.
  unfold dict_size at 1.
  rewrite <- to_size_t_add_r, IH.
  by rewrite to_size_t_add_l, to_size_t_add_r.
Qed.

(** Whatever way [std::reduce] groups and permutes the operands, it returns
    the value of the evaluation from left to right. *)
Lemma generalized_sum_reduce dict input_data r :
  generalized_sum dict (OpSize 0 :: (OpByte <$> input_data)) r →
  r = OpSize (reduce dict input_data).
Proof.
  intros (l' & Hp & Hsum). rewrite reduce_spec.
  assert (to_size_t (sumZ (op_val dict <$> l'))
          = to_size_t (bit_total dict input_data)) as Hval.
  { rewrite Hp. rewrite fmap_cons, sumZ_cons. cbn [op_val].
    rewrite Z.add_0_l. apply op_val_sum. }
  destruct (gnsum_val _ _ _ Hsum) as [Hv Hsz].
  destruct input_data as [|ch rest].
  - simpl in Hp. apply Permutation_singleton_r in Hp as ->.
    apply gnsum_singleton in Hsum as ->. done.
  - destruct Hsz as [a ->].
    { rewrite Hp. simpl. lia. }
    cbn [op_val] in Hv. rewrite to_size_t_idemp in Hv. by rewrite Hv, Hval.
Qed.

Lemma vec_set_middle {A} (pre suf : list A) (s x : A) :
  Z.of_nat (length pre) < 2 ^ 64 →
  vec_set (pre ++ s :: suf) (Z.of_nat (length pre)) x = Ok ((pre ++ [x]) ++ suf).
Proof.
  intros Hlen. unfold vec_set. rewrite length_app. simpl.
  destruct (Z.leb_spec 0 (Z.of_nat (length pre))); [|lia].
  destruct (Z.ltb_spec (Z.of_nat (length pre))
              (Z.of_nat (length pre + S (length suf)))); [|lia].
  simpl. rewrite Nat2Z.id. f_equal.
  rewrite insert_app_r_alt, Nat.sub_diag by lia. simpl.
  by rewrite <- (assoc_L (++)).
Qed.

Lemma write_bits_spec key : ∀ pre suf,
  (length key ≤ length suf)%nat →
  Z.of_nat (length pre + length suf) < 2 ^ 64 →
  write_bits key (pre ++ suf) (Z.of_nat (length pre)) =
  Ok (pre ++ bits_of key ++ drop (length key) suf,
      Z.of_nat (length pre + length key)).
Proof.
  induction key as [|bit key IH]; intros pre suf Hle Hsz.
  - simpl. by rewrite drop_0, Nat.add_0_r.
  - destruct suf as [|s suf]; [simpl in Hle; lia|]. simpl in Hle, Hsz.
    cbn [write_bits]. rewrite vec_set_middle by lia. cbn [bind].
    rewrite to_size_t_small by lia.
    replace (Z.of_nat (length pre) + 1)
      with (Z.of_nat (length (pre ++ [negb (Byte.eqb bit x00)])))
      by (rewrite length_app; simpl; lia).
    rewrite IH by (rewrite ?length_app; simpl; lia).
    rewrite length_app. simpl. rewrite <- (assoc_L (++)). simpl.
    do 2 f_equal. lia.
Qed.

Lemma concat_paths_spec dict input_data : ∀ pre suf,
  (length (all_bits dict input_data) ≤ length suf)%nat →
  Z.of_nat (length pre + length suf) < 2 ^ 64 →
  concat_paths dict input_data (pre ++ suf) (Z.of_nat (length pre)) =
  Ok (pre ++ all_bits dict input_data
          ++ drop (length (all_bits dict input_data)) suf,
      Z.of_nat (length pre + length (all_bits dict input_data))).
Proof.
  unfold all_bits.
  induction input_data as [|ch rest IH]; intros pre suf Hle Hsz.
  - simpl. by rewrite drop_0, Nat.add_0_r.
  - cbn [mbind list_bind] in *.
    change (list_bind _ _ ?f rest) with (rest ≫= f) in *.
    rewrite length_app in Hle.
    assert (length (bits_of (dict ch)) = length (dict ch)) as Hb
      by (unfold bits_of; by rewrite length_fmap).
    cbn [concat_paths]. rewrite write_bits_spec by lia. cbn [bind fst snd].
    rewrite (assoc_L (++) pre).
    replace (Z.of_nat (length pre + length (dict ch)))
      with (Z.of_nat (length (pre ++ bits_of (dict ch))))
      by (rewrite length_app; lia).
    rewrite IH by (rewrite ?length_app, ?length_drop; lia).
    rewrite drop_drop, !length_app, <- !(assoc_L (++)), Hb.
    do 2 f_equal. lia.
Qed.

Lemma init_binary_data_spec nodes input_data dict :
  init_dict nodes (root_index nodes) dict_empty = Ok dict →
  bit_total dict input_data < 2 ^ 64 →
  init_binary_data nodes input_data = Ok (all_bits dict input_data).
Proof.
  intros Hdict Htot. unfold init_binary_data. rewrite Hdict. cbn [bind].
  pose proof (all_bits_length dict input_data) as Hlen.
  rewrite reduce_spec, to_size_t_small by lia.
  rewrite <- Hlen, Nat2Z.id.
  pose proof (concat_paths_spec dict input_data []
                (replicate (length (all_bits dict input_data)) false)) as Hc.
  rewrite length_replicate in Hc. simpl in Hc.
  change (Z.of_nat 0) with 0 in Hc. rewrite Hc by lia.
  cbn [bind fst]. rewrite drop_ge by (by rewrite length_replicate).
  by rewrite app_nil_r.
Qed.

(** ** The decoder follows the paths *)

Lemma bits_of_x00 p : bits_of (x00 :: p) = false :: bits_of p.
Proof. done. Qed.

Lemma bits_of_x01 p : bits_of (x01 :: p) = true :: bits_of p.
Proof. done. Qed.

Lemma decode_loop_app nodes bits1 : ∀ bits2 node str node' str',
  decode_loop nodes bits1 node str = Ok (node', str') →
  decode_loop nodes (bits1 ++ bits2) node str =
  decode_loop nodes bits2 node' str'.
Proof.
  induction bits1 as [|b bits1 IH]; intros bits2 node str node' str' Hd.
  - simpl in *. by simplify_eq.
  - cbn [decode_loop app] in *.
    destruct (vec_at nodes (if b then right node else left node)) as [n|];
      [|done].
    cbn [bind] in *. destruct (isLeaf n).
    + destruct (root nodes); [|done]. cbn [bind] in *. by apply IH.
    + by apply IH.
Qed.

(** From an internal node of the tree, the bits of a path lead to its leaf;
    the decoder emits the leaf's byte and returns to the root. *)
Lemma decode_loop_code nodes rt t : ∀ i nd v p str,
  root nodes = Ok rt →
  repr nodes i t → vec_at nodes i = Ok nd → isLeaf nd = false →
  (v, p) ∈ codes t →
  decode_loop nodes (bits_of p) nd str = Ok (rt, str ++ [v]).
Proof.
  induction t as [u|l IHl r IHr]; intros i nd v p str Hrt Hr Hnd Hleaf Hp.
  { simpl in Hr. rewrite Hr in Hnd. by simplify_eq. }
  destruct Hr as (il & ir & Hn & Hil & Hir & Hl & Hr).
  rewrite Hn in Hnd. simplify_eq.
  assert (∀ s j, repr nodes j s → 0 ≤ j → ∃ n, vec_at nodes j = Ok n ∧
            match s with
            | Leaf w => n = mkNode (-1) (-1) w
            | Fork _ _ => isLeaf n = false
            end) as Hchild.
  { intros [w|s1 s2] j Hj Hj0; simpl in Hj.
    - eauto.
    - destruct Hj as (jl & jr & Hj & ? & _). eexists. split; [done|].
      unfold isLeaf. simpl. destruct (Z.eqb_spec jl (-1)); [lia|done]. }
  apply codes_Fork in Hp as [(p' & -> & Hp)|(p' & -> & Hp)];
    rewrite ?bits_of_x00, ?bits_of_x01; cbn [decode_loop left right].
  - destruct (Hchild l il Hl) as (n & Hvn & Hshape); [lia|].
    rewrite Hvn. cbn [bind]. destruct l as [w|l1 l2].
    + simpl in Hp. apply list_elem_of_singleton in Hp. simplify_eq.
      simpl. by rewrite Hrt.
    + rewrite Hshape. by eapply IHl.
  - destruct (Hchild r ir Hr) as (n & Hvn & Hshape); [lia|].
    rewrite Hvn. cbn [bind]. destruct r as [w|r1 r2].
    + simpl in Hp. apply list_elem_of_singleton in Hp. simplify_eq.
      simpl. by rewrite Hrt.
    + rewrite Hshape. by eapply IHr.
Qed.

(** Decoding the concatenated paths of a byte sequence gives it back. *)
Lemma decode_loop_all_bits nodes rt t dict i input_data : ∀ str,
  root nodes = Ok rt →
  repr nodes i t → vec_at nodes i = Ok rt → isLeaf rt = false →
  (∀ b, b ∈ input_data → (b, dict b) ∈ codes t) →
  decode_loop nodes (all_bits dict input_data) rt str =
  Ok (rt, str ++ input_data).
Proof.
  unfold all_bits.
  induction input_data as [|ch rest IH]; intros str Hrt Hr Hnd Hleaf Hcodes.
  - simpl. by rewrite app_nil_r.
  - cbn [mbind list_bind].
    change (list_bind _ _ ?f rest) with (rest ≫= f) in *.
    erewrite decode_loop_app.
    2:{ eapply decode_loop_code; [done..|]. apply Hcodes, list_elem_of_here. }
    rewrite IH; [|done..|].
    + by rewrite <- (assoc_L (++)).
    + intros b Hb. by apply Hcodes, list_elem_of_further.
Qed.

(** ** [encode] in its three cases *)

Lemma bits_fit_span_ok input_data : bits_fit input_data → span_ok input_data.
Proof. unfold bits_fit, span_ok. lia. Qed.

Lemma root_index_small nodes :
  (1 ≤ length nodes ≤ 511)%nat →
  root_index nodes = Z.of_nat (length nodes) - 1.
Proof.
  intros Hlen. unfold root_index. rewrite vec_size_small by lia.
  rewrite to_size_t_small by lia. apply to_int16_small. lia.
Qed.

Lemma root_lookup nodes n :
  vec_at nodes (Z.of_nat (length nodes) - 1) = Ok n → root nodes = Ok n.
Proof.
  intros [Hi Hn]%vec_at_Ok. unfold root, vec_back. rewrite last_lookup.
  replace (pred (length nodes)) with (Z.to_nat (Z.of_nat (length nodes) - 1))
    by lia.
  by rewrite Hn.
Qed.

Lemma bit_total_bound dict input_data m :
  (∀ b, b ∈ input_data → (length (dict b) ≤ m)%nat) →
  bit_total dict input_data ≤ Z.of_nat m * Z.of_nat (length input_data).
Proof.
  unfold bit_total. induction input_data as [|ch rest IH]; intros Hm.
  - unfold sumZ. simpl. lia.
  - cbn [fmap list_fmap length]. rewrite sumZ_cons.
    change (list_fmap _ _ ?f rest) with (f <$> rest).
    pose proof (Hm ch (list_elem_of_here _ _)).
    specialize (IH (λ b Hb, Hm b (list_elem_of_further _ _ _ Hb))). lia.
Qed.

Section encode_cases.
Context `{HeapAlgorithms}.

(** The general case: at least two distinct byte values. *)
Lemma code_table_ge_2 input_data :
  span_ok input_data → (2 ≤ distinct_bytes input_data)%nat →
  ∃ nodes t dict rt,
    init_tree input_data = Ok nodes ∧
    length nodes = (2 * distinct_bytes input_data - 1)%nat ∧
    children_before nodes ∧
    repr nodes (Z.of_nat (length nodes) - 1) t ∧
    leaves t ≡ₚ remove_dups input_data ∧
    root nodes = Ok rt ∧ isLeaf rt = false ∧
    init_dict nodes (root_index nodes) dict_empty = Ok dict ∧
    (∀ b, b ∈ input_data → (b, dict b) ∈ codes t) ∧
    (∀ b, b ∉ input_data → dict b = []).
Proof.
  intros Hok Hk.
  pose proof (distinct_bytes_le_256 _ Hok) as H256.
  destruct (init_tree_ge_2 input_data Hok Hk)
    as (q & nws & t & _ & _ & Htree & Hr & Hl & Hlen & _ & Hch).
  remember (node <$> nws) as nodes eqn:Hnodes.
  assert (length nodes = length nws) as Hln
    by (by rewrite Hnodes, length_fmap).
  rewrite <- Hln in Hr, Hlen. clear Hln.
  assert (NoDup (leaves t)) as Hnd by (rewrite Hl; apply NoDup_remove_dups).
  assert (length (leaves t) = distinct_bytes input_data) as Hll
    by (by rewrite Hl).
  pose proof (height_lt_leaves t) as Hh.
  assert (root_index nodes = Z.of_nat (length nodes) - 1) as Hri
    by (apply root_index_small; lia).
  set (dict := dict_of_tree t [] dict_empty).
  assert (init_dict nodes (root_index nodes) dict_empty = Ok dict) as Hdict.
  { unfold init_dict. rewrite Hri.
    rewrite (init_dict_rec_repr nodes t) by (done || lia). done. }
  assert (∀ b, b ∈ input_data → (b, dict b) ∈ codes t) as Hcodes.
  { intros b Hb. destruct (leaf_has_code t b) as [p Hp].
    { rewrite Hl. by apply elem_of_remove_dups. }
    unfold dict. by rewrite (dict_of_tree_code t [] dict_empty b p). }
  assert (∃ rt, vec_at nodes (Z.of_nat (length nodes) - 1) = Ok rt ∧
                isLeaf rt = false) as (rt & Hrt & Hleaf).
  { destruct t as [v|l r]; [simpl in Hll; lia|].
    destruct Hr as (il & ir & Hn & ? & _). eexists. split; [done|].
    unfold isLeaf. simpl. destruct (Z.eqb_spec il (-1)); [lia|done]. }
  exists nodes, t, dict, rt.
  split_and!; [done|done|done|done|done|by apply root_lookup|done|done|done|].
  intros b Hb. unfold dict. rewrite dict_of_tree_other; [done|].
  by rewrite Hl, elem_of_remove_dups.
Qed.

Lemma code_table_bit_total input_data t dict :
  bits_fit input_data →
  (length (leaves t) ≤ 256)%nat →
  (∀ b, b ∈ input_data → (b, dict b) ∈ codes t) →
  bit_total dict input_data < 2 ^ 64.
Proof.
  intros Hfit H256 Hcodes. pose proof (height_lt_leaves t) as Hh.
  pose proof (bit_total_bound dict input_data 255) as Hb.
  unfold bits_fit in Hfit. enough (bit_total dict input_data
    ≤ Z.of_nat 255 * Z.of_nat (length input_data)) by lia.
  apply Hb. intros b Hb'. pose proof (codes_length _ _ _ (Hcodes b Hb')). lia.
Qed.

Lemma encode_ge_2 input_data :
  bits_fit input_data → (2 ≤ distinct_bytes input_data)%nat →
  ∃ nodes t dict rt,
    init_tree input_data = Ok nodes ∧
    repr nodes (Z.of_nat (length nodes) - 1) t ∧
    root nodes = Ok rt ∧ isLeaf rt = false ∧
    init_dict nodes (root_index nodes) dict_empty = Ok dict ∧
    (∀ b, b ∈ input_data → (b, dict b) ∈ codes t) ∧
    bit_total dict input_data < 2 ^ 64 ∧
    encode input_data =
      Ok {| binary_data_ := all_bits dict input_data; nodes_ := nodes |}.
Proof.
  intros Hfit Hk. pose proof (bits_fit_span_ok _ Hfit) as Hok.
  pose proof (distinct_bytes_le_256 _ Hok) as H256.
  destruct (code_table_ge_2 input_data Hok Hk)
    as (nodes & t & dict & rt & Htree & Hlen & _ & Hr & Hl & Hrt & Hleaf
        & Hdict & Hcodes & _).
  assert (bit_total dict input_data < 2 ^ 64) as Htot.
  { apply (code_table_bit_total input_data t); [done| |done].
    rewrite Hl. exact H256. }
  exists nodes, t, dict, rt. split_and!; [done..|].
  unfold encode. rewrite Htree. cbn [bind].
  by rewrite (init_binary_data_spec nodes input_data dict Hdict).
Qed.

(** The empty input. *)
Lemma encode_0 input_data :
  span_ok input_data → distinct_bytes input_data = 0%nat →
  input_data = [] ∧
  encode input_data =
    Ok {| binary_data_ := []; nodes_ := [mkNode (-1) (-1) x00] |}.
Proof.
  intros Hok Hk.
  assert (input_data = []) as ->.
  { unfold distinct_bytes in Hk. apply nil_length_inv in Hk.
    destruct input_data as [|b ?]; [done|].
    assert (b ∈ remove_dups (b :: input_data)) as Hb
      by apply elem_of_remove_dups, list_elem_of_here.
    rewrite Hk in Hb. by apply elem_of_nil in Hb. }
  split; [done|]. unfold encode. rewrite (init_tree_0 [] Hok Hk). done.
Qed.

(** A single distinct byte value. *)
Lemma encode_1 input_data :
  span_ok input_data → distinct_bytes input_data = 1%nat →
  ∃ V,
    input_data = replicate (length input_data) V ∧
    (1 ≤ length input_data)%nat ∧
    init_tree input_data = Ok [mkNode (-1) (-1) V; mkNode (-1) 0 x00] ∧
    init_dict [mkNode (-1) (-1) V; mkNode (-1) 0 x00] 1 dict_empty =
      Ok (<[V := [x01]]> dict_empty) ∧
    all_bits (<[V := [x01]]> dict_empty) input_data =
      replicate (length input_data) true ∧
    encode input_data =
      Ok {| binary_data_ := replicate (length input_data) true;
            nodes_ := [mkNode (-1) (-1) V; mkNode (-1) 0 x00] |}.
Proof.
  intros Hok Hk. destruct (init_tree_1 input_data Hok Hk) as (V & Hall & Hf & Ht).
  assert (input_data = replicate (length input_data) V) as Hrep.
  { clear -Hall. induction input_data as [|b rest IH]; [done|]. simpl.
    rewrite (Hall b) by apply list_elem_of_here. f_equal. apply IH.
    intros b' Hb'. by apply Hall, list_elem_of_further. }
  assert (init_dict [mkNode (-1) (-1) V; mkNode (-1) 0 x00] 1 dict_empty =
          Ok (<[V := [x01]]> dict_empty)) as Hdict by done.
  assert (all_bits (<[V := [x01]]> dict_empty) input_data
          = replicate (length input_data) true) as Hbits.
  { rewrite Hrep at 1. clear. induction (length input_data) as [|n IH]; [done|].
    unfold all_bits in *. simpl. rewrite fn_lookup_insert. simpl.
    f_equal. exact IH. }
  exists V. split_and!; [done| |done|done|done|].
  { destruct input_data; [done|simpl; lia]. }
  unfold encode. rewrite Ht. cbn [bind].
  rewrite (init_binary_data_spec _ input_data (<[V := [x01]]> dict_empty)).
  - by rewrite Hbits.
  - done.
  - rewrite <- all_bits_length, Hbits, length_replicate. exact Hok.
Qed.

End encode_cases.

(** ** Encoding, then decoding *)

Lemma distinct_bytes_replicate V n : distinct_bytes (replicate (S n) V) = 1%nat.
Proof.
  unfold distinct_bytes.
  assert (remove_dups (replicate (S n) V) = [V]) as ->; [|done].
  induction n as [|n IH]; [done|].
  change (replicate (S (S n)) V) with (V :: replicate (S n) V).
  cbn [remove_dups].
  destruct (decide_rel _ _ _) as [_|[]]; [exact IH|apply list_elem_of_here].
Qed.

Lemma decode_loop_single V (n : nat) : ∀ str,
  decode_loop [mkNode (-1) (-1) V; mkNode (-1) 0 x00] (replicate n true)
              (mkNode (-1) 0 x00) str =
  Ok (mkNode (-1) 0 x00, str ++ replicate n V).
Proof.
  induction n as [|n IH]; intros str; simpl.
  - by rewrite app_nil_r.
  - rewrite IH. by rewrite <- (assoc_L (++)).
Qed.

Section round_trip.
Context `{HeapAlgorithms}.

(** What [encode] returns, in all three cases at once. *)
Lemma encode_decode_spec input_data :
  bits_fit input_data →
  ∃ e dict,
    encode input_data = Ok e ∧
    init_tree input_data = Ok (nodes_ e) ∧
    init_dict (nodes_ e) (root_index (nodes_ e)) dict_empty = Ok dict ∧
    binary_data_ e = all_bits dict input_data ∧
    bit_total dict input_data < 2 ^ 64 ∧
    decode e = Ok input_data.
Proof.
  intros Hfit. pose proof (bits_fit_span_ok _ Hfit) as Hok.
  destruct (distinct_bytes input_data) as [|[|k]] eqn:Hk.
  - destruct (encode_0 input_data Hok Hk) as [-> He].
    eexists _, (<[x00 := []]> dict_empty).
    split_and!; [exact He|by apply init_tree_0|done..].
  - destruct (encode_1 input_data Hok Hk)
      as (V & Hrep & Hn & Ht & Hd & Hbits & He).
    eexists _, _. split_and!; [exact He|exact Ht|exact Hd| | |].
    + by rewrite Hbits.
    + rewrite <- all_bits_length, Hbits, length_replicate. exact Hok.
    + unfold decode. simpl. rewrite decode_loop_single. simpl.
      by rewrite <- Hrep.
  - destruct (encode_ge_2 input_data Hfit) as
      (nodes & t & dict & rt & Htree & Hr & Hrt & Hleaf & Hdict & Hcodes
       & Htot & He); [lia|].
    eexists _, dict. split_and!; [exact He|done..|].
    unfold decode. simpl. rewrite Hrt. cbn [bind].
    erewrite decode_loop_all_bits; [done|done|exact Hr| |done|done].
    unfold root, vec_back in Hrt. rewrite last_lookup in Hrt.
    apply vec_at_Ok. pose proof (repr_bound _ _ _ Hr).
    split; [lia|].
    replace (Z.to_nat (Z.of_nat (length nodes) - 1)) with (pred (length nodes))
      by lia.
    by destruct (nodes !! pred (length nodes)); simplify_eq.
Qed.

End round_trip.

(** ** The properties of the specification *)

Section properties.
Context `{HeapAlgorithms}.

Lemma encode_nodes input_data e :
  encode input_data = Ok e → init_tree input_data = Ok (nodes_ e).
Proof.
  unfold encode. destruct (init_tree input_data) as [nodes|]; [|done].
  cbn [bind]. destruct (init_binary_data nodes input_data); [|done].
  cbn [bind]. by intros [= <-].
Qed.

(** C1, round trip: for every byte sequence X that a span can describe and
    whose bits a [size_t] can count, [encode] succeeds and decoding the
    artifact it returns gives exactly X.  The empty sequence and sequences
    holding every byte value are among them. *)
Theorem C1_round_trip input_data :
  bits_fit input_data →
  ∃ e, encode input_data = Ok e ∧ decode e = Ok input_data.
Proof.
  intros Hfit.
  destruct (encode_decode_spec input_data Hfit) as (e & _ & He & _ & _ & _ & _ & Hd).
  by exists e.
Qed.

(** C2, arena sizing: with k distinct byte values in the input, the arena
    built by [init_tree] (the arena of the artifact that [encode] returns)
    holds 1 node if k = 0, 2 nodes if k = 1 and 2k - 1 nodes if k >= 2.  It
    never has more than 511 entries; every index of the arena, and the root
    index in particular, survives the conversion to [int16_t] unchanged and
    differs from the sentinel -1; every child field is the sentinel or the
    index of an earlier node. *)
Theorem C2_arena_size input_data :
  span_ok input_data →
  ∃ nodes,
    init_tree input_data = Ok nodes ∧
    (∀ e, encode input_data = Ok e → nodes_ e = nodes) ∧
    length nodes =
      match distinct_bytes input_data with
      | 0 => 1
      | 1 => 2
      | S (S _) => 2 * distinct_bytes input_data - 1
      end%nat ∧
    (length nodes ≤ 511)%nat ∧
    root_index nodes = Z.of_nat (length nodes) - 1 ∧
    (∀ i, 0 ≤ i < Z.of_nat (length nodes) → to_int16 i = i ∧ i ≠ -1) ∧
    children_before nodes.
Proof.
  intros Hok. pose proof (distinct_bytes_le_256 _ Hok) as H256.
  assert (∃ nodes, init_tree input_data = Ok nodes ∧
            length nodes =
              match distinct_bytes input_data with
              | 0 => 1
              | 1 => 2
              | S (S _) => 2 * distinct_bytes input_data - 1
              end%nat ∧ children_before nodes) as (nodes & Ht & Hlen & Hch).
  { destruct (distinct_bytes input_data) as [|[|k]] eqn:Hk.
    - eexists. split_and!; [by apply init_tree_0|done|].
      intros [|i] n Hn; simplify_eq/=. lia.
    - destruct (init_tree_1 input_data Hok Hk) as (V & _ & _ & Ht).
      eexists. split_and!; [exact Ht|done|].
      intros [|[|i]] n Hn; simplify_eq/=; lia.
    - destruct (code_table_ge_2 input_data Hok) as
        (nodes & t & dict & rt & Ht & Hlen & Hch & _); [lia|].
      exists nodes. split_and!; [done| |done]. by rewrite Hlen, Hk. }
  assert (1 ≤ length nodes ≤ 511)%nat as Hbound.
  { rewrite Hlen. destruct (distinct_bytes input_data) as [|[|k]]; lia. }
  exists nodes. split_and!; [done| |done|lia| | |done].
  - intros e He%encode_nodes. rewrite Ht in He. by injection He.
  - by apply root_index_small.
  - intros i Hi. split; [apply to_int16_small|]; lia.
Qed.

(** C3, prefix-freedom: when the input has at least two distinct byte
    values, the code table that [init_dict] derives from the finished tree
    holds, for every byte value present, a non-empty path made of the
    characters 0 and 1, and the path of a present byte value is never a
    prefix of the path of another present byte value. *)
Theorem C3_prefix_free input_data :
  span_ok input_data → (2 ≤ distinct_bytes input_data)%nat →
  ∃ nodes dict,
    init_tree input_data = Ok nodes ∧
    init_dict nodes (root_index nodes) dict_empty = Ok dict ∧
    (∀ b, b ∈ input_data →
       dict b ≠ [] ∧ Forall (λ c, c = x00 ∨ c = x01) (dict b)) ∧
    (∀ b c, b ∈ input_data → c ∈ input_data → b ≠ c →
       ¬ dict b `prefix_of` dict c).
Proof.
  intros Hok Hk.
  destruct (code_table_ge_2 input_data Hok Hk)
    as (nodes & t & dict & rt & Htree & Hlen & _ & Hr & Hl & Hrt & Hleaf
        & Hdict & Hcodes & _).
  exists nodes, dict. split_and!; [done|done| |].
  - intros b Hb. specialize (Hcodes b Hb). split.
    + destruct t as [v|l r]; [|by eapply codes_nonempty_Fork].
      apply Permutation_length in Hl. simpl in Hl.
      unfold distinct_bytes in Hk. lia.
    + by eapply codes_chars.
  - intros b c Hb Hc Hne Hpre.
    destruct (codes_prefix_free t _ _ _ _ (Hcodes b Hb) (Hcodes c Hc) Hpre).
    done.
Qed.

(** C4, bit-length accounting: the bit sequence of [encode X] has as many
    bits as the paths of the bytes of X, taken in order, have characters in
    the derived code table.  Every result that [std::reduce] may return for
    the pre-sizing total, whatever the grouping and the order of the
    operands, is that number, and the sequential fill pass started on the
    pre-sized vector writes that many bits and stops at that index. *)
Theorem C4_bit_length input_data :
  bits_fit input_data →
  ∃ e dict,
    encode input_data = Ok e ∧
    init_dict (nodes_ e) (root_index (nodes_ e)) dict_empty = Ok dict ∧
    Z.of_nat (length (binary_data_ e)) =
      sumZ ((λ ch, Z.of_nat (length (dict ch))) <$> input_data) ∧
    (∀ r, generalized_sum dict (OpSize 0 :: (OpByte <$> input_data)) r →
          r = OpSize (Z.of_nat (length (binary_data_ e)))) ∧
    concat_paths dict input_data
      (replicate (Z.to_nat (reduce dict input_data)) false) 0 =
      Ok (binary_data_ e, Z.of_nat (length (binary_data_ e))).
Proof.
  intros Hfit.
  destruct (encode_decode_spec input_data Hfit)
    as (e & dict & He & _ & Hdict & Hbits & Htot & _).
  pose proof (all_bits_length dict input_data) as Hlen.
  assert (reduce dict input_data = Z.of_nat (length (binary_data_ e))) as Hred.
  { rewrite reduce_spec, to_size_t_small, Hbits by lia. lia. }
  exists e, dict. split_and!; [done|done| | |].
  - rewrite Hbits. exact Hlen.
  - intros r Hr%generalized_sum_reduce. by rewrite Hr, Hred.
  - rewrite Hred, Nat2Z.id, Hbits.
    pose proof (concat_paths_spec dict input_data []
                  (replicate (length (all_bits dict input_data)) false)) as Hc.
    rewrite length_replicate in Hc. simpl in Hc.
    change (Z.of_nat 0) with 0 in Hc. rewrite Hc by lia.
    rewrite drop_ge by (by rewrite length_replicate). by rewrite app_nil_r.
Qed.

(** C5, one distinct byte value: for n >= 1 occurrences of the byte V,
    [encode] returns the arena [Leaf(V), Internal(left = -1, right = 0)],
    the code table gives V the one-character path 1, the bit sequence is n
    one-bits, and [decode] returns the n occurrences of V. *)
Theorem C5_single_symbol V (n : nat) :
  (1 ≤ n)%nat → Z.of_nat n < 2 ^ 64 →
  ∃ e dict,
    encode (replicate n V) = Ok e ∧
    nodes_ e = [mkNode (-1) (-1) V; mkNode (-1) 0 x00] ∧
    init_dict (nodes_ e) (root_index (nodes_ e)) dict_empty = Ok dict ∧
    dict V = [x01] ∧ bits_of (dict V) = [true] ∧
    binary_data_ e = replicate n true ∧
    decode e = Ok (replicate n V).
Proof.
  intros Hn Hsz. destruct n as [|n]; [lia|].
  assert (span_ok (replicate (S n) V)) as Hok
    by (unfold span_ok; by rewrite length_replicate).
  destruct (encode_1 _ Hok (distinct_bytes_replicate V n))
    as (W & Hrep & _ & Ht & Hd & Hbits & He).
  assert (W = V) as -> by (by injection Hrep).
  rewrite length_replicate in He.
  eexists _, _. split_and!; [exact He|done|exact Hd| | |done|].
  - apply fn_lookup_insert.
  - by rewrite fn_lookup_insert.
  - unfold decode. cbn [nodes_ binary_data_].
    change (root [mkNode (-1) (-1) V; mkNode (-1) 0 x00])
      with (Ok (mkNode (-1) 0 x00)).
    cbn [bind]. by rewrite decode_loop_single.
Qed.

End properties.

(** ** The merge loop, iteration by iteration *)

Section merge_trace.
Context `{HeapAlgorithms}.

(** Every state that the loop reaches holds a forest. *)
Lemma loop_state_inv input_data queue0 s :
  span_ok input_data →
  init_queue input_data =
    Ok (make_leaf_nodes (count_bytes input_data), queue0) →
  rtc loop_step (make_leaf_nodes (count_bytes input_data), queue0) s →
  ∃ F, forest_inv (leaf_values (make_leaf_nodes (count_bytes input_data)))
                  (Z.of_nat (length input_data)) s.1 s.2 F.
Proof.
  intros Hok Hq0 Hrtc.
  pose proof (distinct_bytes_le_256 input_data Hok) as H256.
  pose proof (leaf_values_distinct input_data Hok) as HL.
  assert (length (leaf_values (make_leaf_nodes (count_bytes input_data)))
            ≤ 256)%nat as HL256 by (by rewrite HL).
  revert s Hrtc. apply rtc_ind_r.
  - destruct (init_queue_spec input_data Hok) as (q & Hq & Hinv).
    rewrite Hq0 in Hq. simplify_eq. eauto.
  - intros s1 s2 Hrtc [Hsz Hstep] IH.
    destruct IH as [F Hinv]. destruct s1 as [nws q]. simpl in *.
    pose proof (fi_size _ _ _ _ _ Hinv) as Hlen.
    unfold pq_size in Hsz. rewrite vec_size_small in Hsz by lia.
    destruct (merge_step_spec _ _ _ _ _ HL256 Hok Hinv)
      as (? & ? & ? & ? & ? & q' & F' & _ & _ & _ & _ & _ & Hstep' & _ & Hinv');
      [lia|].
    rewrite Hstep' in Hstep. simplify_eq. eauto.
Qed.

Lemma encode_abb :
  ∃ dict,
    encode (bytes_of_string "abb") =
      Ok {| binary_data_ := [false; true; true];
            nodes_ := [mkNode (-1) (-1) "a"; mkNode (-1) (-1) "b";
                       mkNode 0 1 x00] |} ∧
    init_dict [mkNode (-1) (-1) "a"; mkNode (-1) (-1) "b"; mkNode 0 1 x00]
              2 dict_empty = Ok dict ∧
    dict "a"%byte = [x00] ∧ dict "b"%byte = [x01].
Proof.
  set (X := bytes_of_string "abb").
  assert (span_ok X) as Hok by (by vm_compute).
  assert (make_leaf_nodes (count_bytes X) =
          [leaf_node "a" 1; leaf_node "b" 2]) as Hls by (by vm_compute).
  destruct (init_queue_size X Hok) as (q & Hq & Hs & Hlq & Hinv).
  rewrite Hls in Hq, Hinv.
  assert (distinct_bytes X = 2%nat) as Hk by (by vm_compute).
  rewrite Hk in Hs, Hlq.
  pose proof (fi_queue _ _ _ _ _ Hinv) as Hperm. simpl in Hperm.
  assert (length (leaf_values [leaf_node "a" 1; leaf_node "b" 2]) ≤ 256)%nat
    as HL by (simpl; lia).
  destruct (merge_step_spec _ _ _ _ _ HL Hok Hinv)
    as (A & B & rest & nA & nB & q' & F' & HqAB & HvA & HvB & HminA & _
        & Hstep & Hq' & _); [lia|].
  assert (0 ∈ q) as H0 by (rewrite <- Hperm; apply list_elem_of_here).
  specialize (HminA 0 H0).
  rewrite <- Hperm in HqAB.
  apply Permutation_length_2_inv in HqAB as [HAB|HAB]; simplify_eq.
  2:{ vm_compute in HvA. simplify_eq. vm_compute in HminA. done. }
  apply Permutation_singleton_r in Hq'. subst q'.
  vm_compute in HvA, HvB. simplify_eq. simpl in Hstep.
  assert (init_tree X = Ok [mkNode (-1) (-1) "a"; mkNode (-1) (-1) "b";
                            mkNode 0 1 x00]) as Ht.
  { unfold init_tree. rewrite Hq. cbn [bind fst snd]. rewrite Hs, Hlq.
    cbn [merge_loop]. rewrite Hs. cbn [Z.ltb Z.compare Pos.compare
      Pos.compare_cont]. rewrite Hstep. done. }
  eexists. split_and!.
  - unfold encode. rewrite Ht. done.
  - done.
  - done.
  - done.
Qed.

(** C6, the merge loop: with at least two distinct byte values, every
    iteration of the loop removes from the queue a node A of least count,
    then a node B of least count among the others, and appends an internal
    node with left = A, right = B and count = count(A) + count(B), whose
    index replaces A and B in the queue; the loop runs until the queue
    holds one index, which is the last index of the arena and the root.
    For the input "abb" the code table maps a to the path 0 and b to the
    path 1, and the bit sequence is 0,1,1. *)
Theorem C6_merge_loop :
  (∀ input_data,
     span_ok input_data → (2 ≤ distinct_bytes input_data)%nat →
     ∃ queue0 nodes_with_size,
       init_queue input_data =
         Ok (make_leaf_nodes (count_bytes input_data), queue0) ∧
       (∀ nws queue,
          rtc loop_step (make_leaf_nodes (count_bytes input_data), queue0)
              (nws, queue) →
          1 < pq_size queue →
          ∃ A B rest nA nB queue',
            queue ≡ₚ A :: B :: rest ∧
            vec_at nws A = Ok nA ∧ vec_at nws B = Ok nB ∧
            (∀ y, y ∈ queue → count nA ≤ count_at nws y) ∧
            (∀ y, y ∈ B :: rest → count nB ≤ count_at nws y) ∧
            merge_step nws queue =
              Ok (nws ++ [mkNodeWithCount (mkNode A B x00)
                                          (count nA + count nB)],
                  queue') ∧
            queue' ≡ₚ Z.of_nat (length nws) :: rest) ∧
       rtc loop_step (make_leaf_nodes (count_bytes input_data), queue0)
           (nodes_with_size, [Z.of_nat (length nodes_with_size) - 1]) ∧
       init_tree input_data = Ok (node <$> nodes_with_size) ∧
       root_index (node <$> nodes_with_size) =
         Z.of_nat (length nodes_with_size) - 1) ∧
  (∃ dict,
     encode (bytes_of_string "abb") =
       Ok {| binary_data_ := [false; true; true];
             nodes_ := [mkNode (-1) (-1) "a"; mkNode (-1) (-1) "b";
                        mkNode 0 1 x00] |} ∧
     init_dict [mkNode (-1) (-1) "a"; mkNode (-1) (-1) "b"; mkNode 0 1 x00]
               2 dict_empty = Ok dict ∧
     dict "a"%byte = [x00] ∧ dict "b"%byte = [x01]).
Proof.
  split; [|exact encode_abb].
  intros input_data Hok Hk.
  pose proof (distinct_bytes_le_256 input_data Hok) as H256.
  pose proof (leaf_values_distinct input_data Hok) as HL.
  assert (length (leaf_values (make_leaf_nodes (count_bytes input_data)))
            ≤ 256)%nat as HL256 by (by rewrite HL).
  destruct (init_tree_ge_2 input_data Hok Hk)
    as (q0 & nws & t & Hq0 & Hrtc & Htree & _ & _ & Hlen & _ & _).
  exists q0, nws. split_and!; [done| |done|done|].
  - intros nws1 q1 Hreach Hsz.
    destruct (loop_state_inv input_data q0 _ Hok Hq0 Hreach) as [F Hinv].
    simpl in Hinv. pose proof (fi_size _ _ _ _ _ Hinv) as Hlen1.
    unfold pq_size in Hsz. rewrite vec_size_small in Hsz by lia.
    destruct (merge_step_spec _ _ _ _ _ HL256 Hok Hinv)
      as (A & B & rest & nA & nB & q' & F' & ? & ? & ? & ? & ? & ? & ? & _);
      [lia|].
    by exists A, B, rest, nA, nB, q'.
  - rewrite root_index_small; rewrite length_fmap; lia.
Qed.

End merge_trace.

(** ** A bit sequence that ends in the middle of a path *)

Lemma decode_loop_str nodes bits : ∀ nd str nd' str',
  decode_loop nodes bits nd str = Ok (nd', str') →
  ∃ out, str' = str ++ out ∧
         ∀ str0, decode_loop nodes bits nd str0 = Ok (nd', str0 ++ out).
Proof.
  induction bits as [|b bits IH]; intros nd str nd' str' Hd.
  - simpl in Hd. simplify_eq. exists []. split; [by rewrite app_nil_r|].
    intros str0. simpl. by rewrite app_nil_r.
  - cbn [decode_loop] in *.
    destruct (vec_at nodes (if b then right nd else left nd)) as [n|];
      [|done].
    cbn [bind] in *. destruct (isLeaf n).
    + destruct (root nodes) as [rt|]; [|done]. cbn [bind] in *.
      destruct (IH _ _ _ _ Hd) as (out & -> & Hout).
      exists (value n :: out). split; [by rewrite <- (assoc_L (++))|].
      intros str0. rewrite Hout. by rewrite <- (assoc_L (++)).
    + by apply IH.
Qed.

(** A run of the loop splits at its last return to the root: the bits
    before it decode to the whole output, the bits after it emit nothing. *)
Lemma decode_loop_split nodes rt bits : ∀ nd str nd' str',
  root nodes = Ok rt →
  decode_loop nodes bits nd str = Ok (nd', str') →
  str' = str ∨
  ∃ complete partial,
    bits = complete ++ partial ∧
    decode_loop nodes complete nd str = Ok (rt, str') ∧
    decode_loop nodes partial rt str' = Ok (nd', str').
Proof.
  induction bits as [|b bits IH]; intros nd str nd' str' Hrt Hd.
  - simpl in Hd. simplify_eq. by left.
  - cbn [decode_loop] in Hd.
    destruct (vec_at nodes (if b then right nd else left nd)) as [n|] eqn:Hn;
      [|done].
    cbn [bind] in Hd. destruct (isLeaf n) eqn:Hleaf.
    + rewrite Hrt in Hd. cbn [bind] in Hd. right.
      destruct (IH _ _ _ _ Hrt Hd) as [->|(complete & partial & -> & Hc & Hp)].
      * exists [b], bits. split_and!; [done| |done].
        cbn [decode_loop]. rewrite Hn. cbn [bind]. rewrite Hleaf, Hrt. done.
      * exists (b :: complete), partial. split_and!; [done| |done].
        cbn [decode_loop]. rewrite Hn. cbn [bind]. rewrite Hleaf, Hrt. done.
    + destruct (IH _ _ _ _ Hrt Hd) as [->|(complete & partial & -> & Hc & Hp)];
        [by left|right].
      exists (b :: complete), partial. split_and!; [done| |done].
      cbn [decode_loop]. rewrite Hn. cbn [bind]. by rewrite Hleaf.
Qed.

(** The bits of a proper prefix of a path lead from an internal node to an
    internal node and emit nothing. *)
Lemma decode_loop_partial nodes t : ∀ i nd v p q str,
  repr nodes i t → vec_at nodes i = Ok nd → isLeaf nd = false →
  (v, p ++ q) ∈ codes t → q ≠ [] →
  ∃ nd', decode_loop nodes (bits_of p) nd str = Ok (nd', str).
Proof.
  induction t as [u|l IHl r IHr]; intros i nd v p q str Hr Hnd Hleaf Hp Hq.
  { simpl in Hr. rewrite Hr in Hnd. by simplify_eq. }
  destruct p as [|c p]; [by eexists|].
  destruct Hr as (il & ir & Hn & Hil & Hir & Hl & Hr).
  rewrite Hn in Hnd. simplify_eq.
  assert (∀ s j, repr nodes j s → 0 ≤ j → ∃ n, vec_at nodes j = Ok n ∧
            match s with
            | Leaf w => True
            | Fork _ _ => isLeaf n = false
            end) as Hchild.
  { intros [w|s1 s2] j Hj Hj0; simpl in Hj.
    - eauto.
    - destruct Hj as (jl & jr & Hj & ? & _). eexists. split; [done|].
      unfold isLeaf. simpl. destruct (Z.eqb_spec jl (-1)); [lia|done]. }
  apply codes_Fork in Hp as [(p' & Heq & Hp)|(p' & Heq & Hp)];
    simplify_eq/=; rewrite ?bits_of_x00, ?bits_of_x01;
    cbn [decode_loop left right].
  - destruct (Hchild l il Hl) as (n & Hvn & Hshape); [lia|].
    rewrite Hvn. cbn [bind]. destruct l as [w|l1 l2].
    + simpl in Hp. apply list_elem_of_singleton in Hp.
      simplify_eq. by destruct p.
    + rewrite Hshape. by eapply IHl.
  - destruct (Hchild r ir Hr) as (n & Hvn & Hshape); [lia|].
    rewrite Hvn. cbn [bind]. destruct r as [w|r1 r2].
    + simpl in Hp. apply list_elem_of_singleton in Hp.
      simplify_eq. by destruct p.
    + rewrite Hshape. by eapply IHr.
Qed.

(** C7, truncated bit sequence: when the loop of [decode] has consumed all
    the bits of an artifact and stands at a node other than the root, that
    is in the middle of a path, [decode] returns without error the bytes
    emitted so far.  They are the bytes of the paths that were consumed in
    full: the bit sequence splits into a part that decodes, on its own, to
    the same output and ends at the root, and a non-empty remainder that
    emits no byte.  For an arena built by [init_tree] from an input with at
    least two distinct byte values, the paths of any bytes Y of the input
    followed by a proper prefix of a path decode to Y. *)
Theorem C7_truncated_decode `{HeapAlgorithms} :
  (∀ e rt nd s,
     root (nodes_ e) = Ok rt →
     decode_loop (nodes_ e) (binary_data_ e) rt [] = Ok (nd, s) →
     nd ≠ rt →
     decode e = Ok s ∧
     ∃ complete partial,
       binary_data_ e = complete ++ partial ∧ partial ≠ [] ∧
       decode {| binary_data_ := complete; nodes_ := nodes_ e |} = Ok s ∧
       decode_loop (nodes_ e) complete rt [] = Ok (rt, s) ∧
       decode_loop (nodes_ e) partial rt [] = Ok (nd, [])) ∧
  (∀ input_data,
     span_ok input_data → (2 ≤ distinct_bytes input_data)%nat →
     ∃ nodes dict,
       init_tree input_data = Ok nodes ∧
       init_dict nodes (root_index nodes) dict_empty = Ok dict ∧
       ∀ Y c p q,
         (∀ b, b ∈ Y → b ∈ input_data) → c ∈ input_data →
         dict c = p ++ q → q ≠ [] →
         decode {| binary_data_ := all_bits dict Y ++ bits_of p;
                   nodes_ := nodes |} = Ok Y).
Proof.
  split.
  - intros e rt nd s Hrt Hd Hne.
    assert (decode e = Ok s) as Hdec.
    { unfold decode. rewrite Hrt. cbn [bind]. by rewrite Hd. }
    split; [done|].
    destruct (decode_loop_split _ _ _ _ _ _ _ Hrt Hd)
      as [->|(complete & partial & Hbits & Hc & Hp)].
    + exists [], (binary_data_ e). split_and!; [done| | |done|done].
      * intros Hnil. rewrite Hnil in Hd. simpl in Hd. by simplify_eq.
      * unfold decode. cbn [nodes_ binary_data_]. by rewrite Hrt.
    + destruct (decode_loop_str _ _ _ _ _ _ Hp) as (out & Hout & Hemit).
      assert (out = []) as ->.
      { apply (f_equal length) in Hout. rewrite length_app in Hout.
        destruct out; [done|simpl in Hout; lia]. }
      exists complete, partial. split_and!; [done| | |done|].
      * intros ->. simpl in Hp. by simplify_eq.
      * unfold decode. cbn [nodes_ binary_data_]. rewrite Hrt. cbn [bind].
        by rewrite Hc.
      * apply (Hemit []).
  - intros input_data Hok Hk.
    destruct (code_table_ge_2 input_data Hok Hk)
      as (nodes & t & dict & rt & Htree & Hlen & _ & Hr & Hl & Hrt & Hleaf
          & Hdict & Hcodes & _).
    exists nodes, dict. split_and!; [done|done|].
    intros Y c p q HY Hc Hpq Hq.
    assert (vec_at nodes (Z.of_nat (length nodes) - 1) = Ok rt) as Hvrt.
    { unfold root, vec_back in Hrt. rewrite last_lookup in Hrt.
      apply vec_at_Ok. pose proof (repr_bound _ _ _ Hr).
      split; [lia|].
      replace (Z.to_nat (Z.of_nat (length nodes) - 1))
        with (pred (length nodes)) by lia.
      by destruct (nodes !! pred (length nodes)); simplify_eq. }
    unfold decode. cbn [nodes_ binary_data_]. rewrite Hrt. cbn [bind].
    erewrite decode_loop_app.
    2:{ eapply decode_loop_all_bits; [exact Hrt|exact Hr|exact Hvrt|exact Hleaf|].
        intros b Hb. by apply Hcodes, HY. }
    destruct (decode_loop_partial nodes t _ rt c p q ([] ++ Y) Hr Hvrt Hleaf)
      as [nd' ->]; [|done|done].
    rewrite <- Hpq. by apply Hcodes.
Qed.

(** ** The indices that [decode] reads *)

Lemma decode_reads_ok nodes bits : ∀ nd str st,
  decode_loop nodes bits nd str = Ok st →
  Forall (λ i, i ≠ -1 ∧ 0 ≤ i < Z.of_nat (length nodes))
         (decode_reads nodes bits nd) ∧
  length (decode_reads nodes bits nd) = length bits.
Proof.
  induction bits as [|b bits IH]; intros nd str st Hd; [done|].
  cbn [decode_loop decode_reads] in *.
  destruct (vec_at nodes (if b then right nd else left nd)) as [n|] eqn:Hn;
    [|done].
  apply vec_at_Ok in Hn as [Hi Hn]. apply lookup_lt_Some in Hn.
  cbn [bind] in Hd. destruct (isLeaf n).
  - destruct (root nodes) as [rt|]; [|done]. cbn [bind] in Hd.
    destruct (IH _ _ _ Hd) as [Hall Hlen]. split; [|simpl; by rewrite Hlen].
    constructor; [lia|done].
  - destruct (IH _ _ _ Hd) as [Hall Hlen]. split; [|simpl; by rewrite Hlen].
    constructor; [lia|done].
Qed.

Section totality.
Context `{HeapAlgorithms}.

(** C8, totality: [encode] returns an artifact for every byte sequence,
    the empty one included: no vector is indexed out of its bounds, the
    assertion of [init_dict] holds and every recursion and loop ends.  On
    that artifact [decode] returns too: its walk reads one arena index per
    bit, none of them is the sentinel -1 and all of them are within the
    bounds of the arena. *)
Theorem C8_total input_data :
  bits_fit input_data →
  ∃ e rt s,
    encode input_data = Ok e ∧
    root (nodes_ e) = Ok rt ∧
    decode e = Ok s ∧
    Forall (λ i, i ≠ -1 ∧ 0 ≤ i < Z.of_nat (length (nodes_ e)))
           (decode_reads (nodes_ e) (binary_data_ e) rt) ∧
    length (decode_reads (nodes_ e) (binary_data_ e) rt) =
      length (binary_data_ e).
Proof.
  intros Hfit.
  destruct (encode_decode_spec input_data Hfit)
    as (e & _ & He & _ & _ & _ & _ & Hd).
  unfold decode in Hd. destruct (root (nodes_ e)) as [rt|] eqn:Hrt; [|done].
  cbn [bind] in Hd.
  destruct (decode_loop (nodes_ e) (binary_data_ e) rt []) as [st|] eqn:Hl;
    [|done].
  destruct (decode_reads_ok _ _ _ _ _ Hl) as [Hall Hlen].
  exists e, rt, input_data. split_and!; [done|done| |done|done].
  unfold decode. rewrite Hrt. cbn [bind]. by rewrite Hl.
Qed.

(** C9, the adapters: applied to the same bytes, the four entry points of
    [encode] (span of [uint8_t], pointer and size, span of [std::byte],
    [string_view]) return the same result, hence the same arena and the
    same bit sequence. *)
Theorem C9_adapters input_data :
  span_ok input_data →
  encode_ptr input_data (vec_size input_data) = encode input_data ∧
  encode_bytes input_data = encode input_data ∧
  encode_string_view input_data = encode input_data.
Proof.
  intros Hok.
  assert (encode_ptr input_data (vec_size input_data) = encode input_data)
    as Hptr.
  { unfold encode_ptr. rewrite vec_size_small by done.
    by rewrite Nat2Z.id, firstn_all. }
  done.
Qed.

(** C10, the non-empty arena: every artifact returned by [encode] has at
    least one node, so its root, the last element, exists.  The
    default-constructed artifact has an empty arena: [root] reads the last
    element of an empty vector and [decode] does so at its first step. *)
Theorem C10_arena_nonempty :
  (∀ input_data,
     bits_fit input_data →
     ∃ e rt, encode input_data = Ok e ∧ nodes_ e ≠ [] ∧
             (1 ≤ length (nodes_ e))%nat ∧ root (nodes_ e) = Ok rt) ∧
  nodes_ Encoded_default = [] ∧
  root (nodes_ Encoded_default) = Err OutOfBounds ∧
  decode Encoded_default = Err OutOfBounds.
Proof.
  split; [|done]. intros input_data Hfit.
  destruct (encode_decode_spec input_data Hfit)
    as (e & _ & He & _ & _ & _ & _ & Hd).
  unfold decode in Hd. destruct (root (nodes_ e)) as [rt|] eqn:Hrt; [|done].
  exists e, rt. destruct (nodes_ e) as [|n nodes]; [done|].
  split_and!; [done|done|simpl; lia|done].
Qed.

End totality.

(** ** Further properties: counting and the leaves *)

Lemma count_fold_mod bytes : ∀ counts,
  length counts = 256%nat → Forall (λ c, 0 ≤ c < 2 ^ 64) counts →
  length (foldl count_step counts bytes) = 256%nat ∧
  ∀ b, foldl count_step counts bytes !! Byte.to_nat b =
       (λ c, to_size_t (c + Z.of_nat (occurrences b bytes)))
         <$> counts !! Byte.to_nat b.
Proof.
  induction bytes as [|ch bytes IH]; intros counts Hlen Hr.
  - split; [done|]. intros b. simpl. unfold occurrences. simpl.
    destruct (counts !! Byte.to_nat b) as [c|] eqn:Hc; [|done]. simpl.
    rewrite Forall_forall in Hr.
    rewrite Z.add_0_r, to_size_t_small; [done|].
    apply Hr. by eapply list_elem_of_lookup_2.
  - simpl.
    destruct (IH (count_step counts ch)) as [Hl Hb].
    { unfold count_step. by rewrite length_alter. }
    { unfold count_step. apply Forall_alter; [done|].
      intros. apply to_size_t_range. }
    split; [done|]. intros b. rewrite Hb. unfold count_step, occurrences.
    rewrite filter_cons.
    destruct (decide (ch = b)) as [->|Hne].
    + rewrite list_lookup_alter, decide_True by done.
      destruct (counts !! Byte.to_nat b) as [c|]; [|done]. simpl.
      rewrite to_size_t_add_l. do 2 f_equal. lia.
    + rewrite list_lookup_alter_ne.
      * by destruct (counts !! Byte.to_nat b).
      * intros Heq. apply Hne.
        rewrite <- (to_uint8_to_nat ch), <- (to_uint8_to_nat b). by rewrite Heq.
Qed.

(** X1, counting the bytes: [count_bytes] returns 256 counters, and the
    counter at the index of every byte value [b] is the number of
    occurrences of [b] in the input, reduced modulo 2^64 as the [size_t]
    increments wrap around.  No bound on the input is needed. *)
Theorem X1_count_bytes_occurrences bytes :
  length (count_bytes bytes) = 256%nat ∧
  ∀ b, vec_at (count_bytes bytes) (Z.of_nat (Byte.to_nat b)) =
       Ok (to_size_t (Z.of_nat (occurrences b bytes))).
Proof.
  destruct (count_fold_mod bytes (replicate 256 0)) as [Hl Hb].
  { by rewrite length_replicate. }
  { apply Forall_replicate. lia. }
  split; [exact Hl|]. intros b. apply vec_at_lookup.
  unfold count_bytes. fold count_step. change (UCHAR_MAX + 1)%nat with 256%nat.
  rewrite Hb, lookup_replicate_2; [done|].
  pose proof (Byte.to_nat_bounded b). lia.
Qed.

Lemma occurrences_perm b l1 l2 : l1 ≡ₚ l2 → occurrences b l1 = occurrences b l2.
Proof. intros Hp. unfold occurrences. by rewrite Hp. Qed.

Lemma count_bytes_lookup bytes b :
  count_bytes bytes !! Byte.to_nat b =
  Some (to_size_t (Z.of_nat (occurrences b bytes))).
Proof.
  destruct (count_fold_mod bytes (replicate 256 0)) as [Hl Hb].
  { by rewrite length_replicate. }
  { apply Forall_replicate. lia. }
  unfold count_bytes. fold count_step. change (UCHAR_MAX + 1)%nat with 256%nat.
  rewrite Hb, lookup_replicate_2; [done|].
  pose proof (Byte.to_nat_bounded b). lia.
Qed.

Lemma count_bytes_length bytes : length (count_bytes bytes) = 256%nat.
Proof.
  destruct (count_fold_mod bytes (replicate 256 0)) as [Hl Hb]; [..|done].
  { by rewrite length_replicate. }
  { apply Forall_replicate. lia. }
Qed.

Lemma count_bytes_perm l1 l2 : l1 ≡ₚ l2 → count_bytes l1 = count_bytes l2.
Proof.
  intros Hp. apply list_eq. intros i.
  destruct (decide (i < 256)%nat) as [Hi|Hi].
  - assert (i = Byte.to_nat (to_uint8 (Z.of_nat i))) as ->.
    { apply Nat2Z.inj. rewrite to_nat_to_uint8; lia. }
    rewrite !count_bytes_lookup. by rewrite (occurrences_perm _ _ _ Hp).
  - rewrite !lookup_ge_None_2; [done|rewrite count_bytes_length; lia..].
Qed.

(** X2, counting ignores the order: two inputs that are permutations of
    one another get the same table of counters from [count_bytes]. *)
Theorem X2_count_bytes_permutation l1 l2 :
  l1 ≡ₚ l2 → count_bytes l1 = count_bytes l2.
Proof. apply count_bytes_perm. Qed.

Lemma make_leaf_nodes_from_sorted counts : ∀ i,
  0 ≤ i → i + Z.of_nat (length counts) ≤ 256 →
  Forall (λ v, i ≤ Z.of_nat (Byte.to_nat v))
         (leaf_values (make_leaf_nodes_from i counts)) ∧
  StronglySorted byte_lt (leaf_values (make_leaf_nodes_from i counts)) ∧
  length (make_leaf_nodes_from i counts) =
    length (filter (λ c, c ≠ 0) counts).
Proof.
  induction counts as [|c counts IH]; intros i Hi Hlen; simpl in *.
  { split_and!; [constructor|constructor|done]. }
  rewrite to_size_t_small by lia.
  destruct (IH (i + 1)) as (Hge & Hs & Hl); [lia|lia|].
  assert (Forall (λ v, i ≤ Z.of_nat (Byte.to_nat v))
            (leaf_values (make_leaf_nodes_from (i + 1) counts))) as Hge'.
  { eapply Forall_impl; [exact Hge|]. intros; simpl in *; lia. }
  rewrite filter_cons.
  destruct (Z.eqb_spec c 0) as [->|Hc].
  - rewrite decide_False by (intros Hn; by apply Hn). done.
  - rewrite decide_True by done. unfold leaf_values in *. simpl.
    split_and!.
    + constructor; [|done]. rewrite to_nat_to_uint8; lia.
    + constructor; [done|]. eapply Forall_impl; [exact Hge|].
      intros v Hv. unfold byte_lt. simpl in Hv.
      apply Nat2Z.inj_lt. rewrite to_nat_to_uint8; lia.
    + by rewrite Hl.
Qed.

(** X3, the leaves of a table of counters: for a table of at most 256
    counters, [make_leaf_nodes] returns one leaf for every non-zero counter
    and nothing else.  Every returned node is a leaf whose count is the
    counter stored at its byte value and is not zero; every non-zero counter
    has its leaf; the leaves come in strictly ascending order of their byte
    values; and there are as many of them as non-zero counters. *)
Theorem X3_make_leaf_nodes counts :
  (length counts ≤ 256)%nat →
  Forall (λ n, isLeaf (node n) = true ∧ count n ≠ 0 ∧
               vec_at counts (Z.of_nat (Byte.to_nat (value (node n))))
                 = Ok (count n))
         (make_leaf_nodes counts) ∧
  (∀ b c, vec_at counts (Z.of_nat (Byte.to_nat b)) = Ok c → c ≠ 0 →
     mkNodeWithCount (mkNode (-1) (-1) b) c ∈ make_leaf_nodes counts) ∧
  StronglySorted byte_lt (leaf_values (make_leaf_nodes counts)) ∧
  length (make_leaf_nodes counts) = length (filter (λ c, c ≠ 0) counts).
Proof.
  intros Hlen. unfold make_leaf_nodes.
  destruct (make_leaf_nodes_from_spec counts 0) as (Hall & Hin & _);
    [lia|lia|].
  destruct (make_leaf_nodes_from_sorted counts 0) as (_ & Hs & Hl);
    [lia|lia|].
  split_and!; [|..|done|done].
  - eapply Forall_impl; [exact Hall|]. intros n (j & c & Hj & Hc & ->).
    pose proof (lookup_lt_Some _ _ _ Hj). simpl. split_and!; [done|done|].
    rewrite Z.add_0_l, to_nat_to_uint8 by lia. by apply vec_at_lookup.
  - intros b c [_ Hb]%vec_at_Ok Hc. rewrite Nat2Z.id in Hb.
    specialize (Hin _ _ Hb Hc). by rewrite Z.add_0_l, to_uint8_to_nat in Hin.
Qed.

(** X4, the leaves of an input: the leaves that [init_tree] starts from
    (line 97) are the distinct bytes of the input in strictly ascending
    order, each with its exact number of occurrences; every byte of the
    input has its leaf, and the counts of the leaves add up to the length of
    the input. *)
Theorem X4_leaves_of_input input_data :
  span_ok input_data →
  Forall (λ n, n = mkNodeWithCount (mkNode (-1) (-1) (value (node n)))
                     (Z.of_nat (occurrences (value (node n)) input_data)) ∧
               value (node n) ∈ input_data)
         (make_leaf_nodes (count_bytes input_data)) ∧
  (∀ v, v ∈ input_data →
     mkNodeWithCount (mkNode (-1) (-1) v)
                     (Z.of_nat (occurrences v input_data))
       ∈ make_leaf_nodes (count_bytes input_data)) ∧
  StronglySorted byte_lt
    (leaf_values (make_leaf_nodes (count_bytes input_data))) ∧
  length (make_leaf_nodes (count_bytes input_data)) =
    distinct_bytes input_data ∧
  sumZ (count <$> make_leaf_nodes (count_bytes input_data)) =
    Z.of_nat (length input_data).
Proof.
  intros Hok.
  destruct (make_leaf_nodes_spec input_data Hok) as (Hall & _ & Hin & Hsum & _).
  destruct (make_leaf_nodes_from_sorted (count_bytes input_data) 0)
    as (_ & Hs & _); [lia|rewrite count_bytes_length; lia|].
  split_and!; [| |exact Hs|by apply leaf_count_distinct|exact Hsum].
  - eapply Forall_impl; [exact Hall|]. by intros n (v & -> & Hv).
  - intros v Hv. apply Hin in Hv.
    apply list_elem_of_fmap in Hv as (n & -> & Hn).
    rewrite Forall_forall in Hall. destruct (Hall n Hn) as (w & Heq & _).
    rewrite Heq in Hn |- *. exact Hn.
Qed.

Section permutation.
Context `{HeapAlgorithms}.

Lemma init_queue_perm l1 l2 : l1 ≡ₚ l2 → init_queue l1 = init_queue l2.
Proof. intros Hp. unfold init_queue. by rewrite (count_bytes_perm _ _ Hp). Qed.

Lemma init_tree_perm l1 l2 :
  span_ok l1 → l1 ≡ₚ l2 → init_tree l1 = init_tree l2.
Proof.
  intros Hok Hp.
  destruct (init_queue_size l1 Hok) as (q & Hq & Hs & _).
  unfold init_tree. rewrite <- (init_queue_perm _ _ Hp), Hq.
  cbn [bind fst snd]. rewrite Hs.
  destruct (distinct_bytes l1) as [|[|k]] eqn:Hk; [done| |].
  - destruct (distinct_bytes_1 l1 Hk) as (V & rest & -> & Hall).
    destruct l2 as [|b l2].
    { apply Permutation_nil_r in Hp. done. }
    rewrite (Hall b); [done|]. rewrite Hp. apply list_elem_of_here.
  - by rewrite !match_size_ge_2 by lia.
Qed.

(** X5, the arena depends on the multiset of bytes only: permuting the
    input does not change the arena that [init_tree] builds. *)
Theorem X5_init_tree_permutation l1 l2 :
  span_ok l1 → l1 ≡ₚ l2 → init_tree l1 = init_tree l2.
Proof. apply init_tree_perm. Qed.
End permutation.

Section arena_shape.
Context `{HeapAlgorithms}.

Lemma reach_shape input_data queue0 s :
  span_ok input_data →
  init_queue input_data =
    Ok (make_leaf_nodes (count_bytes input_data), queue0) →
  rtc loop_step (make_leaf_nodes (count_bytes input_data), queue0) s →
  ∃ merged,
    s.1 = make_leaf_nodes (count_bytes input_data) ++ merged ∧
    ∀ (j : nat) n, merged !! j = Some n →
      merged_ok s.1 (length (make_leaf_nodes (count_bytes input_data)) + j) n.
Proof.
  intros Hok Hq0. set (ls := make_leaf_nodes (count_bytes input_data)) in *.
  pose proof (distinct_bytes_le_256 input_data Hok) as H256.
  pose proof (leaf_count_distinct input_data Hok) as HL. fold ls in HL.
  assert (length (leaf_values ls) ≤ 256)%nat as HL256.
  { unfold leaf_values. rewrite length_fmap. lia. }
  apply (rtc_ind_r (λ s, ∃ merged, s.1 = ls ++ merged ∧
           ∀ (j : nat) n, merged !! j = Some n →
             merged_ok s.1 (length ls + j) n)).
  - exists []. split; [by rewrite app_nil_r|]. intros j n Hn.
    by rewrite lookup_nil in Hn.
  - intros [nws q] s2 Hreach [Hsz Hstep] (merged & Hnws & Hshape).
    simpl in *.
    destruct (loop_state_inv input_data queue0 _ Hok Hq0 Hreach) as [F Hinv].
    simpl in Hinv. fold ls in Hinv.
    pose proof (fi_size _ _ _ _ _ Hinv) as Hlen.
    unfold pq_size in Hsz. rewrite vec_size_small in Hsz by lia.
    destruct (merge_step_spec _ _ _ _ _ HL256 Hok Hinv)
      as (A & B & rest & nA & nB & q' & F' & _ & HvA & HvB & _ & _ & Hstep'
          & _ & _); [lia|].
    rewrite Hstep' in Hstep. simplify_eq. simpl.
    eexists (merged ++ [_]). split; [by rewrite (assoc_L (++))|].
    intros j n Hn. apply lookup_app_Some in Hn as [Hn|[Hj Hn]].
    + destruct (Hshape j n Hn) as (n1 & n2 & H1 & H2 & ? & ? & ? & ?).
      exists n1, n2. split_and!; [by apply vec_at_app_l..|done|done|done|done].
    + apply list_lookup_singleton_Some in Hn as [Hj' <-]. simpl.
      pose proof HvA as [? HA%lookup_lt_Some]%vec_at_Ok.
      pose proof HvB as [? HB%lookup_lt_Some]%vec_at_Ok.
      rewrite length_app in HA, HB.
      exists nA, nB.
      split_and!; [by apply vec_at_app_l..|simpl; lia|simpl; lia|done|done].
Qed.

(** X6, the shape of the arena: for an input with k >= 2 distinct bytes
    the arena built by [init_tree] is the k leaves followed by k - 1
    internal nodes.  Every node of the first part is a leaf; every node of
    the second part is not a leaf, has the value 0, and both of its
    children are indices of nodes stored before it, never the sentinel. *)
Theorem X6_arena_shape input_data :
  span_ok input_data → (2 ≤ distinct_bytes input_data)%nat →
  ∃ internal,
    init_tree input_data =
      Ok ((node <$> make_leaf_nodes (count_bytes input_data)) ++ internal) ∧
    length internal = (distinct_bytes input_data - 1)%nat ∧
    Forall (λ n, isLeaf n = true)
           (node <$> make_leaf_nodes (count_bytes input_data)) ∧
    ∀ (j : nat) n, internal !! j = Some n →
      isLeaf n = false ∧ value n = x00 ∧
      0 ≤ left n < Z.of_nat (distinct_bytes input_data + j) ∧
      0 ≤ right n < Z.of_nat (distinct_bytes input_data + j).
Proof.
  intros Hok Hk.
  destruct (init_tree_ge_2 input_data Hok Hk)
    as (q0 & nws & t & Hq0 & Hrtc & Htree & _ & _ & Hlen & _ & _).
  destruct (reach_shape input_data q0 _ Hok Hq0 Hrtc)
    as (merged & Hnws & Hshape). simpl in *.
  pose proof (leaf_count_distinct input_data Hok) as Hls.
  exists (node <$> merged). split_and!.
  - by rewrite Htree, Hnws, fmap_app.
  - rewrite length_fmap. rewrite Hnws, length_app in Hlen. lia.
  - destruct (make_leaf_nodes_spec input_data Hok) as (Hall & _).
    apply Forall_fmap. eapply Forall_impl; [exact Hall|].
    by intros n (v & -> & _).
  - intros j n Hn. rewrite list_lookup_fmap in Hn.
    destruct (merged !! j) as [nc|] eqn:Hnc; simplify_eq/=.
    destruct (Hshape j nc Hnc) as (n1 & n2 & [H1 _]%vec_at_Ok
                                   & [H2 _]%vec_at_Ok & ? & ? & ? & _).
    rewrite Hls in *. split_and!; [|done|lia..].
    unfold isLeaf. destruct (Z.eqb_spec (left (node nc)) (-1)); [lia|done].
Qed.

(** X7, what the [while] loop conserves: in every state that the loop of
    [init_tree] reaches, the counts of the nodes held by the queue add up to
    the length of the input, the arena and the queue together hold 2k
    entries, every index in the queue is within the arena, no count is
    negative, and the count of every node that is not a leaf is the sum of
    the counts of its two children.  For k >= 2 the loop ends with the root
    alone in the queue, and the count of the root is the length of the
    input. *)
Theorem X7_loop_conservation input_data :
  span_ok input_data →
  ∃ queue0,
    init_queue input_data =
      Ok (make_leaf_nodes (count_bytes input_data), queue0) ∧
    (∀ nws queue,
       rtc loop_step (make_leaf_nodes (count_bytes input_data), queue0)
           (nws, queue) →
       sumZ (count_at nws <$> queue) = Z.of_nat (length input_data) ∧
       (length nws + length queue = 2 * distinct_bytes input_data)%nat ∧
       (∀ x, x ∈ queue → 0 ≤ x < Z.of_nat (length nws)) ∧
       Forall (λ n, 0 ≤ count n) nws ∧
       (∀ n, n ∈ nws → isLeaf (node n) = false →
          count n = count_at nws (left (node n))
                    + count_at nws (right (node n)))) ∧
    ((2 ≤ distinct_bytes input_data)%nat →
     ∃ nws,
       rtc loop_step (make_leaf_nodes (count_bytes input_data), queue0)
           (nws, [Z.of_nat (length nws) - 1]) ∧
       init_tree input_data = Ok (node <$> nws) ∧
       count_at nws (Z.of_nat (length nws) - 1) =
         Z.of_nat (length input_data)).
Proof.
  intros Hok.
  destruct (init_queue_size input_data Hok) as (q0 & Hq0 & _).
  pose proof (leaf_count_distinct input_data Hok) as Hls.
  assert (∀ nws queue,
    rtc loop_step (make_leaf_nodes (count_bytes input_data), q0) (nws, queue) →
    sumZ (count_at nws <$> queue) = Z.of_nat (length input_data) ∧
    (length nws + length queue = 2 * distinct_bytes input_data)%nat ∧
    (∀ x, x ∈ queue → 0 ≤ x < Z.of_nat (length nws)) ∧
    Forall (λ n, 0 ≤ count n) nws ∧
    (∀ n, n ∈ nws → isLeaf (node n) = false →
       count n = count_at nws (left (node n))
                 + count_at nws (right (node n)))) as Hall.
  { intros nws q Hreach.
    destruct (loop_state_inv input_data q0 _ Hok Hq0 Hreach) as [F Hinv].
    destruct (reach_shape input_data q0 _ Hok Hq0 Hreach)
      as (merged & Hnws & Hshape). simpl in *.
    split_and!.
    - exact (fi_total _ _ _ _ _ Hinv).
    - rewrite (fi_size _ _ _ _ _ Hinv). unfold leaf_values.
      rewrite length_fmap, Hls. done.
    - intros x Hx. by eapply forest_inv_bound.
    - exact (fi_counts _ _ _ _ _ Hinv).
    - intros n Hn Hleaf. rewrite Hnws in Hn.
      apply elem_of_app in Hn as [Hn|Hn].
      + destruct (make_leaf_nodes_spec input_data Hok) as (Hl & _).
        rewrite Forall_forall in Hl. destruct (Hl n Hn) as (v & -> & _).
        done.
      + apply list_elem_of_lookup in Hn as [j Hj].
        destruct (Hshape j n Hj) as (n1 & n2 & H1 & H2 & _ & _ & _ & Hc).
        by rewrite (count_at_Ok _ _ _ H1), (count_at_Ok _ _ _ H2). }
  exists q0. split_and!; [done|exact Hall|].
  intros Hk.
  destruct (init_tree_ge_2 input_data Hok Hk)
    as (q0' & nws & t & Hq0' & Hrtc & Htree & _).
  rewrite Hq0 in Hq0'. simplify_eq.
  exists nws. split_and!; [done|done|].
  destruct (Hall _ _ Hrtc) as (Hsum & _).
  rewrite fmap_cons, sumZ_cons in Hsum. simpl in Hsum.
  unfold sumZ in Hsum. simpl in Hsum. lia.
Qed.
End arena_shape.

(** ** Further properties: the order of the merges *)

Section merge_order.
Context `{HeapAlgorithms}.

Lemma reach_sorted input_data queue0 s :
  span_ok input_data →
  init_queue input_data =
    Ok (make_leaf_nodes (count_bytes input_data), queue0) →
  rtc loop_step (make_leaf_nodes (count_bytes input_data), queue0) s →
  ∃ merged bound,
    s.1 = make_leaf_nodes (count_bytes input_data) ++ merged ∧
    0 ≤ bound ∧
    (∀ x, x ∈ s.2 → bound ≤ count_at s.1 x) ∧
    (∀ m, m ∈ merged → count m ≤ 2 * bound) ∧
    StronglySorted Z.le (count <$> merged).
Proof.
  intros Hok Hq0. set (ls := make_leaf_nodes (count_bytes input_data)) in *.
  pose proof (distinct_bytes_le_256 input_data Hok) as H256.
  pose proof (leaf_count_distinct input_data Hok) as HL. fold ls in HL.
  assert (length (leaf_values ls) ≤ 256)%nat as HL256.
  { unfold leaf_values. rewrite length_fmap. lia. }
  apply (rtc_ind_r (λ s, ∃ merged bound, s.1 = ls ++ merged ∧ 0 ≤ bound ∧
           (∀ x, x ∈ s.2 → bound ≤ count_at s.1 x) ∧
           (∀ m, m ∈ merged → count m ≤ 2 * bound) ∧
           StronglySorted Z.le (count <$> merged))).
  - exists [], 0. split_and!; [by rewrite app_nil_r|done| | |constructor].
    + intros x _.
      destruct (init_queue_size input_data Hok) as (q & Hq & _ & _ & Hinv).
      apply count_at_nonneg. exact (fi_counts _ _ _ _ _ Hinv).
    + by intros m ?%elem_of_nil.
  - intros [nws q] s2 Hreach [Hsz Hstep] (merged & bound & Hnws & Hb0 & Hq
                                          & Hm & Hsorted).
    simpl in *.
    destruct (loop_state_inv input_data queue0 _ Hok Hq0 Hreach) as [F Hinv].
    simpl in Hinv. fold ls in Hinv.
    pose proof (fi_size _ _ _ _ _ Hinv) as Hlen.
    unfold pq_size in Hsz. rewrite vec_size_small in Hsz by lia.
    destruct (merge_step_spec _ _ _ _ _ HL256 Hok Hinv)
      as (A & B & rest & nA & nB & q' & F' & Hperm & HvA & HvB & HminA & HminB
          & Hstep' & Hperm' & _); [lia|].
    rewrite Hstep' in Hstep. injection Hstep as <-. simpl.
    assert (A ∈ q) as HA by (rewrite Hperm; apply list_elem_of_here).
    assert (B ∈ q) as HB
      by (rewrite Hperm; apply list_elem_of_further, list_elem_of_here).
    pose proof (Hq A HA) as HbA. pose proof (Hq B HB) as HbB.
    pose proof (HminA B HB) as HAB.
    rewrite (count_at_Ok _ _ _ HvA) in HbA.
    rewrite (count_at_Ok _ _ _ HvB) in HbB, HAB.
    eexists (merged ++ [_]), (count nB).
    split_and!; [by rewrite Hnws, (assoc_L (++))|lia| | |].
    + intros x Hx. rewrite Hperm' in Hx.
      apply elem_of_cons in Hx as [->|Hx].
      * rewrite count_at_length. simpl. lia.
      * assert (x ∈ q) as Hxq
          by (rewrite Hperm; by do 2 apply list_elem_of_further).
        rewrite count_at_app_l by (by eapply forest_inv_bound).
        apply HminB. by apply list_elem_of_further.
    + intros m [Hin|Hin]%elem_of_app.
      * specialize (Hm m Hin). lia.
      * apply list_elem_of_singleton in Hin as ->. simpl. lia.
    + rewrite fmap_app. apply StronglySorted_app_2; [|done|repeat constructor].
      intros c1 c2 (m & -> & Hin)%list_elem_of_fmap Hc2. simpl in Hc2.
      apply list_elem_of_singleton in Hc2 as ->. specialize (Hm m Hin). lia.
Qed.

(** X20, the order of the merges: in every state that the [while] loop of
    [init_tree] reaches, the arena is the leaves followed by the nodes
    merged so far, the counts of the merged nodes are in ascending order
    (each merge weighs at least as much as the one before), and no node
    still in the queue weighs less than half of any merged node. *)
Theorem X20_merge_order input_data :
  span_ok input_data →
  ∃ queue0,
    init_queue input_data =
      Ok (make_leaf_nodes (count_bytes input_data), queue0) ∧
    ∀ nws queue,
      rtc loop_step (make_leaf_nodes (count_bytes input_data), queue0)
          (nws, queue) →
      ∃ merged,
        nws = make_leaf_nodes (count_bytes input_data) ++ merged ∧
        StronglySorted Z.le (count <$> merged) ∧
        ∀ m x, m ∈ merged → x ∈ queue → count m ≤ 2 * count_at nws x.
Proof.
  intros Hok.
  destruct (init_queue_size input_data Hok) as (q0 & Hq0 & _).
  exists q0. split; [done|]. intros nws q Hreach.
  destruct (reach_sorted input_data q0 _ Hok Hq0 Hreach)
    as (merged & bound & Hnws & _ & Hq & Hm & Hsorted). simpl in *.
  exists merged. split_and!; [done..|].
  intros m x Hin Hx. specialize (Hm m Hin). specialize (Hq x Hx). lia.
Qed.
End merge_order.

(** ** Further properties: the dictionary of paths *)

(** X9, the frame of the recursive [init_dict]: on any arena and from any
    index, a call that returns leaves [key] as it found it (the pushes and
    pops balance), and changes the entry of the dictionary for a byte [b]
    only if [b] is the value of some leaf of the arena; an entry it has
    written extends the [key] it was called with. *)
Theorem X9_init_dict_frame nodes fuel : ∀ root dict key dict' key',
  init_dict_rec fuel nodes root dict key = Ok (dict', key') →
  key' = key ∧
  ∀ b, dict' b = dict b ∨
       (key `prefix_of` dict' b ∧
        ∃ n, n ∈ nodes ∧ isLeaf n = true ∧ value n = b).
Proof.
  induction fuel as [|fuel IH]; intros root dict key dict' key' Hrec;
    cbn [init_dict_rec] in Hrec.
  { destruct (root <? 0); [|done]. simplify_eq. split; [done|]. by left. }
  destruct (root <? 0); [simplify_eq; split; [done|by left]|].
  destruct (negb (root <? vec_size nodes)); [done|].
  destruct (vec_at nodes root) as [elm|] eqn:Helm; [|done]. cbn [bind] in Hrec.
  destruct (isLeaf elm) eqn:Hleaf.
  { simplify_eq. split; [done|]. intros b.
    destruct (decide (value elm = b)) as [<-|Hne].
    - right. rewrite fn_lookup_insert. split; [done|]. exists elm.
      split_and!; [|done..]. apply vec_at_Ok in Helm as [_ Helm].
      by eapply list_elem_of_lookup_2.
    - left. by rewrite fn_lookup_insert_ne. }
  destruct (init_dict_rec fuel nodes (left elm) dict (key ++ [x00]))
    as [[d1 k1]|] eqn:H1; [|done].
  cbn [bind fst snd] in Hrec. apply IH in H1 as [-> Hd1].
  assert (set_back (key ++ [x00]) x01 = Ok (key ++ [x01])) as Hsb.
  { unfold set_back. rewrite removelast_last. by destruct key. }
  rewrite Hsb in Hrec. cbn [bind] in Hrec.
  destruct (init_dict_rec fuel nodes (right elm) d1 (key ++ [x01]))
    as [[d2 k2]|] eqn:H2; [|done].
  cbn [bind fst snd] in Hrec. apply IH in H2 as [-> Hd2].
  assert (pop_back (key ++ [x01]) = Ok key) as Hpb.
  { unfold pop_back. rewrite removelast_last. by destruct key. }
  rewrite Hpb in Hrec. cbn [bind] in Hrec. injection Hrec as <- <-.
  split; [done|]. intros b.
  destruct (Hd2 b) as [Heq|[Hpre Hn]].
  - rewrite Heq. destruct (Hd1 b) as [?|[Hpre Hn]]; [by left|right].
    split; [|done]. etrans; [|exact Hpre]. by apply prefix_app_r.
  - right. split; [|done]. etrans; [|exact Hpre]. by apply prefix_app_r.
Qed.

Lemma repr_functional nodes t1 : ∀ t2 i,
  repr nodes i t1 → repr nodes i t2 → t1 = t2.
Proof.
  induction t1 as [v1|l1 IHl r1 IHr]; intros [v2|l2 r2] i H1 H2; simpl in *.
  - rewrite H1 in H2. by simplify_eq.
  - destruct H2 as (il & ir & H2 & ? & _). rewrite H1 in H2.
    simplify_eq. lia.
  - destruct H1 as (il & ir & H1 & ? & _). rewrite H1 in H2.
    simplify_eq. lia.
  - destruct H1 as (il & ir & H1 & _ & _ & Hl1 & Hr1).
    destruct H2 as (il' & ir' & H2 & _ & _ & Hl2 & Hr2).
    rewrite H1 in H2. simplify_eq. f_equal; [by eapply IHl|by eapply IHr].
Qed.

Lemma leaves_nonempty t : ∃ v, v ∈ leaves t.
Proof.
  induction t as [v|l [v Hv] r _]; simpl.
  - exists v. apply list_elem_of_here.
  - exists v. apply elem_of_app. by left.
Qed.

Lemma init_dict_reads_repr nodes :
  Z.of_nat (length nodes) < 2 ^ 64 →
  ∀ t fuel i,
    repr nodes i t → (height t < fuel)%nat →
    length (init_dict_reads fuel nodes i) = (2 * length (leaves t) - 1)%nat ∧
    (∀ j, j ∈ init_dict_reads fuel nodes i →
       0 ≤ j ≤ i ∧ ∃ t', repr nodes j t' ∧ leaves t' ⊆ leaves t) ∧
    (NoDup (leaves t) → NoDup (init_dict_reads fuel nodes i)).
Proof.
  intros Hsz. induction t as [v|l IHl r IHr]; intros fuel i Hrepr Hfuel.
  - destruct fuel as [|fuel]; [simpl in Hfuel; lia|].
    pose proof (repr_bound _ _ _ Hrepr) as Hi. simpl in Hrepr.
    cbn [init_dict_reads]. rewrite vec_size_small by done.
    destruct (Z.ltb_spec i 0); [lia|].
    destruct (Z.ltb_spec i (Z.of_nat (length nodes))); [|lia].
    cbn [negb]. rewrite Hrepr. change (isLeaf _) with true. cbv iota.
    split_and!; [done| |intros _; apply NoDup_singleton].
    intros j ->%list_elem_of_singleton. split; [lia|]. by exists (Leaf v).
  - destruct fuel as [|fuel]; [simpl in Hfuel; lia|].
    pose proof (repr_bound _ _ _ Hrepr) as Hi.
    pose proof Hrepr as (il & ir & Hat & Hil & Hir & Hl & Hr).
    cbn [init_dict_reads]. rewrite vec_size_small by done.
    destruct (Z.ltb_spec i 0); [lia|].
    destruct (Z.ltb_spec i (Z.of_nat (length nodes))); [|lia].
    cbn [negb]. rewrite Hat.
    assert (isLeaf (mkNode il ir x00) = false) as ->.
    { unfold isLeaf. simpl. destruct (Z.eqb_spec il (-1)); [lia|done]. }
    cbn [left right]. simpl in Hfuel.
    destruct (IHl fuel il Hl) as (Hlen1 & Hin1 & Hnd1); [lia|].
    destruct (IHr fuel ir Hr) as (Hlen2 & Hin2 & Hnd2); [lia|].
    pose proof (height_lt_leaves l). pose proof (height_lt_leaves r).
    split_and!.
    + cbn [length leaves]. rewrite !length_app. lia.
    + intros j [->|[Hj|Hj]%elem_of_app]%elem_of_cons.
      * split; [lia|]. by exists (Fork l r).
      * destruct (Hin1 j Hj) as (? & t' & ? & Hsub). split; [lia|].
        exists t'. split; [done|]. intros v Hv%Hsub. simpl.
        apply elem_of_app. by left.
      * destruct (Hin2 j Hj) as (? & t' & ? & Hsub). split; [lia|].
        exists t'. split; [done|]. intros v Hv%Hsub. simpl.
        apply elem_of_app. by right.
    + cbn [leaves]. intros (Hndl & Hdisj & Hndr)%NoDup_app.
      apply NoDup_cons. split.
      * intros [Hj|Hj]%elem_of_app;
          [apply Hin1 in Hj as [? _]|apply Hin2 in Hj as [? _]]; lia.
      * apply NoDup_app. split_and!; [by apply Hnd1| |by apply Hnd2].
        intros j Hj1 Hj2.
        destruct (Hin1 j Hj1) as (_ & t1 & Hr1 & Hs1).
        destruct (Hin2 j Hj2) as (_ & t2 & Hr2 & Hs2).
        pose proof (repr_functional _ _ _ _ Hr1 Hr2) as ->.
        destruct (leaves_nonempty t2) as [v Hv].
        by apply (Hdisj v); [apply Hs1|apply Hs2].
Qed.

Section dictionary.
Context `{HeapAlgorithms}.

(** X8, [init_dict] reads every node once: on the arena built by
    [init_tree], the indices at which the recursive [init_dict] evaluates
    [nodes[root]], started from [root_index()], are a permutation of all the
    indices of the arena.  No node of the arena is unreachable from the
    root and none is visited twice. *)
Theorem X8_init_dict_reads input_data :
  span_ok input_data →
  ∃ nodes,
    init_tree input_data = Ok nodes ∧
    init_dict_reads (length nodes) nodes (root_index nodes) ≡ₚ
      Z.of_nat <$> seq 0 (length nodes).
Proof.
  intros Hok.
  destruct (decide (distinct_bytes input_data = 0%nat)) as [H0|H0];
    [|destruct (decide (distinct_bytes input_data = 1%nat)) as [H1|H1]].
  - eexists. split; [by apply init_tree_0|]. done.
  - destruct (init_tree_1 input_data Hok H1) as (V & _ & _ & Ht).
    eexists. split; [exact Ht|]. apply Permutation_swap.
  - pose proof (distinct_bytes_le_256 input_data Hok) as H256.
    destruct (code_table_ge_2 input_data Hok)
      as (nodes & t & dict & rt & Ht & Hlen & _ & Hrepr & Hleaves & _);
      [lia|].
    exists nodes. split; [done|].
    rewrite root_index_small by lia.
    assert (length (leaves t) = distinct_bytes input_data) as Hk.
    { by rewrite Hleaves. }
    destruct (init_dict_reads_repr nodes ltac:(lia) t (length nodes) _ Hrepr)
      as (Hl & Hin & Hnd).
    { pose proof (height_lt_leaves t). lia. }
    apply submseteq_length_Permutation; [|rewrite length_fmap, length_seq; lia].
    apply NoDup_submseteq.
    { apply Hnd. rewrite Hleaves. apply NoDup_remove_dups. }
    intros j Hj. destruct (Hin j Hj) as [Hj' _].
    apply list_elem_of_fmap. exists (Z.to_nat j). split; [lia|].
    apply elem_of_seq. lia.
Qed.

Lemma code_table_all input_data :
  span_ok input_data →
  ∃ nodes dict,
    init_tree input_data = Ok nodes ∧
    init_dict nodes (root_index nodes) dict_empty = Ok dict ∧
    (∀ b, b ∈ input_data →
       (1 ≤ length (dict b) ≤ 1 `max` (distinct_bytes input_data - 1))%nat) ∧
    (∀ b, b ∉ input_data → dict b = []).
Proof.
  intros Hok.
  destruct (decide (distinct_bytes input_data = 0%nat)) as [H0|H0];
    [|destruct (decide (distinct_bytes input_data = 1%nat)) as [H1|H1]].
  - destruct (encode_0 input_data Hok H0) as [-> _].
    exists [mkNode (-1) (-1) x00], (<[x00 := []]> dict_empty).
    split_and!; [by apply init_tree_0|reflexivity| |].
    + by intros b ?%elem_of_nil.
    + intros b _. destruct (decide (x00 = b)) as [<-|Hne].
      * by rewrite fn_lookup_insert.
      * by rewrite fn_lookup_insert_ne.
  - destruct (encode_1 input_data Hok H1) as (V & HX & Hn & Ht & Hd & _).
    eexists _, _. split_and!; [done| | |].
    { rewrite root_index_small by (simpl; lia). exact Hd. }
    + intros b Hb. rewrite HX in Hb. apply elem_of_replicate in Hb as [-> _].
      rewrite fn_lookup_insert. simpl. lia.
    + intros b Hb. rewrite fn_lookup_insert_ne; [done|]. intros <-.
      apply Hb. rewrite HX. apply elem_of_replicate. split; [done|lia].
  - destruct (code_table_ge_2 input_data Hok)
      as (nodes & t & dict & rt & Ht & Hlen & _ & Hrepr & Hleaves & Hroot
          & Hnl & Hd & Hcodes & Hother); [lia|].
    exists nodes, dict. split_and!; [done..| |done].
    intros b Hb. specialize (Hcodes b Hb).
    pose proof (codes_length _ _ _ Hcodes) as Hh.
    pose proof (height_lt_leaves t) as Hlt.
    assert (length (leaves t) = distinct_bytes input_data) as Hk
      by (by rewrite Hleaves).
    split; [|lia].
    destruct t as [v|l r].
    { simpl in Hk. lia. }
    apply codes_nonempty_Fork in Hcodes. destruct (dict b); [done|simpl; lia].
Qed.

(** X10, absent bytes and the lengths of the paths: in the dictionary
    that [init_binary_data] builds for the arena of an input, the entry of
    a byte is the empty string exactly when the byte does not occur in the
    input, and no entry is longer than max(1, k - 1) characters, for k
    distinct bytes in the input. *)
Theorem X10_code_table input_data :
  span_ok input_data →
  ∃ nodes dict,
    init_tree input_data = Ok nodes ∧
    init_dict nodes (root_index nodes) dict_empty = Ok dict ∧
    ∀ b, (dict b = [] ↔ b ∉ input_data) ∧
         (length (dict b) ≤ 1 `max` (distinct_bytes input_data - 1))%nat.
Proof.
  intros Hok.
  destruct (code_table_all input_data Hok)
    as (nodes & dict & Ht & Hd & Hin & Hout).
  exists nodes, dict. split_and!; [done..|]. intros b.
  destruct (decide (b ∈ input_data)) as [Hb|Hb].
  - specialize (Hin b Hb). split; [|lia]. split; [|done].
    intros Hnil. rewrite Hnil in Hin. simpl in Hin. lia.
  - rewrite (Hout b Hb). split; [done|simpl; lia].
Qed.

Lemma bit_total_lower dict input_data :
  (∀ b, b ∈ input_data → (1 ≤ length (dict b))%nat) →
  Z.of_nat (length input_data) ≤ bit_total dict input_data.
Proof.
  unfold bit_total. induction input_data as [|c cs IH]; intros Hall; [done|].
  rewrite fmap_cons, sumZ_cons.
  pose proof (Hall c (list_elem_of_here _ _)).
  specialize (IH (λ b Hb, Hall b (list_elem_of_further _ _ _ Hb))).
  simpl length. lia.
Qed.

(** X11, bounds on the size of the output: the bit sequence that
    [encode] produces has at least one bit and at most max(1, k - 1) bits
    for every byte of the input, for k distinct bytes in the input. *)
Theorem X11_bits_bounds input_data :
  bits_fit input_data →
  ∃ e,
    encode input_data = Ok e ∧
    Z.of_nat (length input_data) ≤ Z.of_nat (length (binary_data_ e)) ∧
    Z.of_nat (length (binary_data_ e)) ≤
      Z.of_nat (1 `max` (distinct_bytes input_data - 1)) *
      Z.of_nat (length input_data).
Proof.
  intros Hfit.
  destruct (encode_decode_spec input_data Hfit)
    as (e & dict & He & Ht & Hd & Hbits & _).
  destruct (code_table_all input_data (bits_fit_span_ok _ Hfit))
    as (nodes & dict' & Ht' & Hd' & Hin & _).
  rewrite Ht in Ht'. injection Ht' as <-. rewrite Hd in Hd'.
  injection Hd' as <-.
  exists e. split; [done|]. rewrite Hbits, all_bits_length. split.
  - apply bit_total_lower. intros b Hb. by apply Hin.
  - apply bit_total_bound. intros b Hb. by apply Hin.
Qed.
End dictionary.

(** ** Further properties: the pre-sizing sum *)

(** X23, [std::reduce] in any order: for every dictionary and every
    input, whichever grouping and order of the operands [std::reduce]
    chooses among those that GENERALIZED_SUM allows, the four overloads of
    [BinOp] give the same [size_t]: the left-to-right sum, which is the sum
    of the sizes of the strings of the input's bytes modulo 2^64. *)
Theorem X23_reduce_any_order dict input_data r :
  generalized_sum dict (OpSize 0 :: (OpByte <$> input_data)) r →
  r = OpSize (reduce dict input_data) ∧
  reduce dict input_data =
    to_size_t (sumZ ((λ ch, Z.of_nat (length (dict ch))) <$> input_data)).
Proof.
  intros Hsum. split; [by apply generalized_sum_reduce|].
  apply reduce_spec.
Qed.

(** ** Further properties: decoding *)

Lemma decode_loop_prepend nodes s bits : ∀ nd str,
  decode_loop nodes bits nd (s ++ str) =
  let* st := decode_loop nodes bits nd str in Ok (st.1, s ++ st.2).
Proof.
  induction bits as [|b bits IH]; intros nd str; [done|].
  cbn [decode_loop].
  destruct (vec_at nodes (if b then right nd else left nd)) as [n|]; [|done].
  cbn [bind]. destruct (isLeaf n); [|apply IH].
  destruct (root nodes) as [r|]; [|done]. cbn [bind].
  rewrite <- (assoc_L (++)). apply IH.
Qed.

(** X12, decoding a concatenation: on any arena, if the loop of [decode]
    run over [bits1] ends on the root node with the output [s1], then
    decoding [bits1 ++ bits2] gives [s1] followed by what decoding [bits2]
    gives, and fails if decoding [bits2] fails. *)
Theorem X12_decode_app nodes bits1 bits2 rt s1 :
  root nodes = Ok rt →
  decode_loop nodes bits1 rt [] = Ok (rt, s1) →
  decode {| binary_data_ := bits1 ++ bits2; nodes_ := nodes |} =
  let* s2 := decode {| binary_data_ := bits2; nodes_ := nodes |} in
  Ok (s1 ++ s2).
Proof.
  intros Hrt H1. unfold decode. cbn [nodes_ binary_data_].
  rewrite Hrt. cbn [bind]. rewrite (decode_loop_app _ _ _ _ _ _ _ H1).
  rewrite <- (app_nil_r s1) at 1. rewrite decode_loop_prepend.
  by destruct (decode_loop nodes bits2 rt []) as [[??]|].
Qed.

Lemma decode_loop_length nodes bits : ∀ nd str nd' str',
  decode_loop nodes bits nd str = Ok (nd', str') →
  (length str ≤ length str' ≤ length str + length bits)%nat.
Proof.
  induction bits as [|b bits IH]; intros nd str nd' str' Hd.
  { cbn in Hd. simplify_eq. simpl. lia. }
  cbn [decode_loop] in Hd.
  destruct (vec_at nodes (if b then right nd else left nd)) as [n|]; [|done].
  cbn [bind] in Hd. destruct (isLeaf n).
  - destruct (root nodes) as [r|]; [|done]. cbn [bind] in Hd.
    apply IH in Hd. rewrite length_app in Hd. simpl in *. lia.
  - apply IH in Hd. simpl. lia.
Qed.

(** X13, one byte per bit at most: whatever the artifact, when [decode]
    returns, its output has no more bytes than the artifact has bits. *)
Theorem X13_decode_length e s :
  decode e = Ok s → (length s ≤ length (binary_data_ e))%nat.
Proof.
  unfold decode. destruct (root (nodes_ e)) as [r|]; [|done]. cbn [bind].
  destruct (decode_loop _ _ _ _) as [[nd' str']|] eqn:Hd; [|done].
  cbn [bind]. intros [= <-]. apply decode_loop_length in Hd. simpl in *. lia.
Qed.

(** X14, an arena whose last node is a leaf: if the arena is empty, or its
    root is a leaf (as in the arena of the empty input), [decode] returns
    the empty string when the arena is not empty and there are no bits, and
    otherwise indexes the arena out of bounds: with the empty arena through
    [root()], with a leaf as root through the sentinel -1 at the first
    bit. *)
Theorem X14_decode_leaf_root e :
  (∀ rt, root (nodes_ e) = Ok rt → isLeaf rt = true) →
  decode e =
    match nodes_ e, binary_data_ e with
    | _ :: _, [] => Ok []
    | _, _ => Err OutOfBounds
    end.
Proof.
  intros Hleaf. unfold decode.
  destruct (root (nodes_ e)) as [r|] eqn:Hr.
  - specialize (Hleaf r eq_refl). cbn [bind].
    assert (nodes_ e ≠ []) as Hne.
    { intros Hn. rewrite Hn in Hr. done. }
    destruct (nodes_ e) as [|n0 ns] eqn:Hn; [done|].
    destruct (binary_data_ e) as [|b bits]; [done|].
    cbn [decode_loop]. unfold isLeaf in Hleaf.
    apply andb_true_iff in Hleaf as [Hl%Z.eqb_eq Hr'%Z.eqb_eq].
    rewrite Hl, Hr'. by destruct b.
  - unfold root, vec_back in Hr. cbn [bind].
    destruct (last (nodes_ e)) eqn:Hlast; [done|]. simplify_eq.
    apply last_None in Hlast. by rewrite Hlast.
Qed.

Lemma decode_loop_single_any V bits : ∀ str,
  decode_loop [mkNode (-1) (-1) V; mkNode (-1) 0 x00] bits
              (mkNode (-1) 0 x00) str =
  if forallb id bits
  then Ok (mkNode (-1) 0 x00, str ++ replicate (length bits) V)
  else Err OutOfBounds.
Proof.
  induction bits as [|b bits IH]; intros str.
  { cbn. by rewrite app_nil_r. }
  destruct b; cbn [decode_loop forallb id andb right left]; [|done].
  change (vec_at _ 0) with (Ok (mkNode (-1) (-1) V)). cbn [bind].
  change (isLeaf _) with true. cbv iota.
  change (root _) with (Ok (mkNode (-1) 0 x00)). cbn [bind].
  rewrite IH. destruct (forallb id bits); [|done].
  by rewrite <- (assoc_L (++)).
Qed.

Section single_symbol_decode.
Context `{HeapAlgorithms}.

(** X15, decoding over the arena of a single-symbol input: for an input
    whose bytes are all the same value [V], [decode] run on the arena of the
    input with any bit sequence returns one [V] per bit if every bit is 1,
    and indexes the arena with the sentinel -1, out of bounds, as soon as a
    bit is 0. *)
Theorem X15_decode_single_symbol input_data :
  span_ok input_data → distinct_bytes input_data = 1%nat →
  ∃ V nodes,
    (∀ b, b ∈ input_data → b = V) ∧
    init_tree input_data = Ok nodes ∧
    ∀ bits,
      decode {| binary_data_ := bits; nodes_ := nodes |} =
      if forallb id bits then Ok (replicate (length bits) V)
      else Err OutOfBounds.
Proof.
  intros Hok Hk. destruct (init_tree_1 input_data Hok Hk) as (V & HV & _ & Ht).
  exists V, [mkNode (-1) (-1) V; mkNode (-1) 0 x00]. split_and!; [done..|].
  intros bits. unfold decode. cbn [nodes_ binary_data_].
  change (root _) with (Ok (mkNode (-1) 0 x00)). cbn [bind].
  rewrite decode_loop_single_any. by destruct (forallb id bits).
Qed.
End single_symbol_decode.

Lemma decode_loop_total nodes rt irt l0 r0 :
  root nodes = Ok rt → repr nodes irt (Fork l0 r0) →
  vec_at nodes irt = Ok rt →
  ∀ bits i l r nd str,
    repr nodes i (Fork l r) → vec_at nodes i = Ok nd →
    leaves (Fork l r) ⊆ leaves (Fork l0 r0) →
    ∃ nd' out,
      decode_loop nodes bits nd str = Ok (nd', str ++ out) ∧
      ∀ b, b ∈ out → b ∈ leaves (Fork l0 r0).
Proof.
  intros Hrt Hrepr0 Hat0.
  induction bits as [|b bits IH]; intros i l r nd str Hrepr Hat Hsub.
  { exists nd, []. split; [by rewrite app_nil_r|]. by intros ? ?%elem_of_nil. }
  destruct Hrepr as (il & ir & Hnd & Hil & Hir & Hl & Hr).
  rewrite Hnd in Hat. injection Hat as <-.
  cbn [decode_loop right left].
  set (ic := if b then ir else il). set (c := if b then r else l).
  assert (repr nodes ic c) as Hc by (by destruct b).
  assert (leaves c ⊆ leaves (Fork l0 r0)) as Hcsub.
  { intros v Hv. apply Hsub. cbn [leaves]. apply elem_of_app.
    destruct b; [by right|by left]. }
  destruct c as [v|cl cr].
  - simpl in Hc. rewrite Hc. cbn [bind]. change (isLeaf _) with true.
    cbv iota. rewrite Hrt. cbn [bind value].
    destruct (IH irt l0 r0 rt (str ++ [v]) Hrepr0 Hat0) as (nd' & out & Hd & Ho);
      [done|].
    exists nd', (v :: out). split.
    + by rewrite Hd, <- (assoc_L (++)).
    + intros b' [->|?]%elem_of_cons; [|by apply Ho].
      apply Hcsub. simpl. by apply list_elem_of_here.
  - pose proof Hc as (jl & jr & Hcn & Hjl & _). rewrite Hcn. cbn [bind].
    assert (isLeaf (mkNode jl jr x00) = false) as ->.
    { unfold isLeaf. simpl. destruct (Z.eqb_spec jl (-1)); [lia|done]. }
    by apply (IH ic cl cr).
Qed.

Lemma all_bits_single V Y :
  (∀ b, b ∈ Y → b = V) →
  all_bits (<[V := [x01]]> dict_empty) Y = replicate (length Y) true.
Proof.
  induction Y as [|y Y IH]; intros HY; [done|].
  unfold all_bits in *. cbn [mbind list_bind length replicate].
  fold (@mbind list _ _ _ (λ ch, bits_of (<[V := [x01]]> dict_empty ch)) Y).
  rewrite IH by (intros; apply HY; by apply list_elem_of_further).
  rewrite (HY y) by apply list_elem_of_here.
  rewrite fn_lookup_insert. by rewrite bits_of_x01.
Qed.

Section alphabet_decode.
Context `{HeapAlgorithms}.

(** X16, decoding arbitrary bits: on the arena of an input with k >= 2
    distinct bytes, [decode] returns for every bit sequence whatsoever (no
    index it uses is out of bounds), its output has at most one byte per
    bit, and every byte of its output occurs in the input. *)
Theorem X16_decode_total input_data :
  span_ok input_data → (2 ≤ distinct_bytes input_data)%nat →
  ∃ nodes,
    init_tree input_data = Ok nodes ∧
    ∀ bits, ∃ s,
      decode {| binary_data_ := bits; nodes_ := nodes |} = Ok s ∧
      (length s ≤ length bits)%nat ∧
      ∀ b, b ∈ s → b ∈ input_data.
Proof.
  intros Hok Hk.
  destruct (code_table_ge_2 input_data Hok Hk)
    as (nodes & t & dict & rt & Ht & Hlen & _ & Hrepr & Hleaves & Hroot
        & Hnl & _).
  exists nodes. split; [done|]. intros bits.
  destruct t as [v|l0 r0].
  { simpl in Hrepr. apply root_lookup in Hrepr. rewrite Hroot in Hrepr.
    by simplify_eq. }
  pose proof Hrepr as (il & ir & Hat & _).
  pose proof (root_lookup _ _ Hat) as Hroot'. rewrite Hroot in Hroot'.
  injection Hroot' as ->.
  destruct (decode_loop_total nodes _ _ l0 r0 Hroot Hrepr Hat bits
              _ l0 r0 _ [] Hrepr Hat) as (nd' & out & Hd & Ho); [done|].
  exists out. unfold decode. cbn [nodes_ binary_data_]. rewrite Hroot.
  cbn [bind]. rewrite Hd. cbn [bind]. split_and!; [done| |].
  - apply decode_loop_length in Hd. simpl in Hd. lia.
  - intros b Hb. apply Ho in Hb. rewrite Hleaves in Hb.
    by rewrite elem_of_remove_dups in Hb.
Qed.

Lemma decode_alphabet input_data :
  span_ok input_data →
  ∃ nodes dict,
    init_tree input_data = Ok nodes ∧
    init_dict nodes (root_index nodes) dict_empty = Ok dict ∧
    ∀ Y, (∀ b, b ∈ Y → b ∈ input_data) →
      decode {| binary_data_ := all_bits dict Y; nodes_ := nodes |} = Ok Y.
Proof.
  intros Hok.
  destruct (decide (distinct_bytes input_data = 0%nat)) as [H0|H0];
    [|destruct (decide (distinct_bytes input_data = 1%nat)) as [H1|H1]].
  - destruct (encode_0 input_data Hok H0) as [-> _].
    eexists _, _. split_and!; [by apply init_tree_0|reflexivity|].
    intros Y HY. destruct Y as [|y Y]; [done|].
    pose proof (HY y (list_elem_of_here _ _)) as Hy. by apply elem_of_nil in Hy.
  - destruct (encode_1 input_data Hok H1)
      as (V & HX & Hn & Ht & Hd & _).
    eexists _, _. split_and!; [done| |].
    { rewrite root_index_small by (simpl; lia). exact Hd. }
    intros Y HY.
    assert (∀ b, b ∈ Y → b = V) as HV.
    { intros b Hb%HY. rewrite HX in Hb. by apply elem_of_replicate in Hb as []. }
    rewrite all_bits_single by done. unfold decode.
    cbn [nodes_ binary_data_]. change (root _) with (Ok (mkNode (-1) 0 x00)).
    cbn [bind]. rewrite decode_loop_single. cbn [bind]. f_equal. simpl.
    clear -HV. induction Y as [|y Y IH]; [done|]. simpl.
    rewrite (HV y) by apply list_elem_of_here. f_equal.
    apply IH. intros. apply HV. by apply list_elem_of_further.
  - destruct (code_table_ge_2 input_data Hok)
      as (nodes & t & dict & rt & Ht & Hlen & _ & Hrepr & Hleaves & Hroot
          & Hnl & Hd & Hcodes & _); [lia|].
    exists nodes, dict. split_and!; [done..|].
    intros Y HY. unfold decode. cbn [nodes_ binary_data_]. rewrite Hroot.
    cbn [bind].
    assert (vec_at nodes (Z.of_nat (length nodes) - 1) = Ok rt) as Hat.
    { destruct t as [v|l0 r0]; simpl in Hrepr.
      - pose proof (root_lookup _ _ Hrepr) as Hr. rewrite Hroot in Hr.
        by simplify_eq.
      - destruct Hrepr as (il & ir & Hat & _).
        pose proof (root_lookup _ _ Hat) as Hr. rewrite Hroot in Hr.
        by simplify_eq. }
    rewrite (decode_loop_all_bits nodes rt t dict _ Y [] Hroot Hrepr Hat Hnl);
      [done|].
    intros b Hb. by apply Hcodes, HY.
Qed.

(** X17, unique decodability: with the arena and the dictionary of an
    input, the concatenated paths of any message made of bytes of the input
    decode back to that message; hence two such messages with the same
    concatenated paths are equal. *)
Theorem X17_decode_alphabet input_data :
  span_ok input_data →
  ∃ nodes dict,
    init_tree input_data = Ok nodes ∧
    init_dict nodes (root_index nodes) dict_empty = Ok dict ∧
    (∀ Y, (∀ b, b ∈ Y → b ∈ input_data) →
       decode {| binary_data_ := all_bits dict Y; nodes_ := nodes |} = Ok Y) ∧
    (∀ Y Y', (∀ b, b ∈ Y → b ∈ input_data) →
       (∀ b, b ∈ Y' → b ∈ input_data) →
       all_bits dict Y = all_bits dict Y' → Y = Y').
Proof.
  intros Hok.
  destruct (decode_alphabet input_data Hok) as (nodes & dict & Ht & Hd & Hdec).
  exists nodes, dict. split_and!; [done..|].
  intros Y Y' HY HY' Heq.
  pose proof (Hdec Y HY) as H1. pose proof (Hdec Y' HY') as H2.
  rewrite Heq in H1. rewrite H1 in H2. by injection H2.
Qed.

(** X18, [encode] is injective: two inputs with equal artifacts (equal
    arenas and equal bit sequences) are equal. *)
Theorem X18_encode_injective input_data1 input_data2 :
  bits_fit input_data1 → bits_fit input_data2 →
  encode input_data1 = encode input_data2 → input_data1 = input_data2.
Proof.
  intros H1 H2 Heq.
  destruct (encode_decode_spec input_data1 H1) as (e1 & ? & He1 & _ & _ & _ & _ & Hd1).
  destruct (encode_decode_spec input_data2 H2) as (e2 & ? & He2 & _ & _ & _ & _ & Hd2).
  rewrite He1, He2 in Heq. injection Heq as ->.
  rewrite Hd1 in Hd2. by injection Hd2.
Qed.
End alphabet_decode.

(** X19, [root_index()] against [root()]: for an arena of at most 2^16
    nodes, [root_index()] is the index of the last node as long as the arena
    has at most 2^15 nodes (-1 for the empty arena), and indexing the arena
    with it then behaves as [root()] does; for a larger arena the conversion
    to [int16_t] wraps it to the negative number size - 1 - 2^16, which is
    out of bounds. *)
Theorem X19_root_index nodes :
  Z.of_nat (length nodes) ≤ 2 ^ 16 →
  root_index nodes =
    (if Z.of_nat (length nodes) <=? 2 ^ 15 then Z.of_nat (length nodes) - 1
     else Z.of_nat (length nodes) - 1 - 2 ^ 16) ∧
  vec_at nodes (root_index nodes) =
    (if Z.of_nat (length nodes) <=? 2 ^ 15 then root nodes
     else Err OutOfBounds).
Proof.
  intros Hlen.
  assert (root_index nodes =
    (if Z.of_nat (length nodes) <=? 2 ^ 15 then Z.of_nat (length nodes) - 1
     else Z.of_nat (length nodes) - 1 - 2 ^ 16)) as Hri.
  { unfold root_index. rewrite vec_size_small by lia.
    unfold to_int16, to_size_t.
    destruct (Z.leb_spec (Z.of_nat (length nodes)) (2 ^ 15)); div_lia. }
  split; [done|]. rewrite Hri.
  destruct (Z.leb_spec (Z.of_nat (length nodes)) (2 ^ 15)) as [Hle|Hgt].
  - unfold root, vec_back, vec_at. rewrite last_lookup.
    destruct nodes as [|n ns]; [done|].
    destruct (Z.ltb_spec (Z.of_nat (length (n :: ns)) - 1) 0) as [Hn|_];
      [simpl in Hn; lia|].
    replace (Z.to_nat (Z.of_nat (length (n :: ns)) - 1))
      with (pred (length (n :: ns))) by (simpl; lia).
    by destruct (_ !! _).
  - unfold vec_at.
    by destruct (Z.ltb_spec (Z.of_nat (length nodes) - 1 - 2 ^ 16) 0); [|lia].
Qed.

(** ** Further properties: permuted inputs and completeness *)

Lemma kraft_codes t : ∀ m,
  (height t ≤ m)%nat →
  sumZ ((λ vp, 2 ^ Z.of_nat (m - length vp.2)) <$> codes t) = 2 ^ Z.of_nat m.
Proof.
  induction t as [v|l IHl r IHr]; intros m Hm.
  { cbn. rewrite Nat.sub_0_r. unfold sumZ. simpl. lia. }
  simpl in Hm. destruct m as [|m]; [lia|].
  cbn [codes]. rewrite fmap_app, sumZ_app, <- !list_fmap_compose.
  assert (∀ (c : byte) t',
    (λ vp : byte * list byte, 2 ^ Z.of_nat (S m - length vp.2))
      ∘ prod_map id (cons c) <$> codes t' =
    (λ vp, 2 ^ Z.of_nat (m - length vp.2)) <$> codes t') as Hext.
  { intros c t'. apply list_fmap_ext. by intros ? [??]. }
  rewrite !Hext, IHl, IHr by lia.
  rewrite Nat2Z.inj_succ, Z.pow_succ_r by lia. lia.
Qed.

Lemma NoDup_fst_functional {A B} (l : list (A * B)) x y1 y2 :
  NoDup l.*1 → (x, y1) ∈ l → (x, y2) ∈ l → y1 = y2.
Proof.
  induction l as [|[a b] l IH]; intros Hnd H1 H2.
  { by apply elem_of_nil in H1. }
  cbn in Hnd. apply NoDup_cons in Hnd as [Hnot Hnd].
  assert (∀ y, (a, y) ∈ l → False) as Hno.
  { intros y Hy. apply Hnot. apply list_elem_of_fmap. by exists (a, y). }
  apply elem_of_cons in H1 as [H1|H1], H2 as [H2|H2]; simplify_eq.
  - done.
  - by destruct (Hno y2).
  - by destruct (Hno y1).
  - by apply IH.
Qed.

Lemma codes_dict t dict :
  NoDup (leaves t) →
  (∀ b, b ∈ leaves t → (b, dict b) ∈ codes t) →
  ∀ v p, (v, p) ∈ codes t → p = dict v.
Proof.
  intros Hnd Hdict v p Hvp.
  pose proof (Hdict v (codes_leaf _ _ _ Hvp)) as Hd.
  rewrite <- codes_fst in Hnd.
  by eapply NoDup_fst_functional.
Qed.

Section completeness.
Context `{HeapAlgorithms}.

(** X22, the code is complete: for an input with k >= 2 distinct bytes,
    the sum over the distinct bytes [b] of the input of 2^(k - |path of b|)
    is 2^k, that is, the Kraft sum of the lengths of the paths is exactly
    1. *)
Theorem X22_kraft input_data :
  span_ok input_data → (2 ≤ distinct_bytes input_data)%nat →
  ∃ nodes dict,
    init_tree input_data = Ok nodes ∧
    init_dict nodes (root_index nodes) dict_empty = Ok dict ∧
    kraft_sum dict (distinct_bytes input_data) (remove_dups input_data) =
      2 ^ Z.of_nat (distinct_bytes input_data).
Proof.
  intros Hok Hk.
  destruct (code_table_ge_2 input_data Hok Hk)
    as (nodes & t & dict & rt & Ht & Hlen & _ & Hrepr & Hleaves & Hroot
        & Hnl & Hd & Hcodes & _).
  exists nodes, dict. split_and!; [done..|].
  assert (length (leaves t) = distinct_bytes input_data) as Hkk
    by (by rewrite Hleaves).
  pose proof (height_lt_leaves t) as Hh.
  rewrite <- (kraft_codes t) by lia.
  unfold kraft_sum. rewrite <- Hleaves, <- codes_fst, <- list_fmap_compose.
  f_equal. apply Forall_fmap_ext, Forall_forall. intros [v p] Hvp. simpl.
  assert (p = dict v) as ->; [|done].
  apply (codes_dict t dict); [| |done].
  - rewrite Hleaves. apply NoDup_remove_dups.
  - intros b Hb. apply Hcodes. rewrite Hleaves in Hb.
    by rewrite elem_of_remove_dups in Hb.
Qed.

(** X21, encoding a permuted input: if [l2] is a permutation of [l1], both
    are encoded with the same arena and the same dictionary, each bit
    sequence is the concatenation of the paths of its own bytes in its own
    order, and the two bit sequences have the same length. *)
Theorem X21_encode_permutation l1 l2 :
  bits_fit l1 → l1 ≡ₚ l2 →
  ∃ e1 e2 dict,
    encode l1 = Ok e1 ∧ encode l2 = Ok e2 ∧
    nodes_ e1 = nodes_ e2 ∧
    init_dict (nodes_ e1) (root_index (nodes_ e1)) dict_empty = Ok dict ∧
    binary_data_ e1 = all_bits dict l1 ∧
    binary_data_ e2 = all_bits dict l2 ∧
    length (binary_data_ e1) = length (binary_data_ e2).
Proof.
  intros Hfit Hp.
  assert (bits_fit l2) as Hfit2.
  { unfold bits_fit in *. by rewrite <- Hp. }
  destruct (encode_decode_spec l1 Hfit)
    as (e1 & dict & He1 & Ht1 & Hd1 & Hb1 & _).
  destruct (encode_decode_spec l2 Hfit2)
    as (e2 & dict2 & He2 & Ht2 & Hd2 & Hb2 & _).
  rewrite (init_tree_perm l1 l2 (bits_fit_span_ok _ Hfit) Hp), Ht2 in Ht1.
  injection Ht1 as Hn. rewrite Hn, Hd1 in Hd2. injection Hd2 as <-.
  exists e1, e2, dict. split_and!; [done|done|done|done|done|done|].
  apply Nat2Z.inj. rewrite Hb1, Hb2, !all_bits_length. unfold bit_total.
  by rewrite Hp.
Qed.
End completeness.

(** ** The theorems at concrete inputs, run with [std_heap] *)

Lemma C1_round_trip_witness :
  bits_fit all_bytes ∧
  ∃ e, @encode std_heap all_bytes = Ok e ∧ decode e = Ok all_bytes.
Proof.
  split; [by vm_compute|]. apply (@C1_round_trip std_heap). by vm_compute.
Defined.

Lemma C2_arena_size_witness :
  span_ok all_bytes ∧
  ∃ nodes, @init_tree std_heap all_bytes = Ok nodes ∧ length nodes = 511%nat.
Proof.
  split; [by vm_compute|].
  destruct (@C2_arena_size std_heap all_bytes)
    as (nodes & Ht & _ & Hlen & _); [by vm_compute|].
  exists nodes. split; [exact Ht|]. exact Hlen.
Defined.

Lemma C3_prefix_free_witness :
  span_ok (bytes_of_string "abracadabra") ∧
  (2 ≤ distinct_bytes (bytes_of_string "abracadabra"))%nat ∧
  ∃ nodes dict,
    @init_tree std_heap (bytes_of_string "abracadabra") = Ok nodes ∧
    init_dict nodes (root_index nodes) dict_empty = Ok dict ∧
    ¬ dict "a"%byte `prefix_of` dict "b"%byte.
Proof.
  split; [by vm_compute|]. split; [vm_compute; lia|].
  destruct (@C3_prefix_free std_heap (bytes_of_string "abracadabra"))
    as (nodes & dict & Ht & Hd & _ & Hpf); [by vm_compute|vm_compute; lia|].
  exists nodes, dict. split; [exact Ht|]. split; [exact Hd|].
  apply Hpf; [apply list_elem_of_here|apply list_elem_of_further, list_elem_of_here|done].
Defined.

Lemma C4_bit_length_witness :
  bits_fit (bytes_of_string "abracadabra") ∧
  ∃ e dict,
    @encode std_heap (bytes_of_string "abracadabra") = Ok e ∧
    init_dict (nodes_ e) (root_index (nodes_ e)) dict_empty = Ok dict ∧
    Z.of_nat (length (binary_data_ e)) =
      sumZ ((λ ch, Z.of_nat (length (dict ch)))
              <$> bytes_of_string "abracadabra").
Proof.
  split; [by vm_compute|].
  destruct (@C4_bit_length std_heap (bytes_of_string "abracadabra"))
    as (e & dict & He & Hd & Hlen & _); [by vm_compute|].
  exists e, dict. split; [exact He|]. split; [exact Hd|]. exact Hlen.
Defined.

Lemma C5_single_symbol_witness :
  (1 ≤ 3)%nat ∧ Z.of_nat 3 < 2 ^ 64 ∧
  ∃ e, @encode std_heap (bytes_of_string "aaa") = Ok e ∧
       binary_data_ e = [true; true; true] ∧
       decode e = Ok (bytes_of_string "aaa").
Proof.
  split; [lia|]. split; [by vm_compute|].
  destruct (@C5_single_symbol std_heap "a"%byte 3)
    as (e & dict & He & _ & _ & _ & _ & Hb & Hd); [lia|by vm_compute|].
  exists e. split; [exact He|]. split; [exact Hb|]. exact Hd.
Defined.

Lemma C6_merge_loop_witness :
  span_ok (bytes_of_string "abb") ∧
  (2 ≤ distinct_bytes (bytes_of_string "abb"))%nat ∧
  ∃ nodes_with_size,
    @init_tree std_heap (bytes_of_string "abb") = Ok (node <$> nodes_with_size) ∧
    root_index (node <$> nodes_with_size) =
      Z.of_nat (length nodes_with_size) - 1.
Proof.
  split; [by vm_compute|]. split; [vm_compute; lia|].
  destruct (proj1 (@C6_merge_loop std_heap) (bytes_of_string "abb"))
    as (q0 & nws & _ & _ & _ & Ht & Hr); [by vm_compute|vm_compute; lia|].
  exists nws. split; [exact Ht|]. exact Hr.
Defined.

Lemma C7_truncated_decode_witness :
  root (nodes_ truncated_artifact) = Ok (mkNode 2 3 x00) ∧
  decode_loop (nodes_ truncated_artifact) (binary_data_ truncated_artifact)
              (mkNode 2 3 x00) [] = Ok (mkNode 0 1 x00, ["c"%byte]) ∧
  mkNode 0 1 x00 ≠ mkNode 2 3 x00 ∧
  decode truncated_artifact = Ok ["c"%byte].
Proof.
  split; [done|]. split; [done|]. split; [done|].
  destruct (proj1 (@C7_truncated_decode std_heap) truncated_artifact
              (mkNode 2 3 x00) (mkNode 0 1 x00) ["c"%byte])
    as [Hd _]; [done..|].
  exact Hd.
Defined.

Lemma C8_total_witness :
  bits_fit (bytes_of_string "abracadabra") ∧
  ∃ e s, @encode std_heap (bytes_of_string "abracadabra") = Ok e ∧
         decode e = Ok s.
Proof.
  split; [by vm_compute|].
  destruct (@C8_total std_heap (bytes_of_string "abracadabra"))
    as (e & rt & s & He & _ & Hd & _); [by vm_compute|].
  exists e, s. split; [exact He|]. exact Hd.
Defined.

Lemma C9_adapters_witness :
  span_ok (bytes_of_string "abracadabra") ∧
  @encode_string_view std_heap (bytes_of_string "abracadabra") =
  @encode std_heap (bytes_of_string "abracadabra").
Proof.
  split; [by vm_compute|].
  destruct (@C9_adapters std_heap (bytes_of_string "abracadabra"))
    as (_ & _ & Hsv); [by vm_compute|].
  exact Hsv.
Defined.

Lemma C10_arena_nonempty_witness :
  bits_fit (bytes_of_string "") ∧
  ∃ e, @encode std_heap (bytes_of_string "") = Ok e ∧ nodes_ e ≠ [].
Proof.
  split; [by vm_compute|].
  destruct (proj1 (@C10_arena_nonempty std_heap) (bytes_of_string ""))
    as (e & rt & He & Hne & _); [by vm_compute|].
  exists e. split; [exact He|]. exact Hne.
Defined.

Lemma X2_count_bytes_permutation_witness :
  bytes_of_string "ab" ≡ₚ bytes_of_string "ba" ∧
  count_bytes (bytes_of_string "ab") = count_bytes (bytes_of_string "ba").
Proof.
  split; [apply Permutation_swap|].
  apply X2_count_bytes_permutation. apply Permutation_swap.
Defined.

Lemma X3_make_leaf_nodes_witness :
  (length (count_bytes (bytes_of_string "abracadabra")) ≤ 256)%nat ∧
  StronglySorted byte_lt
    (leaf_values
       (make_leaf_nodes (count_bytes (bytes_of_string "abracadabra")))).
Proof.
  split; [vm_compute; lia|].
  destruct (X3_make_leaf_nodes
              (count_bytes (bytes_of_string "abracadabra")))
    as (_ & _ & Hs & _); [vm_compute; lia|].
  exact Hs.
Defined.

Lemma X4_leaves_of_input_witness :
  span_ok (bytes_of_string "abracadabra") ∧
  mkNodeWithCount (mkNode (-1) (-1) "a")
    (Z.of_nat (occurrences "a"%byte (bytes_of_string "abracadabra")))
    ∈ make_leaf_nodes (count_bytes (bytes_of_string "abracadabra")).
Proof.
  split; [by vm_compute|].
  destruct (X4_leaves_of_input (bytes_of_string "abracadabra"))
    as (_ & Hin & _); [by vm_compute|].
  apply Hin. apply list_elem_of_here.
Defined.

Lemma X5_init_tree_permutation_witness :
  span_ok (bytes_of_string "abb") ∧
  bytes_of_string "abb" ≡ₚ bytes_of_string "bab" ∧
  @init_tree std_heap (bytes_of_string "abb") =
  @init_tree std_heap (bytes_of_string "bab").
Proof.
  split; [by vm_compute|]. split; [apply Permutation_swap|].
  apply (@X5_init_tree_permutation std_heap);
    [by vm_compute|apply Permutation_swap].
Defined.

Lemma X6_arena_shape_witness :
  span_ok (bytes_of_string "abracadabra") ∧
  (2 ≤ distinct_bytes (bytes_of_string "abracadabra"))%nat ∧
  ∃ internal,
    @init_tree std_heap (bytes_of_string "abracadabra") =
      Ok ((node <$> make_leaf_nodes
                      (count_bytes (bytes_of_string "abracadabra")))
          ++ internal) ∧
    length internal =
      (distinct_bytes (bytes_of_string "abracadabra") - 1)%nat.
Proof.
  split; [by vm_compute|]. split; [vm_compute; lia|].
  destruct (@X6_arena_shape std_heap (bytes_of_string "abracadabra"))
    as (internal & Ht & Hlen & _); [by vm_compute|vm_compute; lia|].
  exists internal. split; [exact Ht|exact Hlen].
Defined.

Lemma X7_loop_conservation_witness :
  span_ok (bytes_of_string "abracadabra") ∧
  ∃ nws,
    @init_tree std_heap (bytes_of_string "abracadabra") = Ok (node <$> nws) ∧
    count_at nws (Z.of_nat (length nws) - 1) =
      Z.of_nat (length (bytes_of_string "abracadabra")).
Proof.
  split; [by vm_compute|].
  destruct (@X7_loop_conservation std_heap (bytes_of_string "abracadabra"))
    as (q0 & _ & _ & Hend); [by vm_compute|].
  destruct Hend as (nws & _ & Ht & Hc); [vm_compute; lia|].
  exists nws. split; [exact Ht|exact Hc].
Defined.

Lemma X8_init_dict_reads_witness :
  span_ok (bytes_of_string "abracadabra") ∧
  ∃ nodes,
    @init_tree std_heap (bytes_of_string "abracadabra") = Ok nodes ∧
    init_dict_reads (length nodes) nodes (root_index nodes) ≡ₚ
      Z.of_nat <$> seq 0 (length nodes).
Proof.
  split; [by vm_compute|].
  apply (@X8_init_dict_reads std_heap). by vm_compute.
Defined.

Lemma X9_init_dict_frame_witness :
  ∃ dict',
    init_dict_rec 5 (nodes_ truncated_artifact) 4 dict_empty [] =
      Ok (dict', []) ∧
    ∀ b, dict' b = dict_empty b ∨
         ([] `prefix_of` dict' b ∧
          ∃ n, n ∈ nodes_ truncated_artifact ∧ isLeaf n = true ∧ value n = b).
Proof.
  eexists. split; [reflexivity|].
  eapply (X9_init_dict_frame (nodes_ truncated_artifact) 5 4 dict_empty []).
  reflexivity.
Defined.

Lemma X10_code_table_witness :
  span_ok (bytes_of_string "abracadabra") ∧
  ∃ nodes dict,
    @init_tree std_heap (bytes_of_string "abracadabra") = Ok nodes ∧
    init_dict nodes (root_index nodes) dict_empty = Ok dict ∧
    (dict "z"%byte = [] ↔ "z"%byte ∉ bytes_of_string "abracadabra").
Proof.
  split; [by vm_compute|].
  destruct (@X10_code_table std_heap (bytes_of_string "abracadabra"))
    as (nodes & dict & Ht & Hd & Hall); [by vm_compute|].
  exists nodes, dict. split; [exact Ht|]. split; [exact Hd|].
  exact (proj1 (Hall "z"%byte)).
Defined.

Lemma X11_bits_bounds_witness :
  bits_fit (bytes_of_string "abracadabra") ∧
  ∃ e,
    @encode std_heap (bytes_of_string "abracadabra") = Ok e ∧
    Z.of_nat (length (bytes_of_string "abracadabra")) ≤
      Z.of_nat (length (binary_data_ e)).
Proof.
  split; [by vm_compute|].
  destruct (@X11_bits_bounds std_heap (bytes_of_string "abracadabra"))
    as (e & He & Hlo & _); [by vm_compute|].
  exists e. split; [exact He|exact Hlo].
Defined.

Lemma X12_decode_app_witness :
  root (nodes_ truncated_artifact) = Ok (mkNode 2 3 x00) ∧
  decode_loop (nodes_ truncated_artifact) [false] (mkNode 2 3 x00) [] =
    Ok (mkNode 2 3 x00, ["c"%byte]) ∧
  decode {| binary_data_ := [false] ++ [true; true];
            nodes_ := nodes_ truncated_artifact |} =
  let* s2 := decode {| binary_data_ := [true; true];
                       nodes_ := nodes_ truncated_artifact |} in
  Ok (["c"%byte] ++ s2).
Proof.
  split; [reflexivity|]. split; [reflexivity|].
  apply (X12_decode_app (nodes_ truncated_artifact) [false] [true; true]
           (mkNode 2 3 x00) ["c"%byte]); reflexivity.
Defined.

Lemma X13_decode_length_witness :
  decode truncated_artifact = Ok ["c"%byte] ∧
  (length ["c"%byte] ≤ length (binary_data_ truncated_artifact))%nat.
Proof.
  split; [reflexivity|].
  apply (X13_decode_length truncated_artifact ["c"%byte]). reflexivity.
Defined.

Lemma X14_decode_leaf_root_witness :
  (∀ rt, root [mkNode (-1) (-1) x00] = Ok rt → isLeaf rt = true) ∧
  decode {| binary_data_ := [true]; nodes_ := [mkNode (-1) (-1) x00] |} =
  Err OutOfBounds.
Proof.
  assert (∀ rt, root [mkNode (-1) (-1) x00] = Ok rt → isLeaf rt = true)
    as Hleaf.
  { intros rt Hrt. injection Hrt as <-. reflexivity. }
  split; [exact Hleaf|].
  exact (X14_decode_leaf_root
           {| binary_data_ := [true]; nodes_ := [mkNode (-1) (-1) x00] |}
           Hleaf).
Defined.

Lemma X15_decode_single_symbol_witness :
  span_ok (bytes_of_string "aaa") ∧
  distinct_bytes (bytes_of_string "aaa") = 1%nat ∧
  ∃ nodes,
    @init_tree std_heap (bytes_of_string "aaa") = Ok nodes ∧
    decode {| binary_data_ := [true; false]; nodes_ := nodes |} =
    Err OutOfBounds.
Proof.
  split; [by vm_compute|]. split; [by vm_compute|].
  destruct (@X15_decode_single_symbol std_heap (bytes_of_string "aaa"))
    as (V & nodes & _ & Ht & Hd); [by vm_compute|by vm_compute|].
  exists nodes. split; [exact Ht|]. exact (Hd [true; false]).
Defined.

Lemma X16_decode_total_witness :
  span_ok (bytes_of_string "abracadabra") ∧
  (2 ≤ distinct_bytes (bytes_of_string "abracadabra"))%nat ∧
  ∃ nodes s,
    @init_tree std_heap (bytes_of_string "abracadabra") = Ok nodes ∧
    decode {| binary_data_ := [true; false; false; true; true];
              nodes_ := nodes |} = Ok s.
Proof.
  split; [by vm_compute|]. split; [vm_compute; lia|].
  destruct (@X16_decode_total std_heap (bytes_of_string "abracadabra"))
    as (nodes & Ht & Hd); [by vm_compute|vm_compute; lia|].
  destruct (Hd [true; false; false; true; true]) as (s & Hs & _).
  exists nodes, s. split; [exact Ht|exact Hs].
Defined.

Lemma X17_decode_alphabet_witness :
  span_ok (bytes_of_string "abracadabra") ∧
  ∃ nodes dict,
    @init_tree std_heap (bytes_of_string "abracadabra") = Ok nodes ∧
    init_dict nodes (root_index nodes) dict_empty = Ok dict ∧
    decode {| binary_data_ := all_bits dict (bytes_of_string "ab");
              nodes_ := nodes |} = Ok (bytes_of_string "ab").
Proof.
  split; [by vm_compute|].
  destruct (@X17_decode_alphabet std_heap (bytes_of_string "abracadabra"))
    as (nodes & dict & Ht & Hd & Hdec & _); [by vm_compute|].
  exists nodes, dict. split; [exact Ht|]. split; [exact Hd|].
  apply Hdec. intros b Hb.
  apply elem_of_cons in Hb as [->|Hb]; [apply list_elem_of_here|].
  apply elem_of_cons in Hb as [->|Hb];
    [apply list_elem_of_further, list_elem_of_here|].
  exfalso. exact (proj1 (elem_of_nil b) Hb).
Defined.

Lemma X18_encode_injective_witness :
  bits_fit (bytes_of_string "abb") ∧
  @encode std_heap (bytes_of_string "abb") =
    @encode std_heap (bytes_of_string "abb") ∧
  bytes_of_string "abb" = bytes_of_string "abb".
Proof.
  split; [by vm_compute|]. split; [reflexivity|].
  apply (@X18_encode_injective std_heap); [by vm_compute..|reflexivity].
Defined.

Lemma X19_root_index_witness :
  Z.of_nat (length (nodes_ truncated_artifact)) ≤ 2 ^ 16 ∧
  root_index (nodes_ truncated_artifact) = 4 ∧
  vec_at (nodes_ truncated_artifact) (root_index (nodes_ truncated_artifact))
    = root (nodes_ truncated_artifact).
Proof.
  split; [by vm_compute|].
  exact (X19_root_index (nodes_ truncated_artifact)
           ltac:(by vm_compute)).
Defined.

Lemma X20_merge_order_witness :
  span_ok (bytes_of_string "abracadabra") ∧
  ∃ queue0,
    @init_queue std_heap (bytes_of_string "abracadabra") =
      Ok (make_leaf_nodes (count_bytes (bytes_of_string "abracadabra")),
          queue0).
Proof.
  split; [by vm_compute|].
  destruct (@X20_merge_order std_heap (bytes_of_string "abracadabra"))
    as (q0 & Hq & _); [by vm_compute|].
  exists q0. exact Hq.
Defined.

Lemma X21_encode_permutation_witness :
  bits_fit (bytes_of_string "abb") ∧
  bytes_of_string "abb" ≡ₚ bytes_of_string "bab" ∧
  ∃ e1 e2,
    @encode std_heap (bytes_of_string "abb") = Ok e1 ∧
    @encode std_heap (bytes_of_string "bab") = Ok e2 ∧
    nodes_ e1 = nodes_ e2 ∧
    length (binary_data_ e1) = length (binary_data_ e2).
Proof.
  split; [by vm_compute|]. split; [apply Permutation_swap|].
  destruct (@X21_encode_permutation std_heap (bytes_of_string "abb")
              (bytes_of_string "bab"))
    as (e1 & e2 & dict & H1 & H2 & Hn & _ & _ & _ & Hl);
    [by vm_compute|apply Permutation_swap|].
  exists e1, e2. split; [exact H1|]. split; [exact H2|].
  split; [exact Hn|exact Hl].
Defined.

Lemma X22_kraft_witness :
  span_ok (bytes_of_string "abracadabra") ∧
  (2 ≤ distinct_bytes (bytes_of_string "abracadabra"))%nat ∧
  ∃ nodes dict,
    @init_tree std_heap (bytes_of_string "abracadabra") = Ok nodes ∧
    init_dict nodes (root_index nodes) dict_empty = Ok dict ∧
    kraft_sum dict (distinct_bytes (bytes_of_string "abracadabra"))
              (remove_dups (bytes_of_string "abracadabra")) =
      2 ^ Z.of_nat (distinct_bytes (bytes_of_string "abracadabra")).
Proof.
  split; [by vm_compute|]. split; [vm_compute; lia|].
  destruct (@X22_kraft std_heap (bytes_of_string "abracadabra"))
    as (nodes & dict & Ht & Hd & Hk); [by vm_compute|vm_compute; lia|].
  exists nodes, dict. split; [exact Ht|]. split; [exact Hd|]. exact Hk.
Defined.

Lemma X23_reduce_any_order_witness :
  generalized_sum (λ _, [x01])
    (OpSize 0 :: (OpByte <$> bytes_of_string "ab"))
    (OpSize (BinOp (λ _, [x01]) (OpByte "b")
               (OpSize (BinOp (λ _, [x01]) (OpSize 0) (OpByte "a"))))) ∧
  OpSize (BinOp (λ _, [x01]) (OpByte "b")
            (OpSize (BinOp (λ _, [x01]) (OpSize 0) (OpByte "a")))) =
  OpSize (reduce (λ _, [x01]) (bytes_of_string "ab")).
Proof.
  assert (generalized_sum (λ _, [x01])
    (OpSize 0 :: (OpByte <$> bytes_of_string "ab"))
    (OpSize (BinOp (λ _, [x01]) (OpByte "b")
               (OpSize (BinOp (λ _, [x01]) (OpSize 0) (OpByte "a"))))))
    as Hsum.
  { exists [OpByte "b"; OpSize 0; OpByte "a"]. split.
    - cbn. etrans; [apply Permutation_swap|]. apply perm_skip.
      apply Permutation_swap.
    - apply (gnsum_split _ [OpByte "b"] [OpSize 0; OpByte "a"]);
        [done|done|constructor|].
      apply (gnsum_split _ [OpSize 0] [OpByte "a"]);
        [done|done|constructor|constructor]. }
  split; [exact Hsum|].
  destruct (X23_reduce_any_order _ _ _ Hsum) as [Hr _].
  exact Hr.
Defined.
